(** * insertion_ordered_map.h: a copy-on-write, insertion-ordered map

    Shallow embedding of the class template [insertion_ordered_map<K, V, Hash>]
    and of its private [map_structure], followed by the properties of the
    container: the representation invariant, the refinement of every mutating
    operation to a list of key/value pairs, value semantics under sharing,
    and the behaviour under exceptions.

    The embedding keeps the memory picture of the C++ code:
    - every [std::shared_ptr<map_structure>] object alive (the [data] member
      of a container, or a local such as [old_data_struct]) has an identity
      [pid]; a container object is identified with its [data] member;
    - every [map_structure] lives at an address [addr]; [use_count()] is the
      number of [shared_ptr] objects holding that address, and the structure
      is destroyed when the last of them lets go;
    - every node of a [std::list<K>] has an identity [node]; a list iterator
      is the identity of the node it points to;
    - library calls that may throw (allocation, copying a key or a value,
      hashing, comparing) consult a fault schedule carried by the state. *)

From stdpp Require Import gmap list fin_maps.

Abbreviation node := nat (only parsing).
Abbreviation addr := nat (only parsing).
Abbreviation pid := nat (only parsing).

(** Exceptions that can leave a member function. [lookup_error] is the class
    of the header, [out_of_range] is what [std::unordered_map::at] throws,
    and [injected_failure] stands for anything thrown by an allocation, by
    [Hash], or by an operation of [K] or [V]. *)
Inductive exn := lookup_error | out_of_range | injected_failure.

Section Container.

Context {K : Type} {K_eq : EqDecision K} {K_countable : Countable K} {V : Type}.

(** The value [V()] built by the default constructor of [V]. *)
Variable V0 : V.

(** ** map_structure *)

(** [map_structure::mapvaluetype] *)
Record mapvaluetype := MapValue { iter : node; value : V }.

(** [map_structure]: [mappings] is the [std::unordered_map], [insertions] the
    [std::list<K>] (each element with the identity of its node). *)
Record map_structure := MapStructure {
  mappings : gmap K mapvaluetype;
  insertions : list (node * K);
  non_const_refs_given : bool }.

Definition set_mappings (m : gmap K mapvaluetype) (s : map_structure) :=
  MapStructure m (insertions s) (non_const_refs_given s).
Definition set_insertions (l : list (node * K)) (s : map_structure) :=
  MapStructure (mappings s) l (non_const_refs_given s).
Definition set_flag (b : bool) (s : map_structure) :=
  MapStructure (mappings s) (insertions s) b.

(** [map_structure()] *)
Definition map_structure_default : map_structure := MapStructure ∅ [] false.

(** One turn of the loop of the copy constructor: [mappings[*it].iter = it].
    [operator[]] of [std::unordered_map] creates a default entry when the key
    is missing. *)
Definition relink (m : gmap K mapvaluetype) (it : node * K) : gmap K mapvaluetype :=
  match m !! it.2 with
  | Some mv => <[it.2 := MapValue it.1 (value mv)]> m
  | None => <[it.2 := MapValue it.1 V0]> m
  end.

(** The copy of a [std::list]: the same keys in nodes [n0], [n0 + 1], ... *)
Definition copy_list (n0 : node) (l : list (node * K)) : list (node * K) :=
  zip (seq n0 (length l)) l.*2.

(** [map_structure(map_structure const &other)]: both containers are copied,
    the flag is cleared, and the loop makes every entry of [mappings] point
    into the new list. [n0] is the first node the allocator hands out. *)
Definition map_structure_copy (n0 : node) (other : map_structure) : map_structure :=
  let ins := copy_list n0 (insertions other) in
  MapStructure (foldl relink (mappings other) ins) ins false.

(** Unlinking the node [n] from a list. *)
Definition remove_node (n : node) (l : list (node * K)) : list (node * K) :=
  filter (λ p, p.1 ≠ n) l.

(** The key held by node [n], and the node that follows [n]. *)
Fixpoint node_key (n : node) (l : list (node * K)) : option K :=
  match l with
  | [] => None
  | p :: l' => if decide (p.1 = n) then Some p.2 else node_key n l'
  end.
Fixpoint node_next (n : node) (l : list (node * K)) : option (option node) :=
  match l with
  | [] => None
  | p :: l' => if decide (p.1 = n) then Some (head l'.*1) else node_next n l'
  end.

(** ** The state of the program *)

Record world := World {
  objs : gmap addr map_structure;   (* the map_structures alive *)
  ptrs : gmap pid addr;             (* the shared_ptr objects alive *)
  next_addr : addr;                 (* allocators *)
  next_node : node;
  next_pid : pid;
  faults : list bool }.             (* true: the next fallible call throws *)

Definition set_objs (o : gmap addr map_structure) (w : world) :=
  World o (ptrs w) (next_addr w) (next_node w) (next_pid w) (faults w).
Definition set_ptrs (p : gmap pid addr) (w : world) :=
  World (objs w) p (next_addr w) (next_node w) (next_pid w) (faults w).
Definition set_next_addr (n : addr) (w : world) :=
  World (objs w) (ptrs w) n (next_node w) (next_pid w) (faults w).
Definition set_next_node (n : node) (w : world) :=
  World (objs w) (ptrs w) (next_addr w) n (next_pid w) (faults w).
Definition set_next_pid (n : pid) (w : world) :=
  World (objs w) (ptrs w) (next_addr w) (next_node w) n (faults w).
Definition set_faults (f : list bool) (w : world) :=
  World (objs w) (ptrs w) (next_addr w) (next_node w) (next_pid w) f.

(** The program before anything is constructed. *)
Definition init_world : world := World ∅ ∅ 0 0 0 [].

(** ** Computations: state, exceptions, undefined behaviour *)

Inductive result (A : Type) :=
  | Val (a : A) (w : world)      (* normal return *)
  | Exc (e : exn) (w : world)    (* an exception leaves the call *)
  | UB.                          (* undefined behaviour *)
Arguments Val {A} a w.
Arguments Exc {A} e w.
Arguments UB {A}.

Definition M (A : Type) := world → result A.

Definition ret {A} (a : A) : M A := λ w, Val a w.
Definition bind {A B} (m : M A) (f : A → M B) : M B :=
  λ w, match m w with
       | Val a w' => f a w'
       | Exc e w' => Exc e w'
       | UB => UB
       end.
Definition throw {A} (e : exn) : M A := λ w, Exc e w.
Definition undefined {A} : M A := λ _, UB.

Notation "'do' x <- m ; k" := (bind m (λ x, k))
  (at level 10, x name, m at level 100, k at level 200,
   format "'[v' 'do'  x  <-  m ;  '/' k ']'").
Notation "'run' m ; k" := (bind m (λ _, k))
  (at level 10, m at level 100, k at level 200,
   format "'[v' 'run'  m ;  '/' k ']'").

(** [try { m } catch (...) { h; throw; }] *)
Definition catch_rethrow {A} (m : M A) (h : M unit) : M A :=
  λ w, match m w with
       | Exc e w' =>
           match h w' with
           | Val _ w'' => Exc e w''
           | Exc e' w'' => Exc e' w''
           | UB => UB
           end
       | r => r
       end.

(** A block [m] with a local object whose destructor [d] runs when the block
    is left, by a return or by an exception. *)
Definition scope {A} (m : M A) (d : M unit) : M A :=
  λ w, match m w with
       | Val a w' =>
           match d w' with
           | Val _ w'' => Val a w''
           | Exc e w'' => Exc e w''
           | UB => UB
           end
       | Exc e w' =>
           match d w' with
           | Val _ w'' => Exc e w''
           | Exc e' w'' => Exc e' w''
           | UB => UB
           end
       | UB => UB
       end.

(** A library call that may throw: it consumes one entry of the schedule. *)
Definition may_throw : M unit :=
  λ w, match faults w with
       | [] => Val tt w
       | false :: fs => Val tt (set_faults fs w)
       | true :: fs => Exc injected_failure (set_faults fs w)
       end.

(** ** std::shared_ptr *)

(** [use_count()] of the structure at [a]. *)
Definition owners (a : addr) (ps : gmap pid addr) : nat :=
  size (filter (λ p : pid * addr, p.2 = a) ps).

(** After a [shared_ptr] let go of [a]: the structure dies with its last owner. *)
Definition reclaim (a : addr) (w : world) : world :=
  if decide (owners a (ptrs w) = 0) then set_objs (delete a (objs w)) w else w.

Definition sp_get (x : pid) : M addr :=
  λ w, match ptrs w !! x with Some a => Val a w | None => UB end.

Definition sp_use_count (x : pid) : M nat :=
  do a <- sp_get x; λ w, Val (owners a (ptrs w)) w.

(** A new [shared_ptr] object holding [a]. *)
Definition sp_new (a : addr) : M pid :=
  λ w, Val (next_pid w)
           (set_next_pid (S (next_pid w)) (set_ptrs (<[next_pid w := a]> (ptrs w)) w)).

(** [std::shared_ptr<map_structure> x = y;] *)
Definition sp_copy (y : pid) : M pid := do a <- sp_get y; sp_new a.

(** [x] now holds [a]; what it held before loses an owner. *)
Definition sp_set (x : pid) (a : addr) : M unit :=
  λ w, match ptrs w !! x with
       | Some old => Val tt (reclaim old (set_ptrs (<[x := a]> (ptrs w)) w))
       | None => UB
       end.

(** [x = y;] *)
Definition sp_assign (x y : pid) : M unit := do a <- sp_get y; sp_set x a.

(** [~shared_ptr()] *)
Definition sp_destroy (x : pid) : M unit :=
  λ w, match ptrs w !! x with
       | Some old => Val tt (reclaim old (set_ptrs (delete x (ptrs w)) w))
       | None => UB
       end.

(** The storage of a new structure. *)
Definition alloc_obj (s : map_structure) : M addr :=
  λ w, Val (next_addr w)
           (set_next_addr (S (next_addr w)) (set_objs (<[next_addr w := s]> (objs w)) w)).

(** [n] fresh list nodes; the first one is returned. *)
Definition alloc_nodes (n : nat) : M node :=
  λ w, Val (next_node w) (set_next_node (n + next_node w) w).

(** [std::make_shared<map_structure>()]: the address of the new structure,
    held by the temporary only. *)
Definition make_shared_default : M addr :=
  run may_throw; alloc_obj map_structure_default.

(** [std::make_shared<map_structure>(s)]. Whatever throws in the allocation
    or in the copy constructor, nothing of the new structure remains: one
    fallible step stands for all of them. *)
Definition make_shared_copy (s : map_structure) : M addr :=
  run may_throw;
  do n0 <- alloc_nodes (length (insertions s));
  alloc_obj (map_structure_copy n0 s).

(** Reading and writing the structure behind a pointer. *)
Definition load (a : addr) : M map_structure :=
  λ w, match objs w !! a with Some s => Val s w | None => UB end.
Definition store (a : addr) (s : map_structure) : M unit :=
  λ w, match objs w !! a with
       | Some _ => Val tt (set_objs (<[a := s]> (objs w)) w)
       | None => UB
       end.

(** ** Calls on [data->insertions] *)

(** [data->insertions.insert(data->insertions.end(), k)] *)
Definition list_insert_end (this : pid) (k : K) : M node :=
  do a <- sp_get this; do s <- load a;
  run may_throw;
  do n <- alloc_nodes 1;
  run store a (set_insertions (insertions s ++ [(n, k)]) s);
  ret n.

(** [data->insertions.erase(n)]; [n] has to be a node of this list. *)
Definition list_erase (this : pid) (n : node) : M unit :=
  do a <- sp_get this; do s <- load a;
  if bool_decide (n ∈ (insertions s).*1)
  then store a (set_insertions (remove_node n (insertions s)) s)
  else undefined.

(** [data->insertions.pop_back()] *)
Definition list_pop_back (this : pid) : M unit :=
  do a <- sp_get this; do s <- load a;
  match insertions s with
  | [] => undefined
  | _ => store a (set_insertions (removelast (insertions s)) s)
  end.

(** [data->insertions.clear()] *)
Definition list_clear (this : pid) : M unit :=
  do a <- sp_get this; do s <- load a; store a (set_insertions [] s).

(** ** Calls on [data->mappings] *)

(** An iterator of the [std::unordered_map]: the map it walks and the entry
    it points to ([None] is [end()]). *)
Record map_iterator := MapIter { mi_owner : addr; mi_pos : option K }.

(** A reference [V &] to the value stored under a key of a structure. *)
Record ref := Ref { ref_obj : addr; ref_key : K }.

(** [data->mappings.insert({k, mv})] *)
Definition map_insert (this : pid) (k : K) (mv : mapvaluetype)
  : M (map_iterator * bool) :=
  do a <- sp_get this; do s <- load a;
  run may_throw;
  match mappings s !! k with
  | Some _ => ret (MapIter a (Some k), false)
  | None =>
      run store a (set_mappings (<[k := mv]> (mappings s)) s);
      ret (MapIter a (Some k), true)
  end.

(** [data->mappings.find(k)] *)
Definition map_find (this : pid) (k : K) : M map_iterator :=
  do a <- sp_get this; do s <- load a;
  run may_throw;
  ret (MapIter a (match mappings s !! k with Some _ => Some k | None => None end)).

(** [data->mappings.count(k)] *)
Definition map_count (this : pid) (k : K) : M nat :=
  do a <- sp_get this; do s <- load a;
  run may_throw;
  ret (match mappings s !! k with Some _ => 1 | None => 0 end).

(** [data->mappings.at(k).value] *)
Definition map_at (this : pid) (k : K) : M ref :=
  do a <- sp_get this; do s <- load a;
  run may_throw;
  match mappings s !! k with
  | Some _ => ret (Ref a k)
  | None => throw out_of_range
  end.

(** [data->mappings.erase(it)]; [it] has to point to an entry of this map. *)
Definition map_erase (this : pid) (it : map_iterator) : M unit :=
  do a <- sp_get this; do s <- load a;
  match mi_pos it with
  | Some k =>
      if bool_decide (mi_owner it = a ∧ is_Some (mappings s !! k))
      then store a (set_mappings (delete k (mappings s)) s)
      else undefined
  | None => undefined
  end.

(** [data->mappings.clear()] *)
Definition map_clear (this : pid) : M unit :=
  do a <- sp_get this; do s <- load a; store a (set_mappings ∅ s).

(** [it->second] *)
Definition mi_deref (it : map_iterator) : M mapvaluetype :=
  match mi_pos it with
  | Some k =>
      do s <- load (mi_owner it);
      match mappings s !! k with
      | Some mv => ret mv
      | None => undefined
      end
  | None => undefined
  end.

(** [it->second.iter = n] *)
Definition mi_set_iter (it : map_iterator) (n : node) : M unit :=
  match mi_pos it with
  | Some k =>
      do s <- load (mi_owner it);
      match mappings s !! k with
      | Some mv =>
          store (mi_owner it)
                (set_mappings (<[k := MapValue n (value mv)]> (mappings s)) s)
      | None => undefined
      end
  | None => undefined
  end.

(** [data->non_const_refs_given = b] *)
Definition write_flag (this : pid) (b : bool) : M unit :=
  do a <- sp_get this; do s <- load a; store a (set_flag b s).

(** Reading and writing through a reference handed out by the container. *)
Definition read_ref (r : ref) : M V :=
  do s <- load (ref_obj r);
  match mappings s !! ref_key r with
  | Some mv => ret (value mv)
  | None => undefined
  end.
Definition write_ref (r : ref) (v : V) : M unit :=
  do s <- load (ref_obj r);
  match mappings s !! ref_key r with
  | Some mv =>
      store (ref_obj r)
            (set_mappings (<[ref_key r := MapValue (iter mv) v]> (mappings s)) s)
  | None => undefined
  end.

(** A key received as [K const &k]: an object of its own (a temporary, a
    variable of the caller), or the key stored in the node [n] of the list
    of the structure at [a], which is what the [first] of [*it] refers to. *)
Inductive key_ref := KeyValue (k : K) | KeyInNode (a : addr) (n : node).

(** Reading the key behind the reference; the node has to be there. *)
Definition read_key (kr : key_ref) : M K :=
  match kr with
  | KeyValue k => ret k
  | KeyInNode a n =>
      do s <- load a;
      match node_key n (insertions s) with
      | Some k => ret k
      | None => undefined
      end
  end.

(** ** The members of insertion_ordered_map

    [this] is the container the member is called on. *)

(** [void copy()] *)
Definition copy (this : pid) : M unit :=
  do a <- sp_get this; do s <- load a;
  do a' <- make_shared_copy s;
  sp_set this a'.

(** [copy_on_write()]: the returned pointer is the local [old_struct], which
    the caller owns from then on; when [copy()] throws it is destroyed on
    the way out. *)
Definition copy_on_write (this : pid) : M pid :=
  do old_struct <- sp_copy this;
  do c <- sp_use_count this;
  run (if decide (2 < c)
       then catch_rethrow (copy this) (sp_destroy old_struct)
       else ret tt);
  ret old_struct.

(** [private_insert(k, v)] *)
Definition private_insert (this : pid) (k : K) (v : V) : M (map_iterator * bool) :=
  do old_data_struct <- copy_on_write this;
  scope
    (do it <- catch_rethrow (list_insert_end this k)
                            (sp_assign this old_data_struct);
     catch_rethrow
       (do insertion_result <- map_insert this k (MapValue it v);
        run (if insertion_result.2 then ret tt
             else do mv <- mi_deref insertion_result.1;
                  run list_erase this (iter mv);
                  mi_set_iter insertion_result.1 it);
        run write_flag this false;
        ret insertion_result)
       (run list_erase this it;
        sp_assign this old_data_struct))
    (sp_destroy old_data_struct).

(** [bool insert(K const &k, V const &v)] *)
Definition insert (this : pid) (k : K) (v : V) : M bool :=
  do r <- private_insert this k v; ret r.2.

(** [bool contains(K const &k) const] *)
Definition contains (this : pid) (k : K) : M bool :=
  do c <- map_count this k; ret (bool_decide (0 < c)).

(** [size_t size() const noexcept] *)
Definition size_ (this : pid) : M nat :=
  do a <- sp_get this; do s <- load a; ret (length (insertions s)).

(** [bool empty() const noexcept] *)
Definition empty_ (this : pid) : M bool :=
  do n <- size_ this; ret (bool_decide (n = 0)).

(** [void erase(K const &k)] *)
Definition erase (this : pid) (k : K) : M unit :=
  do c <- contains this k;
  if negb c then throw lookup_error else
  do old_data_struct <- copy_on_write this;
  scope
    (do it <- catch_rethrow (map_find this k) (sp_assign this old_data_struct);
     do mv <- mi_deref it;
     run list_erase this (iter mv);
     run map_erase this it;
     write_flag this false)
    (sp_destroy old_data_struct).

(** [V &at(K const &k)] *)
Definition at_ (this : pid) (k : K) : M ref :=
  do c <- contains this k;
  if negb c then throw lookup_error else
  do old_data_struct <- copy_on_write this;
  scope
    (run write_flag this true;
     catch_rethrow (map_at this k)
       (run write_flag this false;
        sp_assign this old_data_struct))
    (sp_destroy old_data_struct).

(** [V const &at(K const &k) const]; the read-only reference is modelled by
    the value it shows at the time of the call. *)
Definition at_const (this : pid) (k : K) : M V :=
  do c <- contains this k;
  if negb c then throw lookup_error else
  do r <- map_at this k; read_ref r.

(** [V &operator[](K const &k)]; the first fallible step is [V()]. The key
    is read through the reference [k] twice: by [private_insert], which
    copies it before it unlinks any node, and again by [at(k)], after
    [private_insert] has unlinked the node the key was in when it was
    already there. The other members read their key for the last time
    before they unlink anything, so they take it as a value. *)
Definition operator_index (this : pid) (kr : key_ref) : M ref :=
  run may_throw;
  do k <- read_key kr;
  do insertion_result <- private_insert this k V0;
  do k' <- read_key kr;
  catch_rethrow (at_ this k')
    (if insertion_result.2
     then run map_erase this insertion_result.1; list_pop_back this
     else ret tt).

(** The body of the range-[for] of [merge], over the keys of the other list. *)
Fixpoint merge_loop (this other : pid) (ks : list K) : M unit :=
  match ks with
  | [] => ret tt
  | k :: ks' =>
      run may_throw;                         (* auto k: a copy of the key *)
      do v <- at_const other k;
      do _ <- insert this k v;
      merge_loop this other ks'
  end.

(** [void merge(insertion_ordered_map const &other)]. The loop walks the
    list of [other] as it is when the loop starts; the body only writes to
    the structure [copy()] has just made for [this]. *)
Definition merge (this other : pid) : M unit :=
  if decide (other = this) then ret tt else
  do backup_data <- sp_copy this;
  scope
    (run catch_rethrow
           (run copy this;
            do o <- sp_get other; do so <- load o;
            merge_loop this other (insertions so).*2)
           (sp_assign this backup_data);
     write_flag this false)
    (sp_destroy backup_data).

(** [void clear()]: the pointer returned by [copy_on_write()] is dropped at
    the end of the statement. *)
Definition clear (this : pid) : M unit :=
  do tmp <- copy_on_write this;
  run sp_destroy tmp;
  run map_clear this;
  run list_clear this;
  write_flag this false.

(** [insertion_ordered_map()] *)
Definition construct : M pid :=
  do a <- make_shared_default; sp_new a.

(** [insertion_ordered_map(insertion_ordered_map const &other)]; when the
    body throws, the member [data] already built is destroyed. *)
Definition copy_construct (other : pid) : M pid :=
  do this <- sp_copy other;
  do a <- sp_get this; do s <- load a;
  run (if non_const_refs_given s
       then catch_rethrow (copy this) (sp_destroy this)
       else ret tt);
  ret this.

(** [insertion_ordered_map(insertion_ordered_map &&other)] *)
Definition move_construct (other : pid) : M pid :=
  do this <- sp_copy other;
  run catch_rethrow (do a <- make_shared_default; sp_set other a)
                    (sp_destroy this);
  ret this.

(** The implicit destructor. *)
Definition destroy (this : pid) : M unit := sp_destroy this.

(** The body of [operator=(insertion_ordered_map other)]. *)
Definition operator_assign (this other : pid) : M unit :=
  do o <- sp_get other; do s <- load o;
  if non_const_refs_given s
  then do a <- make_shared_copy s; sp_set this a
  else sp_assign this other.

(** [this = src;]: the parameter [other] is copy-constructed from [src] and
    destroyed when the call is over. *)
Definition copy_assign (this src : pid) : M unit :=
  do other <- copy_construct src;
  scope (operator_assign this other) (destroy other).

(** [this = std::move(src);] *)
Definition move_assign (this src : pid) : M unit :=
  do other <- move_construct src;
  scope (operator_assign this other) (destroy other).

(** ** The class iterator *)

(** An iterator of the [std::list]: the list it walks (the one inside the
    structure at [li_list]) and the node it points to ([None] is [end()]). *)
Record list_iterator := ListIter { li_list : addr; li_node : option node }.

Record iterator := Iterator { it_iter : list_iterator; it_ptr : pid }.

(** [iterator begin() const] and [iterator end() const] *)
Definition begin (this : pid) : M iterator :=
  do a <- sp_get this; do s <- load a;
  ret (Iterator (ListIter a (head (insertions s).*1)) this).
Definition end_ (this : pid) : M iterator :=
  do a <- sp_get this; do s <- load a;
  ret (Iterator (ListIter a None) this).

(** [iterator operator++()] *)
Definition iterator_incr (i : iterator) : M iterator :=
  match li_node (it_iter i) with
  | Some n =>
      do s <- load (li_list (it_iter i));
      match node_next n (insertions s) with
      | Some nx => ret (Iterator (ListIter (li_list (it_iter i)) nx) (it_ptr i))
      | None => undefined
      end
  | None => undefined
  end.

(** [const pair_type operator*() const] *)
Definition iterator_deref (i : iterator) : M (K * V) :=
  match li_node (it_iter i) with
  | Some n =>
      do s <- load (li_list (it_iter i));
      match node_key n (insertions s) with
      | Some k => do v <- at_const (it_ptr i) k; ret (k, v)
      | None => undefined
      end
  | None => undefined
  end.

(** [bool operator==(const iterator &rhs) const] *)
Definition iterator_eq (i j : iterator) : bool :=
  bool_decide (li_list (it_iter i) = li_list (it_iter j)
               ∧ li_node (it_iter i) = li_node (it_iter j)).

(** The loop of a reader: [for (it = begin(); it != end(); ++it)], collecting
    [*it]. [fuel] bounds the number of turns. *)
Fixpoint traverse (fuel : nat) (i e : iterator) : M (list (K * V)) :=
  if iterator_eq i e then ret [] else
  match fuel with
  | 0 => undefined
  | S fuel' =>
      do p <- iterator_deref i;
      do i' <- iterator_incr i;
      do rest <- traverse fuel' i' e;
      ret (p :: rest)
  end.

Definition to_list (this : pid) : M (list (K * V)) :=
  do b <- begin this; do e <- end_ this; do n <- size_ this;
  traverse n b e.

(** * Properties *)

(** ** The representation invariant of a map_structure *)

(** The nodes of the list are distinct, every entry of [mappings] points to
    a node of the list holding its key, and every node of the list is the
    one its key points to. *)
Record inv (s : map_structure) : Prop := Inv {
  inv_nodup : NoDup (insertions s).*1;
  inv_map_list : ∀ k mv, mappings s !! k = Some mv → (iter mv, k) ∈ insertions s;
  inv_list_map : ∀ n k, (n, k) ∈ insertions s →
                        ∃ mv, mappings s !! k = Some mv ∧ iter mv = n }.

(** What a reader of the container sees: the keys in the order of the list,
    each with the value stored under it. *)
Definition items (s : map_structure) : list (K * V) :=
  omap (λ k, (λ mv, (k, value mv)) <$> mappings s !! k) (insertions s).*2.

(** ** The operations as the specification words them, on lists of pairs *)

Fixpoint assoc (k : K) (l : list (K * V)) : option V :=
  match l with
  | [] => None
  | p :: l' => if decide (p.1 = k) then Some p.2 else assoc k l'
  end.

(** Insertion: a new key goes to the end with its value; a key already
    there moves to the end and keeps the value it had. *)
Definition spec_insert (l : list (K * V)) (k : K) (v : V) : list (K * V) :=
  match assoc k l with
  | Some v0 => filter (λ p, p.1 ≠ k) l ++ [(k, v0)]
  | None => l ++ [(k, v)]
  end.

Definition spec_erase (l : list (K * V)) (k : K) : list (K * V) :=
  filter (λ p, p.1 ≠ k) l.

(** Writing [v] through a reference to the value of [k]. *)
Definition spec_write (l : list (K * V)) (k : K) (v : V) : list (K * V) :=
  (λ p, if decide (p.1 = k) then (k, v) else p) <$> l.

(** [merge]: the pairs of the other container are inserted one by one. *)
Definition spec_merge (l other : list (K * V)) : list (K * V) :=
  foldl (λ acc p, spec_insert acc p.1 p.2) l other.

(** ** Lemmas on one structure *)

Lemma nodup_fst_functional {A B} (l : list (A * B)) x y1 y2 :
  NoDup l.*1 → (x, y1) ∈ l → (x, y2) ∈ l → y1 = y2.
Proof.
  induction l as [|[a b] l IH]; simpl; [by intros _ ?%elem_of_nil|].
  intros [Hnotin Hnd]%NoDup_cons [Heq1|Hin1]%elem_of_cons [Heq2|Hin2]%elem_of_cons.
  - congruence.
  - exfalso. apply Hnotin. injection Heq1 as -> ->.
    by apply (list_elem_of_fmap_2 fst _ (a, y2)).
  - exfalso. apply Hnotin. injection Heq2 as -> ->.
    by apply (list_elem_of_fmap_2 fst _ (a, y1)).
  - by apply IH.
Qed.

Lemma inv_same_node s n k1 k2 :
  inv s → (n, k1) ∈ insertions s → (n, k2) ∈ insertions s → k1 = k2.
Proof. intros Hi. apply nodup_fst_functional, Hi. Qed.

Lemma inv_same_key s n1 n2 k :
  inv s → (n1, k) ∈ insertions s → (n2, k) ∈ insertions s → n1 = n2.
Proof.
  intros Hi H1 H2.
  destruct (inv_list_map s Hi _ _ H1) as (mv1 & Hm1 & <-).
  destruct (inv_list_map s Hi _ _ H2) as (mv2 & Hm2 & <-).
  congruence.
Qed.

Lemma inv_keys_nodup s : inv s → NoDup (insertions s).*2.
Proof.
  intros Hi. apply NoDup_alt. intros i j k Hik Hjk.
  apply list_lookup_fmap_Some in Hik as ([n1 k1] & Hk1 & H1).
  apply list_lookup_fmap_Some in Hjk as ([n2 k2] & Hk2 & H2).
  simpl in *. subst k1 k2.
  assert (n1 = n2) as ->.
  { eapply inv_same_key; eauto using list_elem_of_lookup_2. }
  pose proof (inv_nodup s Hi) as Hnd.
  eapply (proj1 (NoDup_alt _) Hnd i j n2);
    rewrite list_lookup_fmap; [rewrite H1|rewrite H2]; done.
Qed.

Lemma inv_key_in_list s k :
  inv s → k ∈ (insertions s).*2 ↔ is_Some (mappings s !! k).
Proof.
  intros Hi. split.
  - intros ([n k'] & -> & Hin)%list_elem_of_fmap.
    destruct (inv_list_map s Hi _ _ Hin) as (mv & Hm & _). by eexists.
  - intros [mv Hm]. apply list_elem_of_fmap.
    exists (iter mv, k). split; [done|]. by apply Hi.
Qed.

Lemma inv_length s : inv s → length (insertions s) = size (mappings s).
Proof.
  intros Hi. rewrite <- (length_fmap snd), <- size_dom.
  rewrite <- (size_list_to_set (C := gset K)) by by apply inv_keys_nodup.
  f_equal. apply set_eq. intros k.
  rewrite elem_of_list_to_set, elem_of_dom. by apply inv_key_in_list.
Qed.

Lemma inv_iter_inj s k1 k2 mv1 mv2 :
  inv s → mappings s !! k1 = Some mv1 → mappings s !! k2 = Some mv2 →
  iter mv1 = iter mv2 → k1 = k2.
Proof.
  intros Hi H1 H2 Heq.
  apply (inv_map_list s Hi) in H1. apply (inv_map_list s Hi) in H2.
  rewrite Heq in H1. eapply inv_same_node; eauto.
Qed.

(** The items of a list of keys all present in the map. *)
Lemma items_length s : inv s → length (items s) = length (insertions s).
Proof.
  intros Hi. unfold items. rewrite <- (length_fmap snd (insertions s)).
  assert (Hall : ∀ k, k ∈ (insertions s).*2 → is_Some (mappings s !! k)).
  { intros k. by apply inv_key_in_list. }
  induction ((insertions s).*2) as [|k ks IH]; [done|].
  csimpl. destruct (Hall k) as [mv ->]; [left|]. csimpl. f_equal.
  apply IH. intros k' Hk'. apply Hall. by right.
Qed.

Lemma items_keys s : inv s → (items s).*1 = (insertions s).*2.
Proof.
  intros Hi. unfold items.
  assert (Hall : ∀ k, k ∈ (insertions s).*2 → is_Some (mappings s !! k)).
  { intros k. by apply inv_key_in_list. }
  induction ((insertions s).*2) as [|k ks IH]; [done|].
  csimpl. destruct (Hall k) as [mv ->]; [left|]. csimpl. f_equal.
  apply IH. intros k' Hk'. apply Hall. by right.
Qed.

Lemma assoc_omap (m : gmap K mapvaluetype) (ks : list K) k :
  assoc k (omap (λ k, (λ mv, (k, value mv)) <$> m !! k) ks)
  = if decide (k ∈ ks) then value <$> m !! k else None.
Proof.
  induction ks as [|k' ks IH]; csimpl; [done|].
  destruct (m !! k') as [mv|] eqn:Hm; csimpl.
  - destruct (decide (k' = k)) as [->|Hne].
    + rewrite decide_True by left. by rewrite Hm.
    + rewrite IH. destruct (decide (k ∈ ks)).
      * by rewrite decide_True by by right.
      * by rewrite decide_False by (by intros [?|?]%elem_of_cons).
  - rewrite IH. destruct (decide (k' = k)) as [->|Hne].
    + rewrite Hm. simpl. by destruct (decide _), (decide _).
    + destruct (decide (k ∈ ks)).
      * by rewrite decide_True by by right.
      * by rewrite decide_False by (by intros [?|?]%elem_of_cons).
Qed.

Lemma assoc_items s k : inv s → assoc k (items s) = value <$> mappings s !! k.
Proof.
  intros Hi. unfold items. rewrite assoc_omap.
  destruct (decide (k ∈ (insertions s).*2)) as [|Hn]; [done|].
  destruct (mappings s !! k) eqn:Hm; [|done].
  exfalso. apply Hn. apply inv_key_in_list; [done|]. by eexists.
Qed.

Lemma assoc_elem_of (l : list (K * V)) k :
  is_Some (assoc k l) ↔ k ∈ l.*1.
Proof.
  induction l as [|p l IH]; simpl.
  - split; [by intros [? ?]|by intros ?%elem_of_nil].
  - destruct (decide (p.1 = k)) as [<-|Hne].
    + split; [intros _; left|by eexists].
    + rewrite IH. split; [by right|]. intros [?|?]%elem_of_cons; [congruence|done].
Qed.

(** ** The effect of the members on one structure *)

(** A successful [private_insert] with the fresh node [n]. *)
Definition insert_effect (n : node) (k : K) (v : V) (s : map_structure) : map_structure :=
  match mappings s !! k with
  | None =>
      MapStructure (<[k := MapValue n v]> (mappings s))
                   (insertions s ++ [(n, k)]) false
  | Some mv =>
      MapStructure (<[k := MapValue n (value mv)]> (mappings s))
                   (remove_node (iter mv) (insertions s ++ [(n, k)])) false
  end.

(** A successful [erase] of a key stored as [mv]. *)
Definition erase_effect (k : K) (mv : mapvaluetype) (s : map_structure) : map_structure :=
  MapStructure (delete k (mappings s)) (remove_node (iter mv) (insertions s)) false.

(** A write through a reference to the value of [k], stored as [mv]. *)
Definition write_effect (k : K) (mv : mapvaluetype) (v : V) (s : map_structure) : map_structure :=
  set_mappings (<[k := MapValue (iter mv) v]> (mappings s)) s.

Definition fresh_node (n : node) (s : map_structure) : Prop :=
  ∀ p, p ∈ insertions s → p.1 < n.

Lemma fresh_node_notin n s : fresh_node n s → n ∉ (insertions s).*1.
Proof.
  intros Hf ([n' k] & -> & Hin)%list_elem_of_fmap.
  apply Hf in Hin. simpl in Hin. lia.
Qed.

Lemma omap_ext_in {A B} (f g : A → option B) (l : list A) :
  (∀ x, x ∈ l → f x = g x) → omap f l = omap g l.
Proof.
  induction l as [|x l IH]; intros Hfg; csimpl; [done|].
  rewrite (Hfg x) by left. rewrite IH; [done|].
  intros y Hy. apply Hfg. by right.
Qed.

Lemma filter_ext_in {A} (P Q : A → Prop)
    `{!∀ x, Decision (P x), !∀ x, Decision (Q x)} (l : list A) :
  (∀ x, x ∈ l → P x ↔ Q x) → filter P l = filter Q l.
Proof.
  induction l as [|x l IH]; intros HPQ; [done|].
  rewrite !filter_cons. rewrite IH by (intros y Hy; apply HPQ; by right).
  apply decide_ext. apply HPQ. left.
Qed.

Lemma remove_node_by_key s k mv :
  inv s → mappings s !! k = Some mv →
  remove_node (iter mv) (insertions s) = filter (λ p, p.2 ≠ k) (insertions s).
Proof.
  intros Hi Hm. unfold remove_node. apply filter_ext_in.
  intros [n' k'] Hin. simpl. split.
  - intros Hn ->. apply Hn. eapply inv_same_key; eauto. by apply Hi.
  - intros Hk ->. apply Hk. eapply inv_same_node; eauto. by apply Hi.
Qed.

Lemma remove_node_fresh n l k :
  n ∉ l.*1 → remove_node n (l ++ [(n, k)]) = l.
Proof.
  intros Hn. unfold remove_node. rewrite filter_app.
  rewrite filter_cons_False by (simpl; intros Hne; by apply Hne).
  rewrite filter_nil, app_nil_r.
  induction l as [|p l IH]; [done|].
  rewrite filter_cons_True.
  - f_equal. apply IH. intros Hin. apply Hn. by right.
  - intros Heq. apply Hn. rewrite <- Heq. left.
Qed.

Lemma remove_node_other n n' l k :
  n ≠ n' → remove_node n (l ++ [(n', k)]) = remove_node n l ++ [(n', k)].
Proof.
  intros Hne. unfold remove_node. rewrite filter_app. f_equal.
  by rewrite filter_cons_True by (simpl; congruence).
Qed.

Lemma filter_snd_keys (l : list (node * K)) k :
  (filter (λ p, p.2 ≠ k) l).*2 = filter (λ k', k' ≠ k) l.*2.
Proof.
  induction l as [|p l IH]; [done|]. csimpl.
  destruct (decide (p.2 = k)) as [Heq|Hne].
  - rewrite !filter_cons_False by (intros Hn; by apply Hn). done.
  - rewrite !filter_cons_True by done. csimpl. by rewrite IH.
Qed.

Lemma omap_filter_key (m m' : gmap K mapvaluetype) (ks : list K) k :
  (∀ k', k' ≠ k → m' !! k' = m !! k') →
  omap (λ k, (λ mv, (k, value mv)) <$> m' !! k) (filter (λ k', k' ≠ k) ks)
  = filter (λ p, p.1 ≠ k) (omap (λ k, (λ mv, (k, value mv)) <$> m !! k) ks).
Proof.
  intros Hm. induction ks as [|k' ks IH]; [done|]. csimpl.
  destruct (decide (k' = k)) as [->|Hne].
  - rewrite filter_cons_False by (intros Hn; by apply Hn).
    rewrite IH. destruct (m !! k) as [mv|]; csimpl; [|done].
    by rewrite filter_cons_False by (simpl; intros Hn; by apply Hn).
  - rewrite filter_cons_True by done. csimpl. rewrite (Hm k') by done.
    rewrite IH. destruct (m !! k') as [mv|]; csimpl; [|done].
    by rewrite filter_cons_True by done.
Qed.

Lemma items_insert_effect n k v s :
  inv s → fresh_node n s →
  items (insert_effect n k v s) = spec_insert (items s) k v.
Proof.
  intros Hi Hn%fresh_node_notin. unfold insert_effect, spec_insert.
  rewrite assoc_items by done.
  destruct (mappings s !! k) as [mv|] eqn:Hm; simpl.
  - assert (iter mv ≠ n) as Hne.
    { intros <-. apply Hn. apply (list_elem_of_fmap_2 fst _ (iter mv, k)).
      by apply Hi. }
    rewrite remove_node_other by done.
    rewrite (remove_node_by_key s k mv) by done.
    unfold items. simpl. rewrite fmap_app, omap_app, filter_snd_keys.
    rewrite (omap_filter_key (mappings s)).
    + csimpl. by rewrite lookup_insert_eq.
    + intros k' Hk'. by rewrite lookup_insert_ne.
  - unfold items. simpl. rewrite fmap_app, omap_app. csimpl.
    rewrite lookup_insert_eq. csimpl. f_equal.
    apply omap_ext_in. intros k' Hk'.
    rewrite lookup_insert_ne; [done|]. intros <-.
    apply inv_key_in_list in Hk'; [|done]. rewrite Hm in Hk'. by destruct Hk'.
Qed.

Lemma inv_insert_effect n k v s :
  inv s → fresh_node n s → inv (insert_effect n k v s).
Proof.
  intros Hi Hn%fresh_node_notin. unfold insert_effect.
  destruct (mappings s !! k) as [mv|] eqn:Hm.
  - assert (iter mv ≠ n) as Hne.
    { intros <-. apply Hn. apply (list_elem_of_fmap_2 fst _ (iter mv, k)).
      by apply Hi. }
    rewrite remove_node_other by done.
    rewrite (remove_node_by_key s k mv) by done.
    split; simpl.
    + rewrite fmap_app. apply NoDup_app. split; [|split].
      * eapply NoDup_fmap_fst.
        -- intros x y1 y2 [_ H1]%list_elem_of_filter [_ H2]%list_elem_of_filter.
           eapply inv_same_node; eauto.
        -- apply NoDup_filter. eapply NoDup_fmap_1, Hi.
      * intros x ([n' k'] & -> & [_ Hin]%list_elem_of_filter)%list_elem_of_fmap.
        simpl. intros ->%list_elem_of_singleton. apply Hn.
        by apply (list_elem_of_fmap_2 fst _ (n, k')).
      * simpl. apply NoDup_singleton.
    + intros k' mv'. destruct (decide (k' = k)) as [->|Hk'].
      * rewrite lookup_insert_eq. intros [= <-]. simpl.
        apply elem_of_app. right. left.
      * rewrite lookup_insert_ne by done. intros Hm'.
        apply elem_of_app. left. apply list_elem_of_filter. split; [done|].
        by apply Hi.
    + intros n' k' [[Hk' Hin]%list_elem_of_filter|[= -> ->]%list_elem_of_singleton]%elem_of_app.
      * simpl in Hk'. rewrite lookup_insert_ne by done. by apply Hi.
      * rewrite lookup_insert_eq. by eexists.
  - assert (k ∉ (insertions s).*2) as Hk.
    { intros Hin%inv_key_in_list; [|done]. rewrite Hm in Hin. by destruct Hin. }
    split; simpl.
    + rewrite fmap_app. apply NoDup_app. split; [apply Hi|split].
      * intros x Hx ->%list_elem_of_singleton. done.
      * apply NoDup_singleton.
    + intros k' mv'. destruct (decide (k' = k)) as [->|Hk'].
      * rewrite lookup_insert_eq. intros [= <-]. simpl.
        apply elem_of_app. right. left.
      * rewrite lookup_insert_ne by done. intros Hm'.
        apply elem_of_app. left. by apply Hi.
    + intros n' k' [Hin|[= -> ->]%list_elem_of_singleton]%elem_of_app.
      * rewrite lookup_insert_ne; [by apply Hi|]. intros <-. apply Hk.
        by apply (list_elem_of_fmap_2 snd _ (n', k)).
      * rewrite lookup_insert_eq. by eexists.
Qed.

Lemma items_erase_effect k mv s :
  inv s → mappings s !! k = Some mv →
  items (erase_effect k mv s) = spec_erase (items s) k.
Proof.
  intros Hi Hm. unfold erase_effect, spec_erase, items. simpl.
  rewrite (remove_node_by_key s k mv), filter_snd_keys by done.
  apply omap_filter_key. intros k' Hk'. by rewrite lookup_delete_ne.
Qed.

Lemma inv_erase_effect k mv s :
  inv s → mappings s !! k = Some mv → inv (erase_effect k mv s).
Proof.
  intros Hi Hm. unfold erase_effect.
  rewrite (remove_node_by_key s k mv) by done. split; simpl.
  - eapply NoDup_fmap_fst.
    + intros x y1 y2 [_ H1]%list_elem_of_filter [_ H2]%list_elem_of_filter.
      eapply inv_same_node; eauto.
    + apply NoDup_filter. eapply NoDup_fmap_1, Hi.
  - intros k' mv' [Hk' Hm']%lookup_delete_Some.
    apply list_elem_of_filter. split; [simpl; congruence|]. by apply Hi.
  - intros n' k' [Hk' Hin]%list_elem_of_filter. simpl in Hk'.
    rewrite lookup_delete_ne by done. by apply Hi.
Qed.

Lemma items_write_effect k mv v s :
  mappings s !! k = Some mv →
  items (write_effect k mv v s) = spec_write (items s) k v.
Proof.
  intros Hm. unfold write_effect, spec_write, items. simpl.
  induction ((insertions s).*2) as [|k' ks IH]; [done|]. csimpl.
  destruct (decide (k' = k)) as [->|Hne].
  - rewrite lookup_insert_eq, Hm. csimpl. rewrite decide_True by done.
    by rewrite IH.
  - rewrite lookup_insert_ne by done. rewrite IH.
    destruct (mappings s !! k'); csimpl; [|done].
    by rewrite decide_False by done.
Qed.

Lemma inv_write_effect k mv v s :
  inv s → mappings s !! k = Some mv → inv (write_effect k mv v s).
Proof.
  intros Hi Hm. split; simpl.
  - apply Hi.
  - intros k' mv'. destruct (decide (k' = k)) as [->|Hne].
    + rewrite lookup_insert_eq. intros [= <-]. simpl. by apply Hi.
    + rewrite lookup_insert_ne by done. apply Hi.
  - intros n k' Hin. destruct (decide (k' = k)) as [->|Hne].
    + rewrite lookup_insert_eq.
      destruct (inv_list_map s Hi _ _ Hin) as (mv' & Hm' & <-).
      eexists. split; [done|]. simpl. congruence.
    + rewrite lookup_insert_ne by done. by apply Hi.
Qed.

Lemma inv_set_flag b s : inv s → inv (set_flag b s).
Proof. intros [? ? ?]. by split. Qed.

Lemma inv_default : inv map_structure_default.
Proof.
  split; simpl.
  - constructor.
  - intros k mv. by rewrite lookup_empty.
  - intros n k ?%elem_of_nil. done.
Qed.

Lemma inv_cleared s : inv (set_flag false (set_insertions [] (set_mappings ∅ s))).
Proof. apply inv_default. Qed.

(** Undoing the append of [private_insert] when the map refuses the entry. *)
Lemma undo_list_insert n k s :
  fresh_node n s →
  set_insertions (remove_node n (insertions s ++ [(n, k)]))
                 (set_insertions (insertions s ++ [(n, k)]) s) = s.
Proof.
  intros Hn%fresh_node_notin. unfold set_insertions. simpl.
  rewrite remove_node_fresh by done. by destruct s.
Qed.

(** Undoing a fresh insertion, as the handler of [operator[]] does. *)
Lemma undo_fresh_insert n k v s :
  mappings s !! k = None →
  set_insertions (removelast (insertions (insert_effect n k v s)))
    (set_mappings (delete k (mappings (insert_effect n k v s)))
                  (insert_effect n k v s))
  = set_flag false s.
Proof.
  intros Hm. unfold insert_effect. rewrite Hm. unfold set_insertions, set_mappings, set_flag.
  simpl. rewrite removelast_last, delete_insert_eq, delete_id by done. done.
Qed.

(** *** The copy constructor *)

Lemma relink_fold_notin (l : list (node * K)) m k :
  k ∉ l.*2 → foldl relink m l !! k = m !! k.
Proof.
  revert m. induction l as [|p l IH]; intros m Hk; [done|]. simpl.
  rewrite IH by (intros Hin; apply Hk; by right).
  assert (p.2 ≠ k) by (intros <-; apply Hk; left).
  unfold relink. destruct (m !! p.2); by rewrite lookup_insert_ne.
Qed.

Lemma relink_fold_in (l : list (node * K)) m n k :
  NoDup l.*2 → (n, k) ∈ l →
  foldl relink m l !! k
  = Some (MapValue n (from_option value V0 (m !! k))).
Proof.
  revert m. induction l as [|p l IH]; intros m Hnd Hin; [by apply elem_of_nil in Hin|].
  csimpl in *. apply NoDup_cons in Hnd as [Hp Hnd].
  apply elem_of_cons in Hin as [<-|Hin].
  - rewrite relink_fold_notin by done. unfold relink. simpl.
    destruct (m !! k); by rewrite lookup_insert_eq.
  - rewrite (IH _ Hnd Hin). do 2 f_equal.
    assert (p.2 ≠ k).
    { intros <-. apply Hp. by apply (list_elem_of_fmap_2 snd _ (n, p.2)). }
    unfold relink. destruct (m !! p.2); by rewrite lookup_insert_ne.
Qed.

Lemma copy_list_fst n0 (l : list (node * K)) :
  (copy_list n0 l).*1 = seq n0 (length l).
Proof. unfold copy_list. apply fst_zip. by rewrite length_seq, length_fmap. Qed.

Lemma copy_list_snd n0 (l : list (node * K)) : (copy_list n0 l).*2 = l.*2.
Proof. unfold copy_list. apply snd_zip. by rewrite length_seq, length_fmap. Qed.

Lemma items_copy n0 s : inv s → items (map_structure_copy n0 s) = items s.
Proof.
  intros Hi. unfold map_structure_copy, items. simpl.
  rewrite copy_list_snd. apply omap_ext_in. intros k Hk.
  pose proof Hk as [mv Hm]%inv_key_in_list; [|done].
  rewrite <- (copy_list_snd n0) in Hk.
  apply list_elem_of_fmap in Hk as ([n k'] & -> & Hin). simpl.
  rewrite (relink_fold_in _ _ n) by (by rewrite ?copy_list_snd; try apply inv_keys_nodup).
  simpl in Hm. by rewrite Hm.
Qed.

Lemma inv_copy n0 s : inv s → inv (map_structure_copy n0 s).
Proof.
  intros Hi. unfold map_structure_copy.
  assert (Hnd : NoDup (copy_list n0 (insertions s)).*2).
  { rewrite copy_list_snd. by apply inv_keys_nodup. }
  split; simpl.
  - rewrite copy_list_fst. apply NoDup_seq.
  - intros k mv Hm.
    destruct (decide (k ∈ (copy_list n0 (insertions s)).*2)) as [Hk|Hk].
    + apply list_elem_of_fmap in Hk as ([n k'] & -> & Hin). simpl in *.
      rewrite (relink_fold_in _ _ n) in Hm by done. by injection Hm as <-.
    + rewrite relink_fold_notin in Hm by done. exfalso. apply Hk.
      rewrite copy_list_snd. apply inv_key_in_list; [done|]. by eexists.
  - intros n k Hin. rewrite (relink_fold_in _ _ n) by done. by eexists.
Qed.

Lemma fresh_copy n0 s : fresh_node (length (insertions s) + n0) (map_structure_copy n0 s).
Proof.
  intros [n k] Hin. simpl in *.
  apply (list_elem_of_fmap_2 fst) in Hin. rewrite copy_list_fst in Hin.
  apply elem_of_seq in Hin. simpl in *. lia.
Qed.

Lemma fresh_node_mono n n' s : fresh_node n s → n ≤ n' → fresh_node n' s.
Proof. intros Hf Hle p Hp. apply Hf in Hp. lia. Qed.

Lemma fresh_insert_effect n k v s :
  fresh_node n s → fresh_node (S n) (insert_effect n k v s).
Proof.
  intros Hf p. unfold insert_effect, remove_node.
  assert (Happ : p ∈ insertions s ++ [(n, k)] → p.1 < S n).
  { intros [Hp|Hp%list_elem_of_singleton]%elem_of_app.
    - apply Hf in Hp. lia.
    - subst p. simpl. lia. }
  destruct (mappings s !! k); simpl; [|done].
  rewrite list_elem_of_filter. intros [_ Hp]. by apply Happ.
Qed.

Lemma fresh_erase_effect n k mv s :
  fresh_node n s → fresh_node n (erase_effect k mv s).
Proof.
  intros Hf p. unfold erase_effect, remove_node. simpl.
  rewrite list_elem_of_filter. intros [_ Hp]. by apply Hf.
Qed.

(** ** Counting owners *)

Lemma owners_delete a x (ps : gmap pid addr) :
  owners a ps
  = owners a (delete x ps)
    + match ps !! x with Some b => if decide (b = a) then 1 else 0 | None => 0 end.
Proof.
  unfold owners. rewrite map_filter_delete, map_size_delete.
  destruct (ps !! x) as [b|] eqn:Hx.
  - destruct (decide (b = a)) as [->|Hne].
    + assert (Hf : filter (λ p : pid * addr, p.2 = a) ps !! x = Some a).
      { by apply map_lookup_filter_Some. }
      rewrite Hf. simpl.
      assert (size (filter (λ p : pid * addr, p.2 = a) ps) ≠ 0); [|lia].
      apply map_size_non_empty_iff. intros He. by rewrite He, lookup_empty in Hf.
    + assert (Hf : filter (λ p : pid * addr, p.2 = a) ps !! x = None).
      { apply map_lookup_filter_None. right. intros b' Hb'. simpl. congruence. }
      rewrite Hf. simpl. lia.
  - assert (Hf : filter (λ p : pid * addr, p.2 = a) ps !! x = None).
    { apply map_lookup_filter_None. by left. }
    rewrite Hf. simpl. lia.
Qed.

Lemma owners_insert a x b (ps : gmap pid addr) :
  owners a (<[x := b]> ps)
  = owners a (delete x ps) + (if decide (b = a) then 1 else 0).
Proof.
  rewrite (owners_delete a x (<[x := b]> ps)).
  by rewrite delete_insert_eq, lookup_insert_eq.
Qed.

Lemma owners_insert_fresh a x b (ps : gmap pid addr) :
  ps !! x = None →
  owners a (<[x := b]> ps) = owners a ps + (if decide (b = a) then 1 else 0).
Proof. intros Hx. by rewrite owners_insert, delete_id. Qed.

Lemma owners_pos a x (ps : gmap pid addr) : ps !! x = Some a → owners a ps ≠ 0.
Proof.
  intros Hx. rewrite (owners_delete a x), Hx, decide_True by done. lia.
Qed.

Lemma owners_zero a x (ps : gmap pid addr) : owners a ps = 0 → ps !! x ≠ Some a.
Proof. intros H0 Hx. by apply owners_pos in Hx. Qed.

Lemma owners_zero_intro a (ps : gmap pid addr) :
  (∀ x, ps !! x ≠ Some a) → owners a ps = 0.
Proof.
  intros Hno. unfold owners. apply map_size_empty_iff, map_empty.
  intros x. apply map_lookup_filter_None. right. intros b Hb. simpl.
  intros ->. by apply (Hno x).
Qed.

Lemma owners_unique a x y (ps : gmap pid addr) :
  owners a ps ≤ 1 → ps !! x = Some a → ps !! y = Some a → x = y.
Proof.
  intros Hle Hx Hy. destruct (decide (x = y)) as [|Hne]; [done|].
  rewrite (owners_delete a x), Hx, decide_True in Hle by done.
  assert (owners a (delete x ps) ≠ 0); [|lia].
  apply (owners_pos a y). by rewrite lookup_delete_ne.
Qed.

Lemma owners_shared a x (ps : gmap pid addr) :
  1 < owners a ps → ps !! x = Some a → ∀ b, owners a (<[x := b]> ps) ≠ 0.
Proof.
  intros Hlt Hx b. rewrite owners_insert.
  rewrite (owners_delete a x), Hx, decide_True in Hlt by done. lia.
Qed.

(** ** Well-formed states *)

(** Every pointer leads to a live structure, every structure satisfies the
    representation invariant, and the allocators are ahead of everything
    handed out so far. *)
Record wf (w : world) : Prop := Wf {
  wf_ptrs : ∀ x a, ptrs w !! x = Some a → is_Some (objs w !! a);
  wf_inv : ∀ a s, objs w !! a = Some s → inv s;
  wf_nodes : ∀ a s, objs w !! a = Some s → fresh_node (next_node w) s;
  wf_addr : ∀ a, is_Some (objs w !! a) → a < next_addr w;
  wf_pids : ∀ x, is_Some (ptrs w !! x) → x < next_pid w }.

Lemma wf_init : wf init_world.
Proof.
  split; simpl; intros *; rewrite ?lookup_empty; try done; by intros [? ?].
Qed.

Lemma wf_fresh_pid w : wf w → ptrs w !! next_pid w = None.
Proof.
  intros Hw. destruct (ptrs w !! next_pid w) eqn:Hx; [|done].
  assert (next_pid w < next_pid w); [|lia]. apply Hw. by eexists.
Qed.

Lemma wf_fresh_addr w : wf w → objs w !! next_addr w = None.
Proof.
  intros Hw. destruct (objs w !! next_addr w) eqn:Hx; [|done].
  assert (next_addr w < next_addr w); [|lia]. apply Hw. by eexists.
Qed.

Lemma wf_fresh_addr_ptr w x : wf w → ptrs w !! x ≠ Some (next_addr w).
Proof.
  intros Hw Hx. apply (wf_ptrs w Hw) in Hx. rewrite wf_fresh_addr in Hx by done.
  by destruct Hx.
Qed.

(** ** Weakest preconditions *)

(** [wp m w Q E]: from [w], [m] has no undefined behaviour; it returns in a
    state satisfying [Q] or throws in a state satisfying [E]. *)
Definition wp {A} (m : M A) (w : world)
    (Q : A → world → Prop) (E : exn → world → Prop) : Prop :=
  match m w with
  | Val a w' => Q a w'
  | Exc e w' => E e w'
  | UB => False
  end.

Lemma wp_ret {A} (a : A) w Q E : Q a w → wp (ret a) w Q E.
Proof. done. Qed.

Lemma wp_throw {A} e w (Q : A → world → Prop) E : E e w → wp (throw e) w Q E.
Proof. done. Qed.

Lemma wp_bind {A B} (m : M A) (f : A → M B) w Q E :
  wp m w (λ a w', wp (f a) w' Q E) E → wp (bind m f) w Q E.
Proof. unfold wp, bind. by destruct (m w). Qed.

Lemma wp_mono {A} (m : M A) w (Q Q' : A → world → Prop) (E E' : exn → world → Prop) :
  wp m w Q E → (∀ a w', Q a w' → Q' a w') → (∀ e w', E e w' → E' e w') →
  wp m w Q' E'.
Proof. unfold wp. destruct (m w); eauto. Qed.

Lemma wp_catch {A} (m : M A) h w Q E :
  wp m w Q (λ e w', wp h w' (λ _ w'', E e w'') E) →
  wp (catch_rethrow m h) w Q E.
Proof.
  unfold wp, catch_rethrow. destruct (m w) as [a w'|e w'|]; [done| |done].
  by destruct (h w').
Qed.

Lemma wp_scope {A} (m : M A) d w Q E :
  wp m w (λ a w', wp d w' (λ _ w'', Q a w'') E)
         (λ e w', wp d w' (λ _ w'', E e w'') E) →
  wp (scope m d) w Q E.
Proof.
  unfold wp, scope. destruct (m w) as [a w'|e w'|]; [| |done]; by destruct (d w').
Qed.

Lemma wp_if {A} (b : bool) (m1 m2 : M A) w Q E :
  (b = true → wp m1 w Q E) → (b = false → wp m2 w Q E) →
  wp (if b then m1 else m2) w Q E.
Proof. destruct b; auto. Qed.

Lemma wp_may_throw w Q E :
  (faults w = [] → Q tt w) →
  (∀ fs, faults w = false :: fs → Q tt (set_faults fs w)) →
  (∀ fs, faults w = true :: fs → E injected_failure (set_faults fs w)) →
  wp may_throw w Q E.
Proof.
  unfold wp, may_throw. intros H1 H2 H3.
  destruct (faults w) as [|[] fs]; auto.
Qed.

Lemma wp_sp_get x a w Q E :
  ptrs w !! x = Some a → Q a w → wp (sp_get x) w Q E.
Proof. unfold wp, sp_get. by intros ->. Qed.

Lemma wp_load a s w Q E :
  objs w !! a = Some s → Q s w → wp (load a) w Q E.
Proof. unfold wp, load. by intros ->. Qed.

Lemma wp_store a s s' w Q E :
  objs w !! a = Some s →
  Q tt (set_objs (<[a := s']> (objs w)) w) → wp (store a s') w Q E.
Proof. unfold wp, store. by intros ->. Qed.

Lemma wp_sp_new a w Q E :
  Q (next_pid w)
    (set_next_pid (S (next_pid w)) (set_ptrs (<[next_pid w := a]> (ptrs w)) w)) →
  wp (sp_new a) w Q E.
Proof. done. Qed.

Lemma wp_sp_copy y a w Q E :
  ptrs w !! y = Some a →
  Q (next_pid w)
    (set_next_pid (S (next_pid w)) (set_ptrs (<[next_pid w := a]> (ptrs w)) w)) →
  wp (sp_copy y) w Q E.
Proof. intros Hy HQ. apply wp_bind. eapply wp_sp_get; [done|]. by apply wp_sp_new. Qed.

Lemma wp_sp_use_count x a w Q E :
  ptrs w !! x = Some a → Q (owners a (ptrs w)) w → wp (sp_use_count x) w Q E.
Proof. intros Hx HQ. apply wp_bind. eapply wp_sp_get; [done|]. done. Qed.

Lemma wp_sp_set x a old w Q E :
  ptrs w !! x = Some old →
  Q tt (reclaim old (set_ptrs (<[x := a]> (ptrs w)) w)) →
  wp (sp_set x a) w Q E.
Proof. unfold wp, sp_set. by intros ->. Qed.

Lemma wp_sp_assign x y a old w Q E :
  ptrs w !! y = Some a → ptrs w !! x = Some old →
  Q tt (reclaim old (set_ptrs (<[x := a]> (ptrs w)) w)) →
  wp (sp_assign x y) w Q E.
Proof.
  intros Hy Hx HQ. apply wp_bind. eapply wp_sp_get; [done|]. by eapply wp_sp_set.
Qed.

Lemma wp_sp_destroy x old w Q E :
  ptrs w !! x = Some old →
  Q tt (reclaim old (set_ptrs (delete x (ptrs w)) w)) →
  wp (sp_destroy x) w Q E.
Proof. unfold wp, sp_destroy. by intros ->. Qed.

Lemma wp_alloc_obj s w Q E :
  Q (next_addr w)
    (set_next_addr (S (next_addr w)) (set_objs (<[next_addr w := s]> (objs w)) w)) →
  wp (alloc_obj s) w Q E.
Proof. done. Qed.

Lemma wp_alloc_nodes n w Q E :
  Q (next_node w) (set_next_node (n + next_node w) w) → wp (alloc_nodes n) w Q E.
Proof. done. Qed.

Lemma reclaim_keep a w : owners a (ptrs w) ≠ 0 → reclaim a w = w.
Proof. intros Hne. unfold reclaim. by rewrite decide_False. Qed.

Lemma reclaim_free a w :
  owners a (ptrs w) = 0 → reclaim a w = set_objs (delete a (objs w)) w.
Proof. intros Hne. unfold reclaim. by rewrite decide_True. Qed.

(** The state after a fallible call went through. *)
Definition pass (w : world) : world := set_faults (tail (faults w)) w.

Lemma wp_may_throw' w Q E :
  (head (faults w) ≠ Some true → Q tt (pass w)) →
  (head (faults w) = Some true → E injected_failure (pass w)) →
  wp may_throw w Q E.
Proof.
  unfold wp, may_throw, pass. intros H1 H2. destruct w as [o p na nn np fs]. simpl in *.
  destruct fs as [|[] fs]; simpl in *; auto.
Qed.

Ltac wsimpl :=
  cbn [objs ptrs next_addr next_node next_pid faults set_objs set_ptrs
       set_next_addr set_next_node set_next_pid set_faults pass
       mappings insertions non_const_refs_given
       set_mappings set_insertions set_flag] in *.

(** ** copy_on_write *)

(** The store is the same and the allocators did not go back. *)
Record same_store (w w' : world) : Prop := SameStore {
  same_objs : objs w' = objs w;
  same_ptrs : ptrs w' = ptrs w;
  same_addr : next_addr w ≤ next_addr w';
  same_node : next_node w ≤ next_node w';
  same_pid : next_pid w ≤ next_pid w';
  same_quiet : faults w = [] → faults w' = [] }.

Lemma same_store_wf w w' : wf w → same_store w w' → wf w'.
Proof.
  intros Hw [Ho Hp Ha Hn Hx _]. split; rewrite ?Ho, ?Hp.
  - apply Hw.
  - apply Hw.
  - intros a s Hs. eapply fresh_node_mono; [by eapply wf_nodes|done].
  - intros a Ha'. apply (wf_addr w Hw) in Ha'. lia.
  - intros x Hx'. apply (wf_pids w Hw) in Hx'. lia.
Qed.

Lemma same_store_refl w : same_store w w.
Proof. by split. Qed.

Lemma same_store_trans w1 w2 w3 :
  same_store w1 w2 → same_store w2 w3 → same_store w1 w3.
Proof.
  intros [] []. split; try congruence; try lia. auto.
Qed.

(** The state [w1] reached from [w] when [copy_on_write] returns: [this]
    holds [a1], whose structure [s1] shows the same items as before, and the
    local pointer [next_pid w] keeps the former structure [a] alive. *)
Record cow (this : pid) (a : addr) (s : map_structure) (w w1 : world)
    (a1 : addr) (s1 : map_structure) : Prop := Cow {
  cow_ptrs : ptrs w1 = <[this := a1]> (<[next_pid w := a]> (ptrs w));
  cow_objs : objs w1 = <[a1 := s1]> (objs w);
  cow_pid : next_pid w1 = S (next_pid w);
  cow_addr : next_addr w ≤ next_addr w1;
  cow_node : next_node w ≤ next_node w1;
  cow_quiet : faults w = [] → faults w1 = [];
  cow_lt : a1 < next_addr w1;
  cow_inv : inv s1;
  cow_fresh : fresh_node (next_node w1) s1;
  cow_items : items s1 = items s;
  cow_map : ∀ k, value <$> mappings s1 !! k = value <$> mappings s !! k;
  cow_case : (a1 = a ∧ s1 = s ∧ owners a (ptrs w) ≤ 1)
             ∨ (a1 = next_addr w ∧ 1 < owners a (ptrs w)) }.

Lemma copy_value n0 s k :
  inv s →
  value <$> mappings (map_structure_copy n0 s) !! k = value <$> mappings s !! k.
Proof.
  intros Hi. unfold map_structure_copy. simpl.
  destruct (decide (k ∈ (copy_list n0 (insertions s)).*2)) as [Hk|Hk].
  - pose proof Hk as Hk'. rewrite copy_list_snd in Hk'.
    apply inv_key_in_list in Hk' as [mv Hm]; [|done].
    apply list_elem_of_fmap in Hk as ([n k'] & -> & Hin). simpl in *.
    rewrite (relink_fold_in _ _ n); [by rewrite Hm| |done].
    rewrite copy_list_snd. by apply inv_keys_nodup.
  - by rewrite relink_fold_notin.
Qed.

Lemma copy_on_write_spec this a s w :
  wf w → ptrs w !! this = Some a → objs w !! a = Some s →
  wp (copy_on_write this) w
     (λ x w1, x = next_pid w ∧ ∃ a1 s1, cow this a s w w1 a1 s1)
     (λ e w1, e = injected_failure ∧ faults w ≠ [] ∧ same_store w w1).
Proof.
  intros Hw Hthis Ha.
  pose proof (wf_fresh_pid w Hw) as Hnp.
  pose proof (wf_fresh_addr w Hw) as Hna.
  assert (this ≠ next_pid w) as Hne by congruence.
  assert (inv s) as Hi by by eapply wf_inv.
  pose proof (wf_nodes w Hw a s Ha) as Hfr.
  assert (a < next_addr w) as Hlt by (apply (wf_addr w Hw); by eexists).
  destruct w as [o p na nn np fs]. wsimpl.
  unfold copy_on_write.
  apply wp_bind. eapply wp_sp_copy; [done|]. wsimpl.
  apply wp_bind. eapply wp_sp_use_count; wsimpl.
  { by rewrite lookup_insert_ne. }
  rewrite owners_insert_fresh by done.
  rewrite (decide_True (P := a = a)) by done.
  replace (owners a p + 1) with (S (owners a p)) by lia.
  apply wp_bind. destruct (decide (2 < S (owners a p))) as [Hsh|Hex].
  - apply wp_catch. unfold copy.
    apply wp_bind. eapply wp_sp_get; wsimpl; [by rewrite lookup_insert_ne|].
    apply wp_bind. eapply wp_load; wsimpl; [done|].
    apply wp_bind. unfold make_shared_copy.
    apply wp_bind. apply wp_may_throw'; wsimpl; intros Hf.
    + apply wp_bind. apply wp_alloc_nodes. wsimpl. apply wp_alloc_obj. wsimpl.
      eapply wp_sp_set; wsimpl; [by rewrite lookup_insert_ne|].
      rewrite reclaim_keep; wsimpl.
      2:{ apply (owners_pos _ np).
          rewrite lookup_insert_ne by done. by rewrite lookup_insert_eq. }
      apply wp_ret. split; [done|].
      exists na, (map_structure_copy nn s).
      split; wsimpl; try done; try lia;
        auto using inv_copy, fresh_copy, items_copy, copy_value;
        try (by intros ->); try (right; split; [done|lia]).
    + eapply wp_sp_destroy; wsimpl; [by rewrite lookup_insert_eq|].
      rewrite delete_insert_eq, delete_id by done.
      rewrite reclaim_keep by (wsimpl; by eapply owners_pos).
      split; [done|]. split.
      { intros Hnil. by rewrite Hnil in Hf. }
      split; wsimpl; try done; try lia. intros ->. done.
  - apply wp_ret. apply wp_ret. split; [done|]. exists a, s.
    split; wsimpl; try done; try lia;
      try (left; split; [done|]; split; [done|lia]).
    + symmetry. apply insert_id. by rewrite lookup_insert_ne.
    + symmetry. by apply insert_id.
Qed.

Section cow_facts.
Context {this a s w w1 a1 s1}
  (Hw : wf w) (Hthis : ptrs w !! this = Some a) (Ha : objs w !! a = Some s)
  (Hc : cow this a s w w1 a1 s1).

Lemma cow_ne : this ≠ next_pid w.
Proof. pose proof (wf_fresh_pid w Hw). congruence. Qed.

Lemma cow_this : ptrs w1 !! this = Some a1.
Proof. by rewrite (cow_ptrs _ _ _ _ _ _ _ Hc), lookup_insert_eq. Qed.

Lemma cow_old : ptrs w1 !! next_pid w = Some a.
Proof.
  rewrite (cow_ptrs _ _ _ _ _ _ _ Hc), lookup_insert_ne by apply cow_ne.
  by rewrite lookup_insert_eq.
Qed.

Lemma cow_obj : objs w1 !! a1 = Some s1.
Proof. by rewrite (cow_objs _ _ _ _ _ _ _ Hc), lookup_insert_eq. Qed.

(** Nobody else holds the structure [this] is about to change. *)
Lemma cow_excl y : y ≠ this → ptrs w !! y ≠ Some a1.
Proof.
  intros Hy Hpy. destruct (cow_case _ _ _ _ _ _ _ Hc) as [(-> & _ & Hle)|[-> _]].
  - apply Hy. by eapply owners_unique.
  - by eapply wf_fresh_addr_ptr.
Qed.

Lemma cow_keep : owners a (<[this := a1]> (ptrs w)) ≠ 0.
Proof.
  destruct (cow_case _ _ _ _ _ _ _ Hc) as [(-> & _ & Hle)|[-> Hlt]].
  - eapply owners_pos. apply lookup_insert_eq.
  - by apply owners_shared.
Qed.

(** Leaving the scope of the local pointer after a successful change. *)
Lemma wp_commit w2 (Q : unit → world → Prop) E :
  ptrs w2 = ptrs w1 →
  Q tt (set_ptrs (<[this := a1]> (ptrs w)) w2) →
  wp (sp_destroy (next_pid w)) w2 Q E.
Proof.
  intros Hp HQ. eapply wp_sp_destroy; [rewrite Hp; apply cow_old|].
  rewrite Hp, (cow_ptrs _ _ _ _ _ _ _ Hc).
  rewrite delete_insert_ne by (intros Heq; by apply cow_ne).
  rewrite delete_insert_eq, delete_id by by apply wf_fresh_pid.
  rewrite reclaim_keep; [done|]. wsimpl. apply cow_keep.
Qed.

(** [data = old_data_struct] in a handler: the copy, if one was made, dies. *)
Lemma wp_rollback w2 s2 (Q : unit → world → Prop) E :
  ptrs w2 = ptrs w1 → objs w2 = <[a1 := s2]> (objs w) →
  Q tt (set_objs (if decide (a1 = a) then <[a := s2]> (objs w) else objs w)
          (set_ptrs (<[next_pid w := a]> (ptrs w)) w2)) →
  wp (sp_assign this (next_pid w)) w2 Q E.
Proof.
  intros Hp Ho HQ.
  eapply wp_sp_assign; [rewrite Hp; apply cow_old|rewrite Hp; apply cow_this|].
  rewrite Hp, (cow_ptrs _ _ _ _ _ _ _ Hc), insert_insert_eq.
  assert (<[this := a]> (<[next_pid w := a]> (ptrs w)) = <[next_pid w := a]> (ptrs w)) as ->.
  { apply insert_id. rewrite lookup_insert_ne; [done|]. intros Heq. by apply cow_ne. }
  destruct (cow_case _ _ _ _ _ _ _ Hc) as [(-> & _ & Hle)|[-> Hlt]].
  - rewrite decide_True in HQ by done. rewrite reclaim_keep.
    + rewrite <- Ho in HQ. by destruct w2.
    + wsimpl. eapply owners_pos. apply lookup_insert_eq.
  - assert (next_addr w ≠ a) as Hne.
    { intros Heq. apply (wf_fresh_addr_ptr w this Hw). by rewrite Heq. }
    rewrite decide_False in HQ by done. rewrite reclaim_free.
    + wsimpl. rewrite Ho, delete_insert_eq, delete_id by by apply wf_fresh_addr. done.
    + wsimpl. apply owners_zero_intro. intros x.
      destruct (decide (x = next_pid w)) as [->|Hx].
      * rewrite lookup_insert_eq. congruence.
      * rewrite lookup_insert_ne by done. by apply wf_fresh_addr_ptr.
Qed.

(** Leaving the scope of the local pointer after a rollback. *)
Lemma wp_release w3 (Q : unit → world → Prop) E :
  ptrs w3 = <[next_pid w := a]> (ptrs w) →
  Q tt (set_ptrs (ptrs w) w3) →
  wp (sp_destroy (next_pid w)) w3 Q E.
Proof.
  intros Hp HQ. eapply wp_sp_destroy; [rewrite Hp; apply lookup_insert_eq|].
  rewrite Hp, delete_insert_eq, delete_id by by apply wf_fresh_pid.
  rewrite reclaim_keep; [done|]. wsimpl. by eapply owners_pos.
Qed.
End cow_facts.

(** ** Calls on the members of [*data] *)

Section data_calls.
Context {this : pid} {a : addr} {s : map_structure} {w : world}
  (Hthis : ptrs w !! this = Some a) (Ha : objs w !! a = Some s).

Lemma wp_list_insert_end k Q E :
  (head (faults w) ≠ Some true →
   Q (next_node w)
     (set_objs (<[a := set_insertions (insertions s ++ [(next_node w, k)]) s]> (objs w))
        (set_next_node (S (next_node w)) (pass w)))) →
  (head (faults w) = Some true → E injected_failure (pass w)) →
  wp (list_insert_end this k) w Q E.
Proof.
  intros HQ HE. unfold list_insert_end.
  apply wp_bind. eapply wp_sp_get; [done|].
  apply wp_bind. eapply wp_load; [done|].
  apply wp_bind. apply wp_may_throw'; [|done]. intros Hf.
  apply wp_bind. apply wp_alloc_nodes.
  apply wp_bind. eapply wp_store; [wsimpl; done|]. wsimpl.
  apply wp_ret. by apply HQ.
Qed.

Lemma wp_list_erase n Q E :
  n ∈ (insertions s).*1 →
  Q tt (set_objs (<[a := set_insertions (remove_node n (insertions s)) s]> (objs w)) w) →
  wp (list_erase this n) w Q E.
Proof.
  intros Hn HQ. unfold list_erase.
  apply wp_bind. eapply wp_sp_get; [done|].
  apply wp_bind. eapply wp_load; [done|].
  rewrite bool_decide_eq_true_2 by done. by eapply wp_store.
Qed.

Lemma wp_list_pop_back Q E :
  insertions s ≠ [] →
  Q tt (set_objs (<[a := set_insertions (removelast (insertions s)) s]> (objs w)) w) →
  wp (list_pop_back this) w Q E.
Proof.
  intros Hn HQ. unfold list_pop_back.
  apply wp_bind. eapply wp_sp_get; [done|].
  apply wp_bind. eapply wp_load; [done|].
  destruct (insertions s); [done|]. by eapply wp_store.
Qed.

Lemma wp_list_clear Q E :
  Q tt (set_objs (<[a := set_insertions [] s]> (objs w)) w) →
  wp (list_clear this) w Q E.
Proof.
  intros HQ. unfold list_clear.
  apply wp_bind. eapply wp_sp_get; [done|].
  apply wp_bind. eapply wp_load; [done|]. by eapply wp_store.
Qed.

Lemma wp_map_clear Q E :
  Q tt (set_objs (<[a := set_mappings ∅ s]> (objs w)) w) →
  wp (map_clear this) w Q E.
Proof.
  intros HQ. unfold map_clear.
  apply wp_bind. eapply wp_sp_get; [done|].
  apply wp_bind. eapply wp_load; [done|]. by eapply wp_store.
Qed.

Lemma wp_write_flag b Q E :
  Q tt (set_objs (<[a := set_flag b s]> (objs w)) w) →
  wp (write_flag this b) w Q E.
Proof.
  intros HQ. unfold write_flag.
  apply wp_bind. eapply wp_sp_get; [done|].
  apply wp_bind. eapply wp_load; [done|]. by eapply wp_store.
Qed.

Lemma wp_map_insert k mv Q E :
  (head (faults w) ≠ Some true →
   match mappings s !! k with
   | Some _ => Q (MapIter a (Some k), false) (pass w)
   | None =>
       Q (MapIter a (Some k), true)
         (set_objs (<[a := set_mappings (<[k := mv]> (mappings s)) s]> (objs w)) (pass w))
   end) →
  (head (faults w) = Some true → E injected_failure (pass w)) →
  wp (map_insert this k mv) w Q E.
Proof.
  intros HQ HE. unfold map_insert.
  apply wp_bind. eapply wp_sp_get; [done|].
  apply wp_bind. eapply wp_load; [done|].
  apply wp_bind. apply wp_may_throw'; [|done]. intros Hf.
  specialize (HQ Hf). destruct (mappings s !! k).
  - by apply wp_ret.
  - apply wp_bind. eapply wp_store; [wsimpl; done|]. wsimpl. by apply wp_ret.
Qed.

Lemma wp_map_find k Q E :
  (head (faults w) ≠ Some true →
   Q (MapIter a (match mappings s !! k with Some _ => Some k | None => None end))
     (pass w)) →
  (head (faults w) = Some true → E injected_failure (pass w)) →
  wp (map_find this k) w Q E.
Proof.
  intros HQ HE. unfold map_find.
  apply wp_bind. eapply wp_sp_get; [done|].
  apply wp_bind. eapply wp_load; [done|].
  apply wp_bind. apply wp_may_throw'; [|done]. intros Hf.
  apply wp_ret. by apply HQ.
Qed.

Lemma wp_map_count k Q E :
  (head (faults w) ≠ Some true →
   Q (match mappings s !! k with Some _ => 1 | None => 0 end) (pass w)) →
  (head (faults w) = Some true → E injected_failure (pass w)) →
  wp (map_count this k) w Q E.
Proof.
  intros HQ HE. unfold map_count.
  apply wp_bind. eapply wp_sp_get; [done|].
  apply wp_bind. eapply wp_load; [done|].
  apply wp_bind. apply wp_may_throw'; [|done]. intros Hf.
  apply wp_ret. by apply HQ.
Qed.

Lemma wp_map_at k (Q : ref → world → Prop) E :
  (head (faults w) ≠ Some true →
   match mappings s !! k with
   | Some _ => Q (Ref a k) (pass w)
   | None => E out_of_range (pass w)
   end) →
  (head (faults w) = Some true → E injected_failure (pass w)) →
  wp (map_at this k) w Q E.
Proof.
  intros HQ HE. unfold map_at.
  apply wp_bind. eapply wp_sp_get; [done|].
  apply wp_bind. eapply wp_load; [done|].
  apply wp_bind. apply wp_may_throw'; [|done]. intros Hf.
  specialize (HQ Hf). destruct (mappings s !! k); [by apply wp_ret|by apply wp_throw].
Qed.

Lemma wp_map_erase k Q E :
  is_Some (mappings s !! k) →
  Q tt (set_objs (<[a := set_mappings (delete k (mappings s)) s]> (objs w)) w) →
  wp (map_erase this (MapIter a (Some k))) w Q E.
Proof.
  intros Hk HQ. unfold map_erase.
  apply wp_bind. eapply wp_sp_get; [done|].
  apply wp_bind. eapply wp_load; [done|]. simpl.
  rewrite bool_decide_eq_true_2 by done. by eapply wp_store.
Qed.

Lemma wp_mi_deref k mv Q E :
  mappings s !! k = Some mv →
  Q mv w → wp (mi_deref (MapIter a (Some k))) w Q E.
Proof.
  intros Hk HQ. unfold mi_deref. simpl.
  apply wp_bind. eapply wp_load; [done|]. rewrite Hk. by apply wp_ret.
Qed.

Lemma wp_mi_set_iter k mv n Q E :
  mappings s !! k = Some mv →
  Q tt (set_objs (<[a := set_mappings (<[k := MapValue n (value mv)]> (mappings s)) s]>
                    (objs w)) w) →
  wp (mi_set_iter (MapIter a (Some k)) n) w Q E.
Proof.
  intros Hk HQ. unfold mi_set_iter. simpl.
  apply wp_bind. eapply wp_load; [done|]. rewrite Hk. by eapply wp_store.
Qed.

(** [contains] reads the map and nothing else. *)
Lemma wp_contains k Q E :
  (head (faults w) ≠ Some true →
   Q (bool_decide (is_Some (mappings s !! k))) (pass w)) →
  (head (faults w) = Some true → E injected_failure (pass w)) →
  wp (contains this k) w Q E.
Proof.
  intros HQ HE. unfold contains.
  apply wp_bind. apply wp_map_count; [|done]. intros Hf.
  apply wp_ret. specialize (HQ Hf).
  destruct (mappings s !! k).
  - rewrite bool_decide_eq_true_2 by lia.
    by rewrite bool_decide_eq_true_2 in HQ by by eexists.
  - rewrite bool_decide_eq_false_2 by lia.
    by rewrite bool_decide_eq_false_2 in HQ by by intros [? ?].
Qed.
End data_calls.

(** ** In-place changes behind copy_on_write *)

(** [w'] is [w] after a member of [this] went through [copy_on_write] (which
    left [this] with the structure [s1] at [a1]) and changed [s1] into [s']. *)
Record upd (this : pid) (a : addr) (s : map_structure) (w w' : world)
    (a1 : addr) (s1 s' : map_structure) : Prop := Upd {
  upd_ptrs : ptrs w' = <[this := a1]> (ptrs w);
  upd_objs : objs w' = <[a1 := s']> (objs w);
  upd_pid : next_pid w ≤ next_pid w';
  upd_addr : next_addr w ≤ next_addr w';
  upd_node : next_node w ≤ next_node w';
  upd_quiet : faults w = [] → faults w' = [];
  upd_lt : a1 < next_addr w';
  upd_fresh : fresh_node (next_node w') s';
  upd_excl : ∀ y, y ≠ this → ptrs w !! y ≠ Some a1;
  upd_base_inv : inv s1;
  upd_base_items : items s1 = items s;
  upd_base_map : ∀ k, value <$> mappings s1 !! k = value <$> mappings s !! k;
  upd_case : (a1 = a ∧ s1 = s ∧ owners a (ptrs w) ≤ 1)
             ∨ (a1 = next_addr w ∧ 1 < owners a (ptrs w)) }.

Lemma upd_wf this a s w w' a1 s1 s' :
  wf w → ptrs w !! this = Some a → upd this a s w w' a1 s1 s' → inv s' → wf w'.
Proof.
  intros Hw Hthis Hu Hi. destruct Hu as [Hp Ho Hx Hna Hnn _ Hlt Hfr _ _ _ _ _].
  split; rewrite ?Hp, ?Ho.
  - intros x b. destruct (decide (x = this)) as [->|Hne].
    + rewrite lookup_insert_eq. intros [= <-]. rewrite lookup_insert_eq. by eexists.
    + rewrite lookup_insert_ne by done. intros Hb%(wf_ptrs w Hw).
      destruct (decide (b = a1)) as [->|Hne'].
      * rewrite lookup_insert_eq. by eexists.
      * by rewrite lookup_insert_ne.
  - intros b t. destruct (decide (b = a1)) as [->|Hne].
    + rewrite lookup_insert_eq. by intros [= <-].
    + rewrite lookup_insert_ne by done. apply Hw.
  - intros b t. destruct (decide (b = a1)) as [->|Hne].
    + rewrite lookup_insert_eq. by intros [= <-].
    + rewrite lookup_insert_ne by done. intros Hb.
      eapply fresh_node_mono; [by eapply wf_nodes|done].
  - intros b. destruct (decide (b = a1)) as [->|Hne]; [done|].
    rewrite lookup_insert_ne by done. intros Hb%(wf_addr w Hw). lia.
  - intros x. destruct (decide (x = this)) as [->|Hne].
    + intros _. assert (this < next_pid w); [|lia]. apply Hw. by eexists.
    + rewrite lookup_insert_ne by done. intros Hb%(wf_pids w Hw). lia.
Qed.

Lemma upd_frame this a s w w' a1 s1 s' y :
  upd this a s w w' a1 s1 s' → y ≠ this →
  ptrs w' !! y = ptrs w !! y
  ∧ ∀ b, ptrs w !! y = Some b → objs w' !! b = objs w !! b.
Proof.
  intros Hu Hy. rewrite (upd_ptrs _ _ _ _ _ _ _ _ Hu), (upd_objs _ _ _ _ _ _ _ _ Hu).
  split; [by rewrite lookup_insert_ne|].
  intros b Hb. rewrite lookup_insert_ne; [done|].
  intros <-. by eapply upd_excl.
Qed.

Lemma upd_inplace this a s w w' a1 s1 s' :
  upd this a s w w' a1 s1 s' → owners a (ptrs w) ≤ 1 → a1 = a.
Proof. intros Hu Hle. destruct (upd_case _ _ _ _ _ _ _ _ Hu) as [[? _]|[_ ?]]; [done|lia]. Qed.

Ltac wlook :=
  wsimpl;
  first [ eassumption
        | apply lookup_insert_eq
        | by rewrite lookup_insert_eq
        | by (rewrite lookup_insert_ne by done) ].

(** The state after the changes of a member are accepted: the local pointer
    made by [copy_on_write] is gone. *)
Lemma upd_of_cow this a s w w1 a1 s1 w' s' :
  wf w → ptrs w !! this = Some a → objs w !! a = Some s →
  cow this a s w w1 a1 s1 →
  ptrs w' = <[this := a1]> (ptrs w) →
  objs w' = <[a1 := s']> (objs w) →
  next_pid w1 ≤ next_pid w' → next_addr w1 = next_addr w' →
  next_node w1 ≤ next_node w' → (faults w1 = [] → faults w' = []) →
  fresh_node (next_node w') s' →
  upd this a s w w' a1 s1 s'.
Proof.
  intros Hw Hthis Ha Hc Hp Ho Hx Hna Hnn Hq Hfr.
  pose proof Hc as [? ? ? ? ? ? ? ? ? ? ? ?].
  split; wsimpl; try done; try lia; auto.
  intros y Hy. by eapply cow_excl.
Qed.

(** The state after a rollback. *)
Lemma same_of_cow this a s w w1 a1 s1 w3 :
  wf w → ptrs w !! this = Some a → objs w !! a = Some s →
  cow this a s w w1 a1 s1 →
  objs w3 = (if decide (a1 = a) then <[a := s1]> (objs w) else objs w) →
  next_pid w1 ≤ next_pid w3 → next_addr w1 ≤ next_addr w3 →
  next_node w1 ≤ next_node w3 → (faults w1 = [] → faults w3 = []) →
  same_store w (set_ptrs (ptrs w) w3).
Proof.
  intros Hw Hthis Ha Hc Ho Hx Hna Hnn Hq.
  pose proof Hc as [? ? ? ? ? ? ? ? ? ? ? Hcase].
  split; wsimpl; try done; try lia; auto.
  rewrite Ho. destruct Hcase as [(-> & -> & _)|[-> _]].
  - rewrite decide_True by done. by apply insert_id.
  - rewrite decide_False; [done|]. intros Heq.
    apply (wf_fresh_addr_ptr w this Hw). by rewrite Heq.
Qed.

(** ** private_insert and insert *)

Lemma insert_effect_present n k v s mv :
  mappings s !! k = Some mv →
  insert_effect n k v s
  = MapStructure (<[k := MapValue n (value mv)]> (mappings s))
                 (remove_node (iter mv) (insertions s ++ [(n, k)])) false.
Proof. intros Hm. unfold insert_effect. by rewrite Hm. Qed.

Lemma insert_effect_absent n k v s :
  mappings s !! k = None →
  insert_effect n k v s
  = MapStructure (<[k := MapValue n v]> (mappings s)) (insertions s ++ [(n, k)]) false.
Proof. intros Hm. unfold insert_effect. by rewrite Hm. Qed.

Lemma private_insert_spec this k v a s w :
  wf w → ptrs w !! this = Some a → objs w !! a = Some s →
  wp (private_insert this k v) w
     (λ r w', ∃ a1 s1 n,
        r = (MapIter a1 (Some k), bool_decide (mappings s !! k = None))
        ∧ fresh_node n s1
        ∧ upd this a s w w' a1 s1 (insert_effect n k v s1))
     (λ e w', e = injected_failure ∧ faults w ≠ [] ∧ same_store w w').
Proof.
  intros Hw Hthis Ha. unfold private_insert.
  apply wp_bind. eapply wp_mono; [by apply copy_on_write_spec| |done].
  intros x w1 (-> & a1 & s1 & Hc). wsimpl.
  pose proof (cow_this Hc) as Hthis1.
  pose proof (cow_obj Hc) as Ha1.
  pose proof (cow_inv _ _ _ _ _ _ _ Hc) as Hi1.
  pose proof (cow_fresh _ _ _ _ _ _ _ Hc) as Hfr1.
  assert (Hnil : faults w ≠ [] ∨ faults w1 = []).
  { destruct (faults w) eqn:Hf; [right|by left]. by apply (cow_quiet _ _ _ _ _ _ _ Hc). }
  apply wp_scope. apply wp_bind. apply wp_catch.
  eapply wp_list_insert_end; [done|done| |]; intros Hf1.
  - (* the key is in the list *)
    apply wp_catch. apply wp_bind.
    eapply wp_map_insert; [wlook|wlook| |]; intros Hf2; wsimpl.
    + destruct (mappings s1 !! k) as [mv|] eqn:Hm.
      * (* already there: the old node goes, the entry points to the new one *)
        apply wp_bind. apply wp_bind.
        eapply wp_mi_deref; [wlook|done|]. wsimpl.
        apply wp_bind.
        eapply wp_list_erase; [wlook|wlook| |].
        { simpl. rewrite fmap_app. apply elem_of_app. left.
          apply (list_elem_of_fmap_2 fst _ (iter mv, k)). by apply Hi1. }
        wsimpl. rewrite insert_insert_eq.
        eapply wp_mi_set_iter; [wlook|done|]. wsimpl. rewrite insert_insert_eq.
        apply wp_bind. eapply wp_write_flag; [wlook|wlook|]. wsimpl.
        rewrite insert_insert_eq.
        apply wp_ret. eapply (wp_commit Hw Hthis Hc); [done|].
        exists a1, s1, (next_node w1). split; [|split; [done|]].
        { f_equal. pose proof (cow_map _ _ _ _ _ _ _ Hc k) as Hk. rewrite Hm in Hk.
          destruct (mappings s !! k); [|done]. by rewrite bool_decide_eq_false_2. }
        eapply upd_of_cow; eauto; wsimpl; try done; try lia.
        -- rewrite (cow_objs _ _ _ _ _ _ _ Hc), insert_insert_eq. f_equal.
           by rewrite (insert_effect_present _ _ _ _ mv).
        -- intros Hq. by rewrite Hq.
        -- by apply fresh_insert_effect.
      * (* a new key *)
        wsimpl. rewrite insert_insert_eq.
        apply wp_bind. apply wp_ret. apply wp_bind.
        eapply wp_write_flag; [wlook|wlook|]. wsimpl. rewrite insert_insert_eq.
        apply wp_ret. eapply (wp_commit Hw Hthis Hc); [done|].
        exists a1, s1, (next_node w1). split; [|split; [done|]].
        { f_equal. pose proof (cow_map _ _ _ _ _ _ _ Hc k) as Hk. rewrite Hm in Hk.
          destruct (mappings s !! k); [done|]. by rewrite bool_decide_eq_true_2. }
        eapply upd_of_cow; eauto; wsimpl; try done; try lia.
        -- rewrite (cow_objs _ _ _ _ _ _ _ Hc), insert_insert_eq. f_equal.
           by rewrite insert_effect_absent.
        -- intros Hq. by rewrite Hq.
        -- by apply fresh_insert_effect.
    + (* the map refuses the entry: undo the append, restore the pointer *)
      apply wp_bind. eapply wp_list_erase; [wlook|wlook| |].
      { simpl. rewrite fmap_app. apply elem_of_app. right. simpl. left. }
      wsimpl. rewrite insert_insert_eq, undo_list_insert by done.
      eapply (wp_rollback Hw Hthis Hc);
        [done|wsimpl; by rewrite (cow_objs _ _ _ _ _ _ _ Hc), insert_insert_eq|].
      wsimpl. eapply (wp_release Hw Hthis); [done|].
      split; [done|]. split.
      { destruct Hnil as [|Hnil]; [done|]. by rewrite Hnil in Hf2. }
      eapply same_of_cow; eauto; wsimpl; try done; try lia.
      intros Hq. by rewrite Hq.
  - (* the list refuses the key *)
    eapply (wp_rollback Hw Hthis Hc); [done|wsimpl; apply (cow_objs _ _ _ _ _ _ _ Hc)|].
    wsimpl. eapply (wp_release Hw Hthis); [done|].
    split; [done|]. split.
    { destruct Hnil as [|Hnil]; [done|]. by rewrite Hnil in Hf1. }
    eapply same_of_cow; eauto; wsimpl; try done; try lia.
    intros Hq. by rewrite Hq.
Qed.

Lemma insert_spec this k v a s w :
  wf w → ptrs w !! this = Some a → objs w !! a = Some s →
  wp (insert this k v) w
     (λ r w', ∃ a1 s1 n,
        r = bool_decide (mappings s !! k = None)
        ∧ fresh_node n s1
        ∧ upd this a s w w' a1 s1 (insert_effect n k v s1))
     (λ e w', e = injected_failure ∧ faults w ≠ [] ∧ same_store w w').
Proof.
  intros Hw Hthis Ha. unfold insert. apply wp_bind.
  eapply wp_mono; [by apply private_insert_spec| |done].
  intros r w' (a1 & s1 & n & -> & Hn & Hu). apply wp_ret. by exists a1, s1, n.
Qed.

(** ** States that differ by fallible calls that went through *)

Lemma wf_pass w : wf w → wf (pass w).
Proof. intros []. by split. Qed.

Lemma same_store_pass w : same_store w (pass w).
Proof. split; wsimpl; try done. by intros ->. Qed.

Lemma same_store_of_pass w w' : same_store (pass w) w' → same_store w w'.
Proof. apply same_store_trans, same_store_pass. Qed.

Lemma upd_of_pass this a s w w' a1 s1 s' :
  upd this a s (pass w) w' a1 s1 s' → upd this a s w w' a1 s1 s'.
Proof.
  intros [? ? ? ? ? Hq ? ? ? ? ? ? ?]. split; wsimpl; try done.
  intros Hf. apply Hq. by rewrite Hf.
Qed.

Lemma head_true_not_nil (fs : list bool) : head fs = Some true → fs ≠ [].
Proof. by destruct fs. Qed.

Lemma pass_not_nil w : faults (pass w) ≠ [] → faults w ≠ [].
Proof. wsimpl. by destruct (faults w). Qed.

(** ** erase *)

Definition erase_post (this : pid) (k : K) (a : addr) (s : map_structure)
    (w : world) (e : exn) (w' : world) : Prop :=
  match e with
  | lookup_error => mappings s !! k = None ∧ same_store w w'
  | injected_failure => faults w ≠ [] ∧ same_store w w'
  | out_of_range => False
  end.

Lemma cow_lookup {this a s w w1 a1 s1} k mv :
  cow this a s w w1 a1 s1 → mappings s !! k = Some mv →
  ∃ mv1, mappings s1 !! k = Some mv1 ∧ value mv1 = value mv.
Proof.
  intros Hc Hm. pose proof (cow_map _ _ _ _ _ _ _ Hc k) as Hk. rewrite Hm in Hk.
  destruct (mappings s1 !! k) as [mv1|]; [|done]. exists mv1. split; [done|].
  by injection Hk.
Qed.

Lemma erase_spec this k a s w :
  wf w → ptrs w !! this = Some a → objs w !! a = Some s →
  wp (erase this k) w
     (λ _ w', ∃ a1 s1 mv1,
        is_Some (mappings s !! k) ∧ mappings s1 !! k = Some mv1
        ∧ upd this a s w w' a1 s1 (erase_effect k mv1 s1))
     (erase_post this k a s w).
Proof.
  intros Hw Hthis Ha. unfold erase.
  apply wp_bind. eapply wp_contains; [done|done| |]; intros Hf0.
  2:{ split; [by apply head_true_not_nil|apply same_store_pass]. }
  destruct (mappings s !! k) as [mv|] eqn:Hm.
  2:{ rewrite bool_decide_eq_false_2 by by intros [? ?]. simpl.
      apply wp_throw. split; [done|apply same_store_pass]. }
  rewrite bool_decide_eq_true_2 by by eexists. simpl.
  pose proof (wf_pass w Hw) as Hw'.
  apply wp_bind. eapply wp_mono; [by apply (copy_on_write_spec this a s (pass w))| |].
  2:{ intros e w' (-> & Hf & Hs). split; [by apply pass_not_nil|by apply same_store_of_pass]. }
  intros x w1 (-> & a1 & s1 & Hc). wsimpl.
  assert (Hthis' : ptrs (pass w) !! this = Some a) by done.
  assert (Ha' : objs (pass w) !! a = Some s) by done.
  pose proof (cow_this Hc) as Hthis1.
  pose proof (cow_obj Hc) as Ha1.
  pose proof (cow_inv _ _ _ _ _ _ _ Hc) as Hi1.
  pose proof (cow_fresh _ _ _ _ _ _ _ Hc) as Hfr1.
  destruct (cow_lookup k mv Hc Hm) as (mv1 & Hm1 & _).
  assert (Hnil : faults w ≠ [] ∨ faults w1 = []).
  { destruct (faults w) eqn:Hf; [right|by left].
    apply (cow_quiet _ _ _ _ _ _ _ Hc). wsimpl. by rewrite Hf. }
  apply wp_scope. apply wp_bind. apply wp_catch.
  eapply wp_map_find; [done|done| |]; intros Hf1; rewrite ?Hm1.
  - apply wp_bind. eapply wp_mi_deref; [wlook|done|].
    apply wp_bind. eapply wp_list_erase; [wlook|wlook| |].
    { apply (list_elem_of_fmap_2 fst _ (iter mv1, k)). by apply Hi1. }
    wsimpl.
    apply wp_bind. eapply wp_map_erase; [wlook|wlook|by eexists|].
    wsimpl. rewrite insert_insert_eq.
    eapply wp_write_flag; [wlook|wlook|]. wsimpl. rewrite insert_insert_eq.
    eapply (wp_commit Hw' Hthis' Hc); [done|].
    exists a1, s1, mv1. split; [by eexists|]. split; [done|].
    apply upd_of_pass.
    eapply upd_of_cow; eauto; wsimpl; try done; try lia.
    + by rewrite (cow_objs _ _ _ _ _ _ _ Hc), insert_insert_eq.
    + intros Hq. by rewrite Hq.
    + by apply (fresh_erase_effect _ k mv1 s1).
  - eapply (wp_rollback Hw' Hthis' Hc); [done|wsimpl; apply (cow_objs _ _ _ _ _ _ _ Hc)|].
    wsimpl. eapply (wp_release Hw' Hthis'); [done|].
    split.
    { destruct Hnil as [|Hnil]; [done|]. by rewrite Hnil in Hf1. }
    apply same_store_of_pass.
    eapply same_of_cow; eauto; wsimpl; try done; try lia.
    intros Hq. by rewrite Hq.
Qed.

(** ** at *)

(** The only trace a failed [at] may leave: the flag of the structure of
    [this], cleared by the handler. *)
Record flagged (a : addr) (s : map_structure) (w w' : world) : Prop := Flagged {
  flagged_ptrs : ptrs w' = ptrs w;
  flagged_objs : objs w' = objs w
                 ∨ (objs w' = <[a := set_flag false s]> (objs w)
                    ∧ owners a (ptrs w) ≤ 1);
  flagged_addr : next_addr w ≤ next_addr w';
  flagged_node : next_node w ≤ next_node w';
  flagged_pid : next_pid w ≤ next_pid w';
  flagged_quiet : faults w = [] → faults w' = [] }.

Lemma same_store_flagged a s w w' : same_store w w' → flagged a s w w'.
Proof. intros []. split; auto. Qed.

Lemma flagged_wf a s w w' :
  wf w → objs w !! a = Some s → flagged a s w w' → wf w'.
Proof.
  intros Hw Ha [Hp [Ho|[Ho _]] Hna Hnn Hx Hq].
  { apply (same_store_wf w); [done|]. by split. }
  split; rewrite ?Hp, ?Ho.
  - intros x b Hb%(wf_ptrs w Hw). destruct (decide (b = a)) as [->|Hne].
    + rewrite lookup_insert_eq. by eexists.
    + by rewrite lookup_insert_ne.
  - intros b t. destruct (decide (b = a)) as [->|Hne].
    + rewrite lookup_insert_eq. intros [= <-]. apply inv_set_flag. by eapply wf_inv.
    + rewrite lookup_insert_ne by done. apply Hw.
  - intros b t. destruct (decide (b = a)) as [->|Hne].
    + rewrite lookup_insert_eq. intros [= <-].
      eapply fresh_node_mono; [by apply (wf_nodes w Hw a s)|done].
    + rewrite lookup_insert_ne by done. intros Hb.
      eapply fresh_node_mono; [by eapply wf_nodes|done].
  - intros b. destruct (decide (b = a)) as [->|Hne].
    + intros _. assert (a < next_addr w); [|lia]. apply Hw. by eexists.
    + rewrite lookup_insert_ne by done. intros Hb%(wf_addr w Hw). lia.
  - intros x Hb%(wf_pids w Hw). lia.
Qed.

Lemma flagged_of_pass a s w w' : flagged a s (pass w) w' → flagged a s w w'.
Proof.
  intros [? ? ? ? ? Hq]. split; wsimpl; try done.
  intros Hf. apply Hq. by rewrite Hf.
Qed.

Definition at_post (k : K) (a : addr) (s : map_structure)
    (w : world) (e : exn) (w' : world) : Prop :=
  match e with
  | lookup_error => mappings s !! k = None ∧ same_store w w'
  | injected_failure => faults w ≠ [] ∧ flagged a s w w'
  | out_of_range => False
  end.

Lemma at_spec this k a s w :
  wf w → ptrs w !! this = Some a → objs w !! a = Some s →
  wp (at_ this k) w
     (λ r w', ∃ a1 s1,
        r = Ref a1 k ∧ is_Some (mappings s !! k)
        ∧ upd this a s w w' a1 s1 (set_flag true s1))
     (at_post k a s w).
Proof.
  intros Hw Hthis Ha. unfold at_.
  apply wp_bind. eapply wp_contains; [done|done| |]; intros Hf0.
  2:{ split; [by apply head_true_not_nil|].
      apply same_store_flagged, same_store_pass. }
  destruct (mappings s !! k) as [mv|] eqn:Hm.
  2:{ rewrite bool_decide_eq_false_2 by by intros [? ?]. simpl.
      apply wp_throw. split; [done|apply same_store_pass]. }
  rewrite bool_decide_eq_true_2 by by eexists. simpl.
  pose proof (wf_pass w Hw) as Hw'.
  apply wp_bind. eapply wp_mono; [by apply (copy_on_write_spec this a s (pass w))| |].
  2:{ intros e w' (-> & Hf & Hs). split; [by apply pass_not_nil|].
      by apply same_store_flagged, same_store_of_pass. }
  intros x w1 (-> & a1 & s1 & Hc). wsimpl.
  assert (Hthis' : ptrs (pass w) !! this = Some a) by done.
  assert (Ha' : objs (pass w) !! a = Some s) by done.
  pose proof (cow_this Hc) as Hthis1.
  pose proof (cow_obj Hc) as Ha1.
  pose proof (cow_fresh _ _ _ _ _ _ _ Hc) as Hfr1.
  destruct (cow_lookup k mv Hc Hm) as (mv1 & Hm1 & _).
  assert (Hnil : faults w ≠ [] ∨ faults w1 = []).
  { destruct (faults w) eqn:Hf; [right|by left].
    apply (cow_quiet _ _ _ _ _ _ _ Hc). wsimpl. by rewrite Hf. }
  apply wp_scope. apply wp_bind.
  eapply wp_write_flag; [done|done|]. wsimpl.
  apply wp_catch.
  eapply wp_map_at; [wlook|wlook| |]; intros Hf1; wsimpl; rewrite ?Hm1.
  - eapply (wp_commit Hw' Hthis' Hc); [done|].
    exists a1, s1. split; [done|]. split; [by eexists|].
    apply upd_of_pass.
    eapply upd_of_cow; eauto; wsimpl; try done; try lia.
    + by rewrite (cow_objs _ _ _ _ _ _ _ Hc), insert_insert_eq.
    + intros Hq. by rewrite Hq.
  - apply wp_bind. eapply wp_write_flag; [wlook|wlook|].
    wsimpl. rewrite insert_insert_eq.
    eapply (wp_rollback Hw' Hthis' Hc);
      [done|wsimpl; by rewrite (cow_objs _ _ _ _ _ _ _ Hc), insert_insert_eq|].
    wsimpl. eapply (wp_release Hw' Hthis'); [done|].
    split.
    { destruct Hnil as [|Hnil]; [done|]. by rewrite Hnil in Hf1. }
    pose proof Hc as [? ? ? ? ? Hq ? ? ? ? ? Hcase].
    split; wsimpl; try done; try lia.
    + destruct Hcase as [(-> & -> & Hle)|[-> _]].
      * right. by rewrite decide_True.
      * left. rewrite decide_False; [done|]. intros Heq.
        apply (wf_fresh_addr_ptr w this Hw). by rewrite Heq.
    + intros Hf. wsimpl. rewrite Hq; [done|]. by rewrite Hf.
Qed.

(** ** at const, size, empty *)

(** A call that only consumed entries of the fault schedule. *)
Definition only_faults (w w' : world) : Prop :=
  ∃ fs, w' = set_faults fs w ∧ (faults w = [] → fs = []).

Lemma only_faults_refl w : only_faults w w.
Proof. exists (faults w). split; [by destruct w|done]. Qed.

Lemma only_faults_pass w : only_faults w (pass w).
Proof. exists (tail (faults w)). split; [done|by intros ->]. Qed.

Lemma only_faults_trans w1 w2 w3 :
  only_faults w1 w2 → only_faults w2 w3 → only_faults w1 w3.
Proof.
  intros (fs1 & -> & H1) (fs2 & -> & H2). exists fs2. split; [done|].
  intros Hf. apply H2. wsimpl. auto.
Qed.

Lemma only_faults_same w w' : only_faults w w' → same_store w w'.
Proof. intros (fs & -> & Hq). split; wsimpl; try done. Qed.

Definition const_post (k : K) (s : map_structure)
    (w : world) (e : exn) (w' : world) : Prop :=
  match e with
  | lookup_error => mappings s !! k = None ∧ only_faults w w'
  | injected_failure => faults w ≠ [] ∧ only_faults w w'
  | out_of_range => False
  end.

Lemma contains_spec this k a s w :
  ptrs w !! this = Some a → objs w !! a = Some s →
  wp (contains this k) w
     (λ b w', b = bool_decide (is_Some (mappings s !! k)) ∧ only_faults w w')
     (λ e w', e = injected_failure ∧ faults w ≠ [] ∧ only_faults w w').
Proof.
  intros Hthis Ha. eapply wp_contains; [done|done| |]; intros Hf.
  - split; [done|apply only_faults_pass].
  - split; [done|]. split; [by apply head_true_not_nil|apply only_faults_pass].
Qed.

Lemma at_const_spec this k a s w :
  ptrs w !! this = Some a → objs w !! a = Some s →
  wp (at_const this k) w
     (λ v w', (∃ mv, mappings s !! k = Some mv ∧ v = value mv) ∧ only_faults w w')
     (const_post k s w).
Proof.
  intros Hthis Ha. unfold at_const.
  apply wp_bind. eapply wp_contains; [done|done| |]; intros Hf0.
  2:{ split; [by apply head_true_not_nil|apply only_faults_pass]. }
  destruct (mappings s !! k) as [mv|] eqn:Hm.
  2:{ rewrite bool_decide_eq_false_2 by by intros [? ?]. simpl.
      apply wp_throw. split; [done|apply only_faults_pass]. }
  rewrite bool_decide_eq_true_2 by by eexists. simpl.
  apply wp_bind. eapply wp_map_at; [wlook|wlook| |]; intros Hf1; wsimpl; rewrite ?Hm.
  - unfold read_ref. simpl. apply wp_bind. eapply wp_load; [wlook|]. rewrite Hm.
    apply wp_ret. split; [by eexists|].
    eapply only_faults_trans; apply only_faults_pass.
  - split.
    + destruct (faults w) as [|? [|]]; done.
    + eapply only_faults_trans; apply only_faults_pass.
Qed.

Lemma size_spec this a s w :
  ptrs w !! this = Some a → objs w !! a = Some s →
  wp (size_ this) w (λ n w', n = length (insertions s) ∧ w' = w) (λ _ _, False).
Proof.
  intros Hthis Ha. unfold size_.
  apply wp_bind. eapply wp_sp_get; [done|].
  apply wp_bind. eapply wp_load; [done|]. by apply wp_ret.
Qed.

Lemma empty_spec this a s w :
  ptrs w !! this = Some a → objs w !! a = Some s →
  wp (empty_ this) w
     (λ b w', b = bool_decide (insertions s = []) ∧ w' = w) (λ _ _, False).
Proof.
  intros Hthis Ha. unfold empty_.
  apply wp_bind. eapply wp_mono; [by eapply size_spec| |done].
  intros n w' [-> ->]. apply wp_ret. split; [|done].
  apply bool_decide_ext. by destruct (insertions s).
Qed.

(** ** clear *)

Lemma clear_spec this a s w :
  wf w → ptrs w !! this = Some a → objs w !! a = Some s →
  wp (clear this) w
     (λ _ w', ∃ a1 s1, upd this a s w w' a1 s1 map_structure_default)
     (λ e w', e = injected_failure ∧ faults w ≠ [] ∧ same_store w w').
Proof.
  intros Hw Hthis Ha. unfold clear.
  apply wp_bind. eapply wp_mono; [by apply copy_on_write_spec| |done].
  intros x w1 (-> & a1 & s1 & Hc). wsimpl.
  pose proof (cow_obj Hc) as Ha1.
  apply wp_bind. eapply (wp_commit Hw Hthis Hc); [done|].
  apply wp_bind. eapply wp_map_clear; [wlook|wlook|]. wsimpl.
  apply wp_bind. eapply wp_list_clear; [wlook|wlook|]. wsimpl.
  rewrite insert_insert_eq.
  eapply wp_write_flag; [wlook|wlook|]. wsimpl. rewrite insert_insert_eq.
  exists a1, s1.
  eapply upd_of_cow; eauto; wsimpl; try done; try lia.
  - by rewrite (cow_objs _ _ _ _ _ _ _ Hc), insert_insert_eq.
  - by intros p ?%elem_of_nil.
Qed.

(** ** operator[] *)

Lemma owners_excl this a1 (p : gmap pid addr) :
  (∀ y, y ≠ this → p !! y ≠ Some a1) → owners a1 (<[this := a1]> p) = 1.
Proof.
  intros Hex. rewrite owners_insert, decide_True by done.
  rewrite owners_zero_intro; [done|]. intros y.
  destruct (decide (y = this)) as [->|Hne].
  - by rewrite lookup_delete_eq.
  - rewrite lookup_delete_ne by done. by apply Hex.
Qed.

(** A further change of the structure [this] already owns alone. *)
Lemma upd_then this a s w w1 w2 a1 s1 s' s'' :
  upd this a s w w1 a1 s1 s' →
  ptrs w2 = ptrs w1 → objs w2 = <[a1 := s'']> (objs w1) →
  next_pid w1 ≤ next_pid w2 → next_addr w1 ≤ next_addr w2 →
  next_node w1 ≤ next_node w2 → (faults w1 = [] → faults w2 = []) →
  fresh_node (next_node w2) s'' →
  upd this a s w w2 a1 s1 s''.
Proof.
  intros [Hp Ho ? ? ? ? ? ? ? ? ? ? ?] Hp2 Ho2 ? ? ? ? ?.
  split; try done; try lia; auto.
  - by rewrite Hp2.
  - by rewrite Ho2, Ho, insert_insert_eq.
Qed.

Lemma insert_effect_flag n k v s : non_const_refs_given (insert_effect n k v s) = false.
Proof. unfold insert_effect. by destruct (mappings s !! k). Qed.

Lemma insert_effect_lookup n k v s : is_Some (mappings (insert_effect n k v s) !! k).
Proof.
  unfold insert_effect. destruct (mappings s !! k); simpl; rewrite lookup_insert_eq; by eexists.
Qed.

Lemma insert_effect_nonempty n k v s :
  mappings s !! k = None → insertions (insert_effect n k v s) ≠ [].
Proof.
  intros Hm. unfold insert_effect. rewrite Hm. simpl. by destruct (insertions s).
Qed.

Lemma set_flag_id s : set_flag (non_const_refs_given s) s = s.
Proof. by destruct s. Qed.

Definition index_post (this : pid) (k : K) (a : addr) (s : map_structure)
    (w : world) (e : exn) (w' : world) : Prop :=
  e = injected_failure ∧ faults w ≠ []
  ∧ (same_store w w'
     ∨ ∃ a1 s1 n, fresh_node n s1
         ∧ upd this a s w w' a1 s1
             (match mappings s !! k with
              | Some _ => insert_effect n k V0 s1
              | None => set_flag false s1
              end)).

(** [operator[]] with a key that is an object of its own. *)
Lemma operator_index_value this k :
  operator_index this (KeyValue k)
  = (run may_throw;
     do insertion_result <- private_insert this k V0;
     catch_rethrow (at_ this k)
       (if insertion_result.2
        then run map_erase this insertion_result.1; list_pop_back this
        else ret tt)).
Proof. reflexivity. Qed.

Lemma operator_index_spec this k a s w :
  wf w → ptrs w !! this = Some a → objs w !! a = Some s →
  wp (operator_index this (KeyValue k)) w
     (λ r w', ∃ a1 s1 n,
        r = Ref a1 k ∧ fresh_node n s1
        ∧ upd this a s w w' a1 s1 (set_flag true (insert_effect n k V0 s1)))
     (index_post this k a s w).
Proof.
  intros Hw Hthis Ha. rewrite operator_index_value.
  apply wp_bind. apply wp_may_throw'; intros Hf0.
  2:{ split; [done|]. split; [by apply head_true_not_nil|]. left. apply same_store_pass. }
  pose proof (wf_pass w Hw) as Hw'.
  apply wp_bind.
  eapply wp_mono; [by apply (private_insert_spec this k V0 a s (pass w))| |].
  2:{ intros e w' (-> & Hf & Hs). split; [done|]. split; [by apply pass_not_nil|].
      left. by apply same_store_of_pass. }
  intros r w1 (a1 & s1 & n & -> & Hn & Hu%upd_of_pass). wsimpl.
  set (s_ins := insert_effect n k V0 s1) in *.
  assert (inv s_ins) as Hi_ins.
  { apply inv_insert_effect; [|done]. by eapply upd_base_inv. }
  pose proof (upd_wf _ _ _ _ _ _ _ _ Hw Hthis Hu Hi_ins) as Hw1.
  assert (Hthis1 : ptrs w1 !! this = Some a1).
  { by rewrite (upd_ptrs _ _ _ _ _ _ _ _ Hu), lookup_insert_eq. }
  assert (Ha1 : objs w1 !! a1 = Some s_ins).
  { by rewrite (upd_objs _ _ _ _ _ _ _ _ Hu), lookup_insert_eq. }
  assert (Hown : owners a1 (ptrs w1) = 1).
  { rewrite (upd_ptrs _ _ _ _ _ _ _ _ Hu). apply owners_excl.
    by eapply upd_excl. }
  assert (Hq1 : faults w1 ≠ [] → faults w ≠ []).
  { intros Hne Hnil. apply Hne. by eapply upd_quiet. }
  apply wp_catch.
  eapply wp_mono; [by apply (at_spec this k a1 s_ins w1)| |].
  - (* the reference is handed out *)
    intros r w2 (a2 & s2 & -> & _ & Hu2).
    assert (a2 = a1) as -> by (eapply upd_inplace; [done|lia]).
    destruct (upd_case _ _ _ _ _ _ _ _ Hu2) as [(_ & -> & _)|[_ ?]]; [|lia].
    exists a1, s1, n. split; [done|]. split; [done|].
    destruct Hu2 as [Hp2 Ho2 ? ? ? ? ? ? ? ? ? ? ?].
    eapply upd_then; eauto. rewrite Hp2. by apply insert_id.
  - (* [at] throws *)
    intros e w2 He. destruct e; simpl in He.
    + destruct He as [He _]. pose proof (insert_effect_lookup n k V0 s1) as [? Hl].
      unfold s_ins in He. by rewrite He in Hl.
    + done.
    + destruct He as [Hf2 [Hp2 Ho2 ? ? ? Hq2]].
      assert (Ho2' : objs w2 = objs w1).
      { destruct Ho2 as [|[Ho2 _]]; [done|]. rewrite Ho2.
        rewrite <- (insert_effect_flag n k V0 s1). fold s_ins.
        rewrite set_flag_id. by apply insert_id. }
      assert (Hfr2 : fresh_node (next_node w2) s_ins).
      { eapply fresh_node_mono; [by eapply upd_fresh|done]. }
      destruct (mappings s !! k) as [mv|] eqn:Hm.
      * rewrite bool_decide_eq_false_2 by done. simpl. apply wp_ret.
        split; [done|]. split; [auto|]. right.
        exists a1, s1, n. split; [done|]. rewrite Hm.
        eapply upd_then; eauto. rewrite Ho2'. symmetry. by apply insert_id.
      * rewrite bool_decide_eq_true_2 by done. simpl.
        assert (Hm1 : mappings s1 !! k = None).
        { pose proof (upd_base_map _ _ _ _ _ _ _ _ Hu k) as Hk. rewrite Hm in Hk.
          by destruct (mappings s1 !! k). }
        apply wp_bind.
        eapply wp_map_erase; [by rewrite Hp2|by rewrite Ho2'| |].
        { apply insert_effect_lookup. }
        eapply wp_list_pop_back; [wsimpl; by rewrite Hp2|wlook|..].
        { wsimpl. by apply insert_effect_nonempty. }
        wsimpl. rewrite insert_insert_eq.
        fold s_ins. unfold s_ins at 1 2 3. rewrite undo_fresh_insert by done.
        split; [done|]. split; [auto|]. right.
        exists a1, s1, n. split; [done|]. rewrite Hm.
        eapply upd_then; eauto; wsimpl; try done.
        -- by rewrite Ho2'.
        -- intros p Hp. apply Hfr2. unfold s_ins, insert_effect. rewrite Hm1.
           simpl. apply elem_of_app. by left.
Qed.

(** ** operator[] with a key read through a reference *)

(** The key behind the reference outlives a member of [this]: it is an
    object of its own, or it sits in a node that is there and that [this]
    cannot unlink for good, because the list is not one [this] holds
    alone. *)
Definition key_survives (this : pid) (kr : key_ref) (w : world) : Prop :=
  match kr with
  | KeyValue _ => True
  | KeyInNode b n =>
      (∃ s, objs w !! b = Some s ∧ is_Some (node_key n (insertions s)))
      ∧ (ptrs w !! this = Some b → 1 < owners b (ptrs w))
  end.

Lemma read_key_Val kr k w w' :
  read_key kr w = Val k w' →
  w' = w
  ∧ match kr with
    | KeyValue k0 => k0 = k
    | KeyInNode b n => ∃ s, objs w !! b = Some s ∧ node_key n (insertions s) = Some k
    end.
Proof.
  destruct kr as [k0|b n]; simpl.
  - by intros [= -> ->].
  - unfold bind, load. destruct (objs w !! b) as [s|]; [|done].
    destruct (node_key n (insertions s)) as [k0|] eqn:Hk; [|done].
    intros [= -> ->]. split; [done|]. by exists s.
Qed.

Lemma read_key_no_throw kr e w w' : read_key kr w ≠ Exc e w'.
Proof.
  destruct kr as [k0|b n]; simpl; [done|].
  unfold bind, load. destruct (objs w !! b) as [s|]; [|done].
  by destruct (node_key n (insertions s)).
Qed.

Lemma read_key_same kr k w w' :
  read_key kr w = Val k w →
  (∀ b n, kr = KeyInNode b n → objs w' !! b = objs w !! b) →
  read_key kr w' = Val k w'.
Proof.
  destruct kr as [k0|b n]; simpl.
  - by intros [= ->].
  - intros Hr Hfr. unfold bind, load in *. rewrite (Hfr b n eq_refl).
    destruct (objs w !! b) as [s|]; [|done].
    destruct (node_key n (insertions s)) as [k0|]; [|done].
    by injection Hr as ->.
Qed.

Lemma node_key_elem n k (l : list (node * K)) :
  node_key n l = Some k → (n, k) ∈ l.
Proof.
  induction l as [|p l IH]; [done|]. simpl.
  destruct (decide (p.1 = n)) as [<-|Hne].
  - intros [= <-]. destruct p. left.
  - intros Hk. right. by apply IH.
Qed.

Lemma node_key_removed n (l : list (node * K)) : node_key n (remove_node n l) = None.
Proof.
  unfold remove_node. induction l as [|p l IH]; [done|].
  destruct (decide (p.1 = n)) as [Heq|Hne].
  - by rewrite filter_cons_False by (intros Hn; by apply Hn).
  - rewrite filter_cons_True by done. simpl. by rewrite decide_False.
Qed.

Lemma may_throw_cases w :
  (head (faults w) ≠ Some true ∧ may_throw w = Val tt (pass w))
  ∨ (head (faults w) = Some true ∧ may_throw w = Exc injected_failure (pass w)).
Proof.
  unfold may_throw, pass. destruct w as [o p na nn np fs]. simpl.
  destruct fs as [|[] fs]; simpl; [left|right|left]; done.
Qed.

(** The steps of [operator[]], one after the other. *)
Lemma operator_index_run this kr w :
  operator_index this kr w
  = match may_throw w with
    | Val _ w0 =>
        match read_key kr w0 with
        | Val k w0' =>
            match private_insert this k V0 w0' with
            | Val insertion_result w1 =>
                match read_key kr w1 with
                | Val k' w1' =>
                    catch_rethrow (at_ this k')
                      (if insertion_result.2
                       then run map_erase this insertion_result.1; list_pop_back this
                       else ret tt) w1'
                | Exc e w1' => Exc e w1'
                | UB => UB
                end
            | Exc e w1 => Exc e w1
            | UB => UB
            end
        | Exc e w0' => Exc e w0'
        | UB => UB
        end
    | Exc e w0 => Exc e w0
    | UB => UB
    end.
Proof. reflexivity. Qed.

Lemma operator_index_value_run this k w :
  operator_index this (KeyValue k) w
  = match may_throw w with
    | Val _ w0 =>
        match private_insert this k V0 w0 with
        | Val insertion_result w1 =>
            catch_rethrow (at_ this k)
              (if insertion_result.2
               then run map_erase this insertion_result.1; list_pop_back this
               else ret tt) w1
        | Exc e w1 => Exc e w1
        | UB => UB
        end
    | Exc e w0 => Exc e w0
    | UB => UB
    end.
Proof. reflexivity. Qed.

(** A key that survives: the call is the call with the key as a value. *)
Lemma operator_index_survives this kr k w :
  wf w → is_Some (ptrs w !! this) →
  read_key kr w = Val k w → key_survives this kr w →
  operator_index this kr w = operator_index this (KeyValue k) w.
Proof.
  intros Hw [a Hthis] Hr Hs. destruct (wf_ptrs w Hw _ _ Hthis) as [s Ha].
  rewrite operator_index_value_run, operator_index_run.
  destruct (may_throw_cases w) as [[Hf ->]|[Hf ->]]; [|done].
  assert (Hr0 : read_key kr (pass w) = Val k (pass w)).
  { by apply (read_key_same kr k w). }
  rewrite Hr0.
  pose proof (private_insert_spec this k V0 a s (pass w) (wf_pass w Hw) Hthis Ha)
    as Hwp.
  unfold wp in Hwp.
  destruct (private_insert this k V0 (pass w)) as [ir w1|e w1|]; [|done..].
  destruct Hwp as (a1 & s1 & n & _ & _ & Hu).
  rewrite (read_key_same kr k (pass w) w1 Hr0); [done|].
  intros b m ->. rewrite (upd_objs _ _ _ _ _ _ _ _ Hu).
  destruct Hs as [(sb & Hb & _) Hsh].
  apply lookup_insert_ne. intros <-.
  destruct (upd_case _ _ _ _ _ _ _ _ Hu) as [(-> & _ & Hle)|[-> _]].
  - specialize (Hsh Hthis). change (ptrs (pass w)) with (ptrs w) in Hle. lia.
  - change (next_addr (pass w)) with (next_addr w) in Hb.
    by rewrite (wf_fresh_addr w Hw) in Hb.
Qed.

(** A key in a node of the list [this] holds alone: [private_insert]
    unlinks the node, and [at(k)] reads the key that was in it. *)
Lemma operator_index_own_key this a n k w :
  wf w → ptrs w !! this = Some a → owners a (ptrs w) ≤ 1 →
  read_key (KeyInNode a n) w = Val k w →
  match operator_index this (KeyInNode a n) w with
  | Val _ _ => False
  | Exc e w' => e = injected_failure ∧ faults w ≠ [] ∧ same_store w w'
  | UB => True
  end.
Proof.
  intros Hw Hthis Hown Hr.
  destruct (read_key_Val _ _ _ _ Hr) as (_ & s & Ha & Hnk).
  assert (inv s) as Hi by by eapply wf_inv.
  apply node_key_elem in Hnk.
  destruct (inv_list_map s Hi _ _ Hnk) as (mv & Hm & Hiter).
  rewrite operator_index_run.
  destruct (may_throw_cases w) as [[Hf ->]|[Hf ->]].
  2:{ split; [done|]. split; [by apply head_true_not_nil|apply same_store_pass]. }
  assert (Hr0 : read_key (KeyInNode a n) (pass w) = Val k (pass w)).
  { by apply (read_key_same _ k w). }
  rewrite Hr0.
  pose proof (private_insert_spec this k V0 a s (pass w) (wf_pass w Hw) Hthis Ha)
    as Hwp.
  unfold wp in Hwp.
  destruct (private_insert this k V0 (pass w)) as [ir w1|e w1|]; [| |done].
  2:{ destruct Hwp as (-> & Hne & Hss). split; [done|].
      split; [by apply pass_not_nil|by apply same_store_of_pass]. }
  destruct Hwp as (a1 & s1 & n' & _ & _ & Hu).
  destruct (upd_case _ _ _ _ _ _ _ _ Hu) as [(-> & -> & _)|[_ Hlt]].
  2:{ change (ptrs (pass w)) with (ptrs w) in Hlt. lia. }
  simpl read_key. unfold bind, load.
  rewrite (upd_objs _ _ _ _ _ _ _ _ Hu), lookup_insert_eq.
  unfold insert_effect. rewrite Hm. simpl. rewrite Hiter.
  by rewrite node_key_removed.
Qed.

(** Whatever the reference: the call with the key as a value, or no
    result at all. *)
Lemma operator_index_ref this kr w :
  wf w → is_Some (ptrs w !! this) →
  (∃ k, read_key kr w = Val k w ∧ key_survives this kr w
        ∧ operator_index this kr w = operator_index this (KeyValue k) w)
  ∨ (¬ key_survives this kr w
     ∧ match operator_index this kr w with
       | Val _ _ => False
       | Exc e w' => e = injected_failure ∧ faults w ≠ [] ∧ same_store w w'
       | UB => True
       end).
Proof.
  intros Hw Hlive. destruct (read_key kr w) as [k w'|e w'|] eqn:Hr.
  - destruct (read_key_Val _ _ _ _ Hr) as [-> Hk].
    destruct kr as [k0|b n].
    { left. exists k. split; [done|]. split; [done|].
      by apply operator_index_survives. }
    destruct Hk as (s & Hb & Hnk).
    destruct (decide (ptrs w !! this = Some b)) as [Hthis|Hthis].
    + destruct (decide (1 < owners b (ptrs w))) as [Hsh|Hex].
      * left. exists k. split; [done|].
        assert (key_survives this (KeyInNode b n) w) as Hs.
        { split; [exists s; split; [done|by eexists]|done]. }
        split; [done|]. by apply operator_index_survives.
      * right. split; [intros [_ Hs]; by apply Hex, Hs|].
        apply (operator_index_own_key this b n k); [done|done|lia|done].
    + left. exists k. split; [done|].
      assert (key_survives this (KeyInNode b n) w) as Hs.
      { split; [exists s; split; [done|by eexists]|done]. }
      split; [done|]. by apply operator_index_survives.
  - by destruct (read_key_no_throw kr e w w').
  - right. split.
    + destruct kr as [k0|b n]; [done|]. simpl in Hr. unfold bind, load in Hr.
      intros [(s & Hb & [k Hk]) _]. by rewrite Hb, Hk in Hr.
    + rewrite operator_index_run.
      destruct (may_throw_cases w) as [[Hf ->]|[Hf ->]].
      * assert (Hr0 : read_key kr (pass w) = UB).
        { destruct kr as [k0|b n]; [done|]. simpl in *. unfold bind, load in *.
          change (objs (pass w)) with (objs w).
          destruct (objs w !! b) as [s|]; [|done].
          by destruct (node_key n (insertions s)). }
        by rewrite Hr0.
      * split; [done|]. split; [by apply head_true_not_nil|apply same_store_pass].
Qed.

(** ** Preservation of well-formedness by single steps *)

Lemma wf_reclaim c w : wf w → wf (reclaim c w).
Proof.
  intros Hw. unfold reclaim. destruct (decide (owners c (ptrs w) = 0)) as [H0|]; [|done].
  split; wsimpl.
  - intros x b Hb. rewrite lookup_delete_ne; [by eapply wf_ptrs|].
    intros <-. by eapply owners_zero.
  - intros b t [_ Hb]%lookup_delete_Some. by eapply wf_inv.
  - intros b t [_ Hb]%lookup_delete_Some. by eapply wf_nodes.
  - intros b [t [_ Hb]%lookup_delete_Some]. apply Hw. by eexists.
  - apply Hw.
Qed.

Lemma wf_ptr_delete x w : wf w → wf (set_ptrs (delete x (ptrs w)) w).
Proof.
  intros Hw. split; wsimpl; try apply Hw.
  - intros y b [_ Hb]%lookup_delete_Some. by eapply wf_ptrs.
  - intros y [b [_ Hb]%lookup_delete_Some]. apply Hw. by eexists.
Qed.

Lemma wf_ptr_set x b w :
  wf w → is_Some (objs w !! b) → x < next_pid w →
  wf (set_ptrs (<[x := b]> (ptrs w)) w).
Proof.
  intros Hw Hb Hx. split; wsimpl; try apply Hw.
  - intros y c. destruct (decide (y = x)) as [->|Hne].
    + rewrite lookup_insert_eq. by intros [= <-].
    + rewrite lookup_insert_ne by done. apply Hw.
  - intros y. destruct (decide (y = x)) as [->|Hne]; [done|].
    rewrite lookup_insert_ne by done. apply Hw.
Qed.

Lemma wf_ptr_new b w :
  wf w → is_Some (objs w !! b) →
  wf (set_next_pid (S (next_pid w)) (set_ptrs (<[next_pid w := b]> (ptrs w)) w)).
Proof.
  intros Hw Hb. split; wsimpl; try apply Hw.
  - intros y c. destruct (decide (y = next_pid w)) as [->|Hne].
    + rewrite lookup_insert_eq. by intros [= <-].
    + rewrite lookup_insert_ne by done. apply Hw.
  - intros y. destruct (decide (y = next_pid w)) as [->|Hne]; [lia|].
    rewrite lookup_insert_ne by done. intros Hy%(wf_pids w Hw). lia.
Qed.

Lemma wf_store c t w :
  wf w → is_Some (objs w !! c) → inv t → fresh_node (next_node w) t →
  wf (set_objs (<[c := t]> (objs w)) w).
Proof.
  intros Hw Hc Hi Hfr. split; wsimpl; try apply Hw.
  - intros x b Hb%(wf_ptrs w Hw). destruct (decide (b = c)) as [->|Hne].
    + rewrite lookup_insert_eq. by eexists.
    + by rewrite lookup_insert_ne.
  - intros b t'. destruct (decide (b = c)) as [->|Hne].
    + rewrite lookup_insert_eq. by intros [= <-].
    + rewrite lookup_insert_ne by done. apply Hw.
  - intros b t'. destruct (decide (b = c)) as [->|Hne].
    + rewrite lookup_insert_eq. by intros [= <-].
    + rewrite lookup_insert_ne by done. apply Hw.
  - intros b. destruct (decide (b = c)) as [->|Hne].
    + intros _. by apply Hw.
    + rewrite lookup_insert_ne by done. apply Hw.
Qed.

Lemma wf_alloc t w :
  wf w → inv t → fresh_node (next_node w) t →
  wf (set_next_addr (S (next_addr w)) (set_objs (<[next_addr w := t]> (objs w)) w)).
Proof.
  intros Hw Hi Hfr. split; wsimpl; try apply Hw.
  - intros x b Hb%(wf_ptrs w Hw). destruct (decide (b = next_addr w)) as [->|Hne].
    + rewrite lookup_insert_eq. by eexists.
    + by rewrite lookup_insert_ne.
  - intros b t'. destruct (decide (b = next_addr w)) as [->|Hne].
    + rewrite lookup_insert_eq. by intros [= <-].
    + rewrite lookup_insert_ne by done. apply Hw.
  - intros b t'. destruct (decide (b = next_addr w)) as [->|Hne].
    + rewrite lookup_insert_eq. by intros [= <-].
    + rewrite lookup_insert_ne by done. apply Hw.
  - intros b. destruct (decide (b = next_addr w)) as [->|Hne]; [lia|].
    rewrite lookup_insert_ne by done. intros Hb%(wf_addr w Hw). lia.
Qed.

Lemma wf_nodes_bump n w : wf w → wf (set_next_node (n + next_node w) w).
Proof.
  intros Hw. split; wsimpl; try apply Hw.
  intros b t Hb. eapply fresh_node_mono; [by eapply wf_nodes|lia].
Qed.

(** ** merge *)

(** The allocators did not go back. *)
Definition grows (w w' : world) : Prop :=
  next_addr w ≤ next_addr w' ∧ next_node w ≤ next_node w' ∧ next_pid w ≤ next_pid w'.

Lemma grows_refl w : grows w w.
Proof. by repeat split. Qed.

Lemma grows_trans w1 w2 w3 : grows w1 w2 → grows w2 w3 → grows w1 w3.
Proof. unfold grows. lia. Qed.

Lemma same_store_grows w w' : same_store w w' → grows w w'.
Proof. intros []. by repeat split. Qed.

Lemma upd_grows this a s w w' a1 s1 s' : upd this a s w w' a1 s1 s' → grows w w'.
Proof. intros []. by repeat split. Qed.

Lemma owners_alone this a1 (p : gmap pid addr) :
  p !! this = Some a1 → (∀ y, y ≠ this → p !! y ≠ Some a1) → owners a1 p = 1.
Proof.
  intros Hthis Hex. rewrite <- (insert_id p this a1) by done. by apply owners_excl.
Qed.

Lemma spec_merge_cons l k v rest :
  spec_merge l ((k, v) :: rest) = spec_merge (spec_insert l k v) rest.
Proof. done. Qed.

Section merge_loop.
Context (this other : pid) (na b : addr) (P : gmap pid addr)
  (o : gmap addr map_structure) (so : map_structure)
  (Hne : other ≠ this) (HPthis : P !! this = Some na) (HPother : P !! other = Some b)
  (Hob : o !! b = Some so) (Hbna : b ≠ na)
  (Hexcl : ∀ y, y ≠ this → P !! y ≠ Some na).

(** The states between two turns of the loop: [this] alone holds the
    structure [s] at [na]; everything else is as it was. *)
Record loop_state (w : world) (s : map_structure) : Prop := LoopState {
  ls_wf : wf w;
  ls_ptrs : ptrs w = P;
  ls_objs : objs w = <[na := s]> o }.

Lemma loop_state_same w w' s : loop_state w s → same_store w w' → loop_state w' s.
Proof.
  intros [Hw Hp Ho] Hs. split.
  - by eapply same_store_wf.
  - by rewrite (same_ptrs _ _ Hs).
  - by rewrite (same_objs _ _ Hs).
Qed.

Lemma merge_loop_spec ks w s :
  loop_state w s → (∀ k, k ∈ ks → is_Some (mappings so !! k)) →
  wp (merge_loop this other ks) w
     (λ _ w', ∃ s', loop_state w' s'
        ∧ items s' = spec_merge (items s)
                       (omap (λ k, (λ mv, (k, value mv)) <$> mappings so !! k) ks)
        ∧ grows w w' ∧ (faults w = [] → faults w' = []))
     (λ e w', e = injected_failure ∧ faults w ≠ []
        ∧ ∃ s', loop_state w' s' ∧ grows w w').
Proof.
  revert w s. induction ks as [|k ks IH]; intros w s Hls Hall.
  { apply wp_ret. exists s. split; [done|]. split; [done|]. split; [apply grows_refl|done]. }
  pose proof Hls as [Hw Hp Ho].
  destruct (Hall k) as [mv Hmv]; [left|].
  simpl merge_loop. apply wp_bind. apply wp_may_throw'; intros Hf0.
  2:{ split; [done|]. split; [by apply head_true_not_nil|]. exists s. split.
      - eapply loop_state_same; [done|apply same_store_pass].
      - apply same_store_grows, same_store_pass. }
  apply wp_bind.
  eapply wp_mono; [apply (at_const_spec other k b so (pass w))|..].
  { wsimpl. by rewrite Hp. }
  { wsimpl. rewrite Ho. by rewrite lookup_insert_ne. }
  2:{ intros e w1 He. destruct e; simpl in He.
      - destruct He as [He _]. by rewrite He in Hmv.
      - done.
      - destruct He as [Hf1 Hs%only_faults_same].
        split; [done|]. split; [by apply pass_not_nil|]. exists s.
        apply same_store_of_pass in Hs. split.
        + by eapply loop_state_same.
        + by apply same_store_grows. }
  intros v w1 [(mv' & Hmv' & ->) Hs%only_faults_same%same_store_of_pass].
  rewrite Hmv in Hmv'. injection Hmv' as <-.
  pose proof (loop_state_same _ _ _ Hls Hs) as [Hw1 Hp1 Ho1].
  assert (Hthis1 : ptrs w1 !! this = Some na) by by rewrite Hp1.
  assert (Ha1 : objs w1 !! na = Some s) by by rewrite Ho1, lookup_insert_eq.
  apply wp_bind.
  eapply wp_mono; [by apply (insert_spec this k (value mv) na s w1)|..].
  2:{ intros e w2 (-> & Hf2 & Hs2). split; [done|]. split.
      - intros Hnil. apply Hf2. by apply (same_quiet _ _ Hs).
      - exists s. split.
        + eapply loop_state_same; [|done]. by split.
        + eapply grows_trans; by apply same_store_grows. }
  intros r w2 (a1 & s1 & n & -> & Hn & Hu).
  assert (a1 = na) as ->.
  { eapply upd_inplace; [done|]. rewrite Hp1. by rewrite (owners_alone this). }
  destruct (upd_case _ _ _ _ _ _ _ _ Hu) as [(_ & -> & _)|[_ Hlt]].
  2:{ rewrite Hp1, (owners_alone this) in Hlt by done. lia. }
  assert (inv s) as Hi by by eapply wf_inv.
  assert (Hls2 : loop_state w2 (insert_effect n k (value mv) s)).
  { split.
    - eapply upd_wf; eauto. by apply inv_insert_effect.
    - rewrite (upd_ptrs _ _ _ _ _ _ _ _ Hu), Hp1. by apply insert_id.
    - by rewrite (upd_objs _ _ _ _ _ _ _ _ Hu), Ho1, insert_insert_eq. }
  eapply wp_mono; [apply (IH _ _ Hls2)|..].
  { intros k' Hk'. apply Hall. by right. }
  - intros _ w3 (s' & Hls3 & Hit & Hg & Hq). exists s'. split; [done|].
    split; [|split].
    + csimpl. rewrite Hmv. csimpl.
      rewrite Hit. by rewrite items_insert_effect.
    + eapply grows_trans; [by apply same_store_grows|].
      eapply grows_trans; [by eapply upd_grows|done].
    + intros Hnil. apply Hq. eapply upd_quiet; [done|]. by apply (same_quiet _ _ Hs).
  - intros e w3 (-> & Hf3 & s' & Hls3 & Hg). split; [done|]. split.
    + intros Hnil. apply Hf3. eapply upd_quiet; [done|]. by apply (same_quiet _ _ Hs).
    + exists s'. split; [done|].
      eapply grows_trans; [by apply same_store_grows|].
      eapply grows_trans; [by eapply upd_grows|done].
Qed.
End merge_loop.

Ltac wf_step :=
  match goal with
  | |- wf (set_ptrs (delete ?x _) ?X) => apply (wf_ptr_delete x X)
  | |- wf (set_ptrs (<[?x := ?b]> _) ?X) => apply (wf_ptr_set x b X)
  | |- wf (set_next_pid _ (set_ptrs (<[_ := ?b]> _) ?X)) => apply (wf_ptr_new b X)
  | |- wf (set_next_addr _ (set_objs (<[_ := ?t]> _) ?X)) => apply (wf_alloc t X)
  | |- wf (set_objs (<[?c := ?t]> _) ?X) => apply (wf_store c t X)
  | |- wf (set_next_node _ ?X) => apply (wf_nodes_bump _ X)
  | |- wf (pass ?X) => apply (wf_pass X)
  | |- wf (reclaim ?c ?X) => apply (wf_reclaim c X)
  end.

Lemma ptrs_reclaim c w : ptrs (reclaim c w) = ptrs w.
Proof. unfold reclaim. by destruct (decide _). Qed.

Lemma next_reclaim c w :
  next_addr (reclaim c w) = next_addr w ∧ next_node (reclaim c w) = next_node w
  ∧ next_pid (reclaim c w) = next_pid w ∧ faults (reclaim c w) = faults w.
Proof. unfold reclaim. by destruct (decide _). Qed.

Lemma faults_reclaim c w : faults (reclaim c w) = faults w.
Proof. apply next_reclaim. Qed.

Lemma grows_reclaim c w w' : grows w w' → grows w (reclaim c w').
Proof.
  unfold grows. destruct (next_reclaim c w') as (-> & -> & -> & _). done.
Qed.

Lemma objs_reclaim_other c w x b :
  ptrs w !! x = Some b → objs (reclaim c w) !! b = objs w !! b.
Proof.
  intros Hx. unfold reclaim. destruct (decide _) as [H0|]; [|done].
  wsimpl. rewrite lookup_delete_ne; [done|]. intros <-. by eapply owners_zero.
Qed.

(** The effect of a mutating member seen from outside: [this] now holds
    [a'], whose structure is [s'] and which nobody else holds; whatever the
    other pointers lead to is untouched. *)
Record changed (this : pid) (w w' : world) (a' : addr) (s' : map_structure) : Prop :=
  Changed {
    ch_wf : wf w';
    ch_ptrs : ptrs w' = <[this := a']> (ptrs w);
    ch_obj : objs w' !! a' = Some s';
    ch_frame : ∀ y c, y ≠ this → ptrs w !! y = Some c → objs w' !! c = objs w !! c;
    ch_excl : ∀ y, y ≠ this → ptrs w !! y ≠ Some a';
    ch_grows : grows w w';
    ch_quiet : faults w = [] → faults w' = [] }.

Lemma upd_changed this a s w w' a1 s1 s' :
  wf w → ptrs w !! this = Some a → upd this a s w w' a1 s1 s' → inv s' →
  changed this w w' a1 s'.
Proof.
  intros Hw Hthis Hu Hi. split.
  - by eapply upd_wf.
  - by eapply upd_ptrs.
  - by rewrite (upd_objs _ _ _ _ _ _ _ _ Hu), lookup_insert_eq.
  - intros y c Hy Hc. by eapply upd_frame.
  - by eapply upd_excl.
  - by eapply upd_grows.
  - by eapply upd_quiet.
Qed.

Lemma merge_self this w : merge this this w = Val tt w.
Proof. unfold merge. by rewrite decide_True. Qed.

Lemma merge_spec this other a s b so w :
  wf w → other ≠ this →
  ptrs w !! this = Some a → objs w !! a = Some s →
  ptrs w !! other = Some b → objs w !! b = Some so →
  wp (merge this other) w
     (λ _ w', ∃ s', changed this w w' (next_addr w) s'
        ∧ items s' = spec_merge (items s) (items so)
        ∧ non_const_refs_given s' = false)
     (λ e w', e = injected_failure ∧ faults w ≠ [] ∧ same_store w w').
Proof.
  intros Hw Hne Hthis Ha Hother Hb.
  pose proof (wf_fresh_pid w Hw) as Hnp.
  pose proof (wf_fresh_addr w Hw) as Hna.
  assert (this ≠ next_pid w) as Hne1 by congruence.
  assert (other ≠ next_pid w) as Hne2 by congruence.
  assert (inv s) as Hi by by eapply wf_inv.
  assert (inv so) as Hio by by eapply wf_inv.
  pose proof (wf_nodes w Hw a s Ha) as Hfr.
  assert (a ≠ next_addr w) as Hane by congruence.
  assert (b ≠ next_addr w) as Hbne by congruence.
  unfold merge. rewrite decide_False by done.
  apply wp_bind. eapply wp_sp_copy; [done|].
  set (w0 := set_next_pid _ _).
  assert (Hw0 : wf w0) by (apply wf_ptr_new; [done|by eexists]).
  apply wp_scope. apply wp_bind. apply wp_catch. apply wp_bind. unfold copy.
  apply wp_bind. eapply wp_sp_get; [subst w0; wsimpl; by rewrite lookup_insert_ne|].
  apply wp_bind. eapply wp_load; [done|].
  apply wp_bind. unfold make_shared_copy.
  apply wp_bind. apply wp_may_throw'; intros Hf0.
  - (* the copy is made *)
    apply wp_bind. apply wp_alloc_nodes. apply wp_alloc_obj.
    eapply wp_sp_set; [subst w0; wsimpl; by rewrite lookup_insert_ne|].
    rewrite reclaim_keep.
    2:{ subst w0. wsimpl. apply (owners_pos _ (next_pid w)).
        rewrite lookup_insert_ne by done. by rewrite lookup_insert_eq. }
    set (wc := set_ptrs _ _).
    set (P := <[this := next_addr w]> (<[next_pid w := a]> (ptrs w))).
    set (cp := map_structure_copy (next_node w) s).
    assert (Hlsc : loop_state (next_addr w) P (objs w) wc cp).
    { split; [|done|done]. subst wc. wf_step; [wf_step; [wf_step; wf_step; done|..]|..].
      - by apply inv_copy.
      - apply fresh_copy.
      - wsimpl. rewrite lookup_insert_eq. by eexists.
      - subst w0. wsimpl. assert (this < next_pid w); [|lia]. apply Hw. by eexists. }
    assert (HPthis : P !! this = Some (next_addr w)) by apply lookup_insert_eq.
    assert (HPother : P !! other = Some b).
    { subst P. by rewrite !lookup_insert_ne by done. }
    assert (HPold : P !! next_pid w = Some a).
    { subst P. rewrite lookup_insert_ne by done. apply lookup_insert_eq. }
    assert (Hexcl : ∀ y, y ≠ this → P !! y ≠ Some (next_addr w)).
    { intros y Hy. subst P. rewrite lookup_insert_ne by done.
      destruct (decide (y = next_pid w)) as [->|Hy'].
      - rewrite lookup_insert_eq. congruence.
      - rewrite lookup_insert_ne by done. by apply wf_fresh_addr_ptr. }
    assert (Hqc : faults w = [] → faults wc = []).
    { subst wc w0. wsimpl. by intros ->. }
    assert (Hgc : grows w wc).
    { subst wc w0. unfold grows. wsimpl. lia. }
    apply wp_bind. eapply wp_sp_get; [apply HPother|].
    apply wp_bind. eapply wp_load.
    { subst wc. wsimpl. by rewrite lookup_insert_ne. }
    eapply wp_mono;
      [apply (merge_loop_spec this other (next_addr w) b P (objs w) so); eauto|..].
    { intros k Hk. by apply inv_key_in_list. }
    + (* the loop ends *)
      intros _ wl (sl & [Hwl Hpl Hol] & Hit & Hgl & Hql).
      assert (Hal : objs wl !! next_addr w = Some sl) by by rewrite Hol, lookup_insert_eq.
      eapply wp_write_flag; [by rewrite Hpl|done|].
      eapply wp_sp_destroy; [wsimpl; by rewrite Hpl|]. wsimpl.
      assert (Hisl : inv sl) by by eapply wf_inv.
      assert (Hwf' : wf (set_ptrs (delete (next_pid w) (ptrs wl))
                 (set_objs (<[next_addr w := set_flag false sl]> (objs wl)) wl))).
      { apply (wf_ptr_delete _ (set_objs (<[next_addr w := set_flag false sl]> (objs wl)) wl)).
        apply wf_store; [done|by eexists|by apply inv_set_flag|].
        by apply (wf_nodes wl Hwl (next_addr w) sl). }
      assert (HP' : delete (next_pid w) (ptrs wl) = <[this := next_addr w]> (ptrs w)).
      { rewrite Hpl. subst P. rewrite delete_insert_ne by done.
        by rewrite delete_insert_eq, delete_id. }
      exists (set_flag false sl). split; [|split; [|done]].
      * split.
        -- by apply wf_reclaim.
        -- by rewrite ptrs_reclaim.
        -- rewrite (objs_reclaim_other _ _ this); wsimpl.
           ++ by rewrite lookup_insert_eq.
           ++ by rewrite HP', lookup_insert_eq.
        -- intros y c Hy Hc.
           rewrite (objs_reclaim_other _ _ y); wsimpl.
           ++ rewrite Hol, insert_insert_eq, lookup_insert_ne; [done|].
              intros Heq. apply (wf_fresh_addr_ptr w y Hw). by rewrite Heq.
           ++ rewrite HP'. by rewrite lookup_insert_ne.
        -- intros y Hy. by apply wf_fresh_addr_ptr.
        -- apply grows_reclaim. by eapply grows_trans.
        -- rewrite faults_reclaim. wsimpl. auto.
      * rewrite <- (items_copy (next_node w) s) by done. fold cp.
        change (items (set_flag false sl)) with (items sl). rewrite Hit. done.
    + (* an insertion throws: the copy is dropped *)
      intros e we (-> & Hfe & se & [Hwe Hpe Hoe] & Hge).
      eapply wp_sp_assign; [by rewrite Hpe|by rewrite Hpe|].
      rewrite reclaim_free.
      2:{ wsimpl. rewrite Hpe. apply owners_zero_intro. intros y.
          destruct (decide (y = this)) as [->|Hy].
          - rewrite lookup_insert_eq. congruence.
          - rewrite lookup_insert_ne by done. by apply Hexcl. }
      wsimpl.
      eapply wp_sp_destroy.
      { wsimpl. rewrite Hpe, lookup_insert_ne by done. apply HPold. }
      rewrite reclaim_keep.
      2:{ wsimpl. apply (owners_pos _ this). rewrite lookup_delete_ne by done.
          apply lookup_insert_eq. }
      split; [done|]. split.
      { intros Hnil. apply Hfe. auto. }
      split; wsimpl.
      * by rewrite Hoe, delete_insert_eq, delete_id.
      * rewrite Hpe. subst P. rewrite insert_insert_eq.
        rewrite delete_insert_ne by done.
        by rewrite delete_insert_eq, delete_id, insert_id.
      * destruct Hgc, Hge. lia.
      * destruct Hgc, Hge. lia.
      * destruct Hgc, Hge. lia.
      * intros Hnil. by destruct Hfe; auto.
  - (* the copy cannot be made *)
    eapply wp_sp_assign.
    { subst w0. wsimpl. apply lookup_insert_eq. }
    { subst w0. wsimpl. by rewrite lookup_insert_ne. }
    rewrite reclaim_keep.
    2:{ subst w0. wsimpl. apply (owners_pos _ this). apply lookup_insert_eq. }
    eapply wp_sp_destroy.
    { subst w0. wsimpl. rewrite lookup_insert_ne by done. apply lookup_insert_eq. }
    rewrite reclaim_keep.
    2:{ subst w0. wsimpl. apply (owners_pos _ this). rewrite lookup_delete_ne by done.
        apply lookup_insert_eq. }
    split; [done|]. split.
    { subst w0. wsimpl. by apply head_true_not_nil. }
    subst w0. split; wsimpl; try done; try lia.
    + rewrite delete_insert_ne by done.
      by rewrite delete_insert_eq, delete_id, insert_id.
    + by intros ->.
Qed.

(** ** Constructors, destructor, assignment *)

Lemma construct_spec w :
  wf w →
  wp construct w
     (λ x w', x = next_pid w ∧ wf w'
        ∧ ptrs w' = <[x := next_addr w]> (ptrs w)
        ∧ objs w' = <[next_addr w := map_structure_default]> (objs w)
        ∧ grows w w' ∧ (faults w = [] → faults w' = []))
     (λ e w', e = injected_failure ∧ faults w ≠ [] ∧ same_store w w').
Proof.
  intros Hw. unfold construct, make_shared_default.
  apply wp_bind. apply wp_bind. apply wp_may_throw'; intros Hf0.
  2:{ split; [done|]. split; [by apply head_true_not_nil|apply same_store_pass]. }
  apply wp_alloc_obj. apply wp_sp_new. split; [done|]. split.
  { wf_step; [wf_step; [by wf_step|apply inv_default|by intros p ?%elem_of_nil]|].
    wsimpl. rewrite lookup_insert_eq. by eexists. }
  wsimpl. split; [done|]. split; [done|]. split.
  - unfold grows. wsimpl. lia.
  - by intros ->.
Qed.

(** A new container [x] holding [a'], whose structure is [s']. *)
Record born (x : pid) (w w' : world) (a' : addr) (s' : map_structure) : Prop := Born {
  born_wf : wf w';
  born_ptrs : ptrs w' = <[x := a']> (ptrs w);
  born_obj : objs w' !! a' = Some s';
  born_frame : ∀ y c, ptrs w !! y = Some c → objs w' !! c = objs w !! c;
  born_grows : grows w w';
  born_quiet : faults w = [] → faults w' = [] }.

Lemma copy_construct_spec other b so w :
  wf w → ptrs w !! other = Some b → objs w !! b = Some so →
  wp (copy_construct other) w
     (λ x w', x = next_pid w ∧ ∃ a' s',
        born x w w' a' s' ∧ items s' = items so
        ∧ non_const_refs_given s' = false
        ∧ (if non_const_refs_given so then a' = next_addr w else a' = b))
     (λ e w', e = injected_failure ∧ faults w ≠ [] ∧ same_store w w').
Proof.
  intros Hw Hother Hb.
  pose proof (wf_fresh_pid w Hw) as Hnp.
  pose proof (wf_fresh_addr w Hw) as Hna.
  assert (other ≠ next_pid w) as Hne by congruence.
  assert (inv so) as Hio by by eapply wf_inv.
  assert (b ≠ next_addr w) as Hbne by congruence.
  unfold copy_construct.
  apply wp_bind. eapply wp_sp_copy; [done|].
  set (w0 := set_next_pid _ _).
  assert (Hw0 : wf w0) by (apply wf_ptr_new; [done|by eexists]).
  apply wp_bind. eapply wp_sp_get; [subst w0; wsimpl; apply lookup_insert_eq|].
  apply wp_bind. eapply wp_load; [done|].
  apply wp_bind. destruct (non_const_refs_given so) eqn:Hflag.
  - apply wp_catch. unfold copy.
    apply wp_bind. eapply wp_sp_get; [subst w0; wsimpl; apply lookup_insert_eq|].
    apply wp_bind. eapply wp_load; [done|].
    apply wp_bind. unfold make_shared_copy.
    apply wp_bind. apply wp_may_throw'; intros Hf0.
    + apply wp_bind. apply wp_alloc_nodes. apply wp_alloc_obj.
      eapply wp_sp_set; [subst w0; wsimpl; apply lookup_insert_eq|].
      rewrite reclaim_keep.
      2:{ subst w0. wsimpl. apply (owners_pos _ other).
          by rewrite !lookup_insert_ne by done. }
      apply wp_ret. split; [done|].
      exists (next_addr w), (map_structure_copy (next_node w) so).
      split; [|split; [by apply items_copy|done]].
      split.
      * wf_step; [wf_step; [wf_step; wf_step; done|..]|..].
        -- by apply inv_copy.
        -- apply fresh_copy.
        -- wsimpl. rewrite lookup_insert_eq. by eexists.
        -- subst w0. wsimpl. lia.
      * subst w0. wsimpl. by rewrite insert_insert_eq.
      * subst w0. wsimpl. by rewrite lookup_insert_eq.
      * intros y c Hc. subst w0. wsimpl. rewrite lookup_insert_ne; [done|].
        intros Heq. apply (wf_fresh_addr_ptr w y Hw). by rewrite Heq.
      * subst w0. unfold grows. wsimpl. lia.
      * subst w0. wsimpl. by intros ->.
    + eapply wp_sp_destroy; [subst w0; wsimpl; apply lookup_insert_eq|].
      rewrite reclaim_keep.
      2:{ subst w0. wsimpl. apply (owners_pos _ other).
          by rewrite lookup_delete_ne, lookup_insert_ne. }
      split; [done|]. split; [subst w0; wsimpl; by apply head_true_not_nil|].
      subst w0. split; wsimpl; try done; try lia.
      * by rewrite delete_insert_eq, delete_id.
      * by intros ->.
  - apply wp_ret. apply wp_ret. split; [done|]. exists b, so.
    split; [|split; [done|by split]].
    subst w0. split; wsimpl; try done.
    unfold grows. wsimpl. lia.
Qed.

Lemma destroy_spec this a w :
  wf w → ptrs w !! this = Some a →
  wp (destroy this) w
     (λ _ w', wf w' ∧ ptrs w' = delete this (ptrs w)
        ∧ (∀ y c, y ≠ this → ptrs w !! y = Some c → objs w' !! c = objs w !! c)
        ∧ grows w w' ∧ (faults w = [] → faults w' = []))
     (λ _ _, False).
Proof.
  intros Hw Hthis. unfold destroy. eapply wp_sp_destroy; [done|].
  split; [by wf_step; wf_step|]. rewrite ptrs_reclaim. split; [done|]. split.
  - intros y c Hy Hc. rewrite (objs_reclaim_other _ _ y); [done|].
    wsimpl. by rewrite lookup_delete_ne.
  - split; [apply grows_reclaim; by unfold grows|]. by rewrite faults_reclaim.
Qed.

Lemma move_construct_spec other b so w :
  wf w → ptrs w !! other = Some b → objs w !! b = Some so →
  wp (move_construct other) w
     (λ x w', x = next_pid w ∧ wf w'
        ∧ ptrs w' = <[other := next_addr w]> (<[x := b]> (ptrs w))
        ∧ objs w' = <[next_addr w := map_structure_default]> (objs w)
        ∧ grows w w' ∧ (faults w = [] → faults w' = []))
     (λ e w', e = injected_failure ∧ faults w ≠ [] ∧ same_store w w').
Proof.
  intros Hw Hother Hb.
  pose proof (wf_fresh_pid w Hw) as Hnp.
  assert (other ≠ next_pid w) as Hne by congruence.
  unfold move_construct.
  apply wp_bind. eapply wp_sp_copy; [done|].
  set (w0 := set_next_pid _ _).
  assert (Hw0 : wf w0) by (apply wf_ptr_new; [done|by eexists]).
  apply wp_bind. apply wp_catch. apply wp_bind. unfold make_shared_default.
  apply wp_bind. apply wp_may_throw'; intros Hf0.
  - apply wp_alloc_obj.
    eapply wp_sp_set; [subst w0; wsimpl; by rewrite lookup_insert_ne|].
    rewrite reclaim_keep.
    2:{ subst w0. wsimpl. apply (owners_pos _ (next_pid w)).
        rewrite lookup_insert_ne by done. apply lookup_insert_eq. }
    apply wp_ret. split; [done|]. split.
    { wf_step; [wf_step; [by wf_step|apply inv_default|by intros p ?%elem_of_nil]|..].
      - wsimpl. rewrite lookup_insert_eq. by eexists.
      - subst w0. wsimpl. assert (other < next_pid w); [|lia]. apply Hw. by eexists. }
    subst w0. wsimpl. split; [done|]. split; [done|]. split.
    + unfold grows. wsimpl. lia.
    + by intros ->.
  - eapply wp_sp_destroy; [subst w0; wsimpl; apply lookup_insert_eq|].
    rewrite reclaim_keep.
    2:{ subst w0. wsimpl. apply (owners_pos _ other).
        by rewrite lookup_delete_ne, lookup_insert_ne. }
    split; [done|]. split; [subst w0; wsimpl; by apply head_true_not_nil|].
    subst w0. split; wsimpl; try done; try lia.
    + by rewrite delete_insert_eq, delete_id.
    + by intros ->.
Qed.

(** [this] holds [a'] after an assignment; [a'] may be shared. *)
Record assigned (this : pid) (w w' : world) (a' : addr) (s' : map_structure) : Prop :=
  Assigned {
    as_wf : wf w';
    as_ptrs : ptrs w' = <[this := a']> (ptrs w);
    as_obj : objs w' !! a' = Some s';
    as_frame : ∀ y c, y ≠ this → ptrs w !! y = Some c → objs w' !! c = objs w !! c;
    as_grows : grows w w';
    as_quiet : faults w = [] → faults w' = [] }.

Lemma copy_assign_spec this src a b so w :
  wf w → ptrs w !! this = Some a → ptrs w !! src = Some b → objs w !! b = Some so →
  wp (copy_assign this src) w
     (λ _ w', ∃ a' s',
        assigned this w w' a' s' ∧ items s' = items so
        ∧ non_const_refs_given s' = false
        ∧ (if non_const_refs_given so then a' = next_addr w else a' = b))
     (λ e w', e = injected_failure ∧ faults w ≠ [] ∧ same_store w w').
Proof.
  intros Hw Hthis Hsrc Hb.
  pose proof (wf_fresh_pid w Hw) as Hnp.
  assert (this ≠ next_pid w) as Hne by congruence.
  unfold copy_assign.
  apply wp_bind. eapply wp_mono; [by apply (copy_construct_spec src b so w)| |done].
  intros x w1 (-> & a' & s' & [Hw1 Hp1 Ho1 Hfr1 Hg1 Hq1] & Hit & Hfl & Hcase).
  assert (Hx1 : ptrs w1 !! next_pid w = Some a') by by rewrite Hp1, lookup_insert_eq.
  assert (Hthis1 : ptrs w1 !! this = Some a) by by rewrite Hp1, lookup_insert_ne.
  apply wp_scope. unfold operator_assign.
  apply wp_bind. eapply wp_sp_get; [done|].
  apply wp_bind. eapply wp_load; [done|]. rewrite Hfl.
  eapply wp_sp_assign; [done|done|].
  set (w2 := reclaim a _).
  assert (Hp2 : ptrs w2 = <[this := a']> (ptrs w1)) by (subst w2; by rewrite ptrs_reclaim).
  unfold destroy. eapply wp_sp_destroy.
  { rewrite Hp2, lookup_insert_ne by done. apply Hx1. }
  set (w3 := reclaim a' _).
  assert (Hp3 : ptrs w3 = <[this := a']> (ptrs w)).
  { subst w3. rewrite ptrs_reclaim. wsimpl. rewrite Hp2, Hp1.
    rewrite delete_insert_ne by done. by rewrite delete_insert_eq, delete_id. }
  assert (Hw2 : wf w2).
  { subst w2. wf_step. wf_step; [done|by eexists|].
    destruct Hg1 as (_ & _ & ?). assert (this < next_pid w); [|lia].
    apply Hw. by eexists. }
  assert (Hframe : ∀ y c, ptrs w3 !! y = Some c → y ≠ next_pid w →
                          objs w3 !! c = objs w1 !! c).
  { intros y c Hc Hy. subst w3.
    rewrite (objs_reclaim_other _ _ y) by by rewrite ptrs_reclaim in Hc.
    wsimpl. subst w2. rewrite (objs_reclaim_other _ _ y); [done|].
    rewrite ptrs_reclaim in Hc. wsimpl. rewrite ptrs_reclaim in Hc. wsimpl.
    by rewrite lookup_delete_ne in Hc. }
  exists a', s'. split; [|done]. split.
  - subst w3. wf_step. by wf_step.
  - done.
  - rewrite (Hframe this); [done| |done]. by rewrite Hp3, lookup_insert_eq.
  - intros y c Hy Hc. rewrite (Hframe y).
    + by apply (Hfr1 y).
    + by rewrite Hp3, lookup_insert_ne.
    + congruence.
  - subst w3 w2. apply grows_reclaim.
    eapply grows_trans; [done|]. unfold grows.
    destruct (next_reclaim a (set_ptrs (<[this:=a']> (ptrs w1)) w1)) as (Ha1 & Ha2 & Ha3 & _).
    wsimpl. rewrite Ha1, Ha2, Ha3. done.
  - subst w3 w2. rewrite faults_reclaim. wsimpl. by rewrite faults_reclaim.
Qed.

Lemma move_assign_spec this src a b so w :
  wf w → ptrs w !! this = Some a → ptrs w !! src = Some b → objs w !! b = Some so →
  wp (move_assign this src) w (λ _ w', wf w') (λ _ w', wf w').
Proof.
  intros Hw Hthis Hsrc Hb.
  pose proof (wf_fresh_pid w Hw) as Hnp.
  pose proof (wf_fresh_addr w Hw) as Hna.
  assert (this ≠ next_pid w) as Hne by congruence.
  assert (src ≠ next_pid w) as Hne' by congruence.
  assert (b ≠ next_addr w) as Hbne by congruence.
  assert (inv so) as Hio by by eapply wf_inv.
  unfold move_assign.
  apply wp_bind. eapply wp_mono; [by apply (move_construct_spec src b so w)|..].
  2:{ intros e w' (_ & _ & Hs). by eapply same_store_wf. }
  intros x w1 (-> & Hw1 & Hp1 & Ho1 & Hg1 & Hq1).
  assert (Hx1 : ptrs w1 !! next_pid w = Some b).
  { rewrite Hp1, lookup_insert_ne by done. apply lookup_insert_eq. }
  assert (Hb1 : objs w1 !! b = Some so) by by rewrite Ho1, lookup_insert_ne.
  assert (Hthis1 : is_Some (ptrs w1 !! this)).
  { rewrite Hp1. destruct (decide (this = src)) as [->|?].
    - rewrite lookup_insert_eq. by eexists.
    - rewrite !lookup_insert_ne by done. by eexists. }
  destruct Hthis1 as [old Hold].
  assert (Hlt : this < next_pid w1).
  { apply Hw1. by eexists. }
  apply wp_scope. unfold operator_assign, destroy.
  apply wp_bind. eapply wp_sp_get; [done|].
  apply wp_bind. eapply wp_load; [done|].
  destruct (non_const_refs_given so).
  - apply wp_bind. unfold make_shared_copy.
    apply wp_bind. apply wp_may_throw'; intros Hf0.
    + apply wp_bind. apply wp_alloc_nodes. apply wp_alloc_obj.
      eapply wp_sp_set; [done|].
      eapply wp_sp_destroy.
      { rewrite ptrs_reclaim. wsimpl. rewrite lookup_insert_ne by done. apply Hx1. }
      wf_step. wf_step. wf_step.
      wf_step; [wf_step; [wf_step; by wf_step|..]|..].
      * by apply inv_copy.
      * apply fresh_copy.
      * wsimpl. rewrite lookup_insert_eq. by eexists.
      * done.
    + eapply wp_sp_destroy; [done|]. wf_step. wf_step. by wf_step.
  - eapply wp_sp_assign; [done|done|].
    eapply wp_sp_destroy.
    { rewrite ptrs_reclaim. wsimpl. rewrite lookup_insert_ne by done. apply Hx1. }
    wf_step. wf_step. wf_step. wf_step; [done|by eexists|done].
Qed.

(** ** References *)

Lemma write_ref_spec r v s mv w :
  objs w !! ref_obj r = Some s → mappings s !! ref_key r = Some mv →
  write_ref r v w
  = Val tt (set_objs (<[ref_obj r := write_effect (ref_key r) mv v s]> (objs w)) w).
Proof.
  intros Ho Hm. unfold write_ref, bind, load, store. rewrite Ho, Hm. by rewrite Ho.
Qed.

Lemma read_ref_spec r s mv w :
  objs w !! ref_obj r = Some s → mappings s !! ref_key r = Some mv →
  read_ref r w = Val (value mv) w.
Proof.
  intros Ho Hm. unfold read_ref, bind, load. by rewrite Ho, Hm.
Qed.

Lemma write_ref_wf r v w :
  wf w → match write_ref r v w with Val _ w' | Exc _ w' => wf w' | UB => True end.
Proof.
  intros Hw. unfold write_ref, bind, load, store.
  destruct (objs w !! ref_obj r) as [s|] eqn:Ho; [|done].
  destruct (mappings s !! ref_key r) as [mv|] eqn:Hm; [|done].
  rewrite Ho. wf_step; [done|by eexists| |].
  - apply (inv_write_effect _ mv); [by eapply wf_inv|done].
  - exact (wf_nodes w Hw (ref_obj r) s Ho).
Qed.

(** ** Iteration *)

Lemma node_key_app n k (l1 l2 : list (node * K)) :
  n ∉ l1.*1 → node_key n (l1 ++ (n, k) :: l2) = Some k.
Proof.
  induction l1 as [|p l1 IH]; intros Hn; simpl.
  - by rewrite decide_True.
  - rewrite decide_False.
    + apply IH. intros ?. apply Hn. csimpl. by right.
    + intros Heq. apply Hn. csimpl. rewrite Heq. left.
Qed.

Lemma node_next_app n k (l1 l2 : list (node * K)) :
  n ∉ l1.*1 → node_next n (l1 ++ (n, k) :: l2) = Some (head l2.*1).
Proof.
  induction l1 as [|p l1 IH]; intros Hn; simpl.
  - by rewrite decide_True.
  - rewrite decide_False.
    + apply IH. intros ?. apply Hn. csimpl. by right.
    + intros Heq. apply Hn. csimpl. rewrite Heq. left.
Qed.

Lemma begin_spec this a s w :
  ptrs w !! this = Some a → objs w !! a = Some s →
  begin this w = Val (Iterator (ListIter a (head (insertions s).*1)) this) w.
Proof. intros Hp Ho. unfold begin, bind, sp_get, load. by rewrite Hp, Ho. Qed.

Lemma end_spec this a s w :
  ptrs w !! this = Some a → objs w !! a = Some s →
  end_ this w = Val (Iterator (ListIter a None) this) w.
Proof. intros Hp Ho. unfold end_, bind, sp_get, load. by rewrite Hp, Ho. Qed.

Lemma traverse_spec this a s l2 : ∀ l1 fuel w,
  ptrs w !! this = Some a → objs w !! a = Some s → inv s →
  insertions s = l1 ++ l2 → length l2 ≤ fuel →
  wp (traverse fuel (Iterator (ListIter a (head l2.*1)) this)
               (Iterator (ListIter a None) this)) w
     (λ l w', l = omap (λ k, (λ mv, (k, value mv)) <$> mappings s !! k) l2.*2
              ∧ only_faults w w')
     (λ e w', e = injected_failure ∧ faults w ≠ [] ∧ only_faults w w').
Proof.
  induction l2 as [|[n k] l2 IH]; intros l1 fuel w Hp Ho Hi Hl Hfuel.
  { destruct fuel; simpl traverse; unfold iterator_eq; simpl;
      rewrite bool_decide_eq_true_2 by done; apply wp_ret;
      (split; [done|apply only_faults_refl]). }
  destruct fuel as [|fuel]; [simpl in Hfuel; lia|].
  assert (Hn : n ∉ l1.*1).
  { pose proof (inv_nodup s Hi) as Hnd. rewrite Hl, fmap_app in Hnd.
    apply NoDup_app in Hnd as (_ & Hnd & _). intros Hin. apply (Hnd n Hin). left. }
  assert (Hin : (n, k) ∈ insertions s).
  { rewrite Hl. apply elem_of_app. right. left. }
  destruct (inv_list_map s Hi _ _ Hin) as (mv & Hm & _).
  simpl traverse. unfold iterator_eq. simpl.
  rewrite bool_decide_eq_false_2 by (by intros [_ ?]).
  apply wp_bind. unfold iterator_deref. simpl.
  apply wp_bind. eapply wp_load; [done|]. rewrite Hl, node_key_app by done.
  apply wp_bind. eapply wp_mono; [by apply (at_const_spec this k a s w)|..].
  2:{ intros e w' He. destruct e; simpl in He.
      - destruct He as [He _]. by rewrite He in Hm.
      - done.
      - by split. }
  intros v w1 [(mv' & Hm' & ->) Hof]. rewrite Hm in Hm'. injection Hm' as <-.
  apply wp_ret.
  pose proof Hof as (fs & -> & Hq).
  apply wp_bind. unfold iterator_incr. simpl.
  apply wp_bind. eapply wp_load; [done|]. rewrite Hl, node_next_app by done.
  apply wp_ret. apply wp_bind.
  eapply wp_mono; [apply (IH (l1 ++ [(n, k)]) fuel); try done|..].
  - by rewrite Hl, <- app_assoc.
  - simpl in Hfuel. lia.
  - intros l w2 [-> Hof2]. apply wp_ret. split.
    + csimpl. by rewrite Hm.
    + by eapply only_faults_trans.
  - intros e w2 (-> & Hf2 & Hof2). split; [done|]. split.
    + intros Hnil. apply Hf2. wsimpl. auto.
    + by eapply only_faults_trans.
Qed.

Lemma to_list_spec this a s w :
  wf w → ptrs w !! this = Some a → objs w !! a = Some s →
  wp (to_list this) w
     (λ l w', l = items s ∧ only_faults w w')
     (λ e w', e = injected_failure ∧ faults w ≠ [] ∧ only_faults w w').
Proof.
  intros Hw Hp Ho. unfold to_list, wp, bind.
  rewrite (begin_spec this a s), (end_spec this a s) by done.
  unfold size_, bind, sp_get, load. rewrite Hp, Ho. unfold ret.
  eapply (traverse_spec this a s (insertions s) []); try done.
  by eapply wf_inv.
Qed.

(** With an empty schedule the queries return and leave the state alone. *)
Lemma only_faults_quiet w w' : only_faults w w' → faults w = [] → w' = w.
Proof. intros (fs & -> & Hq) Hf. rewrite (Hq Hf), <- Hf. by destruct w. Qed.

Lemma to_list_run this a s w :
  wf w → ptrs w !! this = Some a → objs w !! a = Some s → faults w = [] →
  to_list this w = Val (items s) w.
Proof.
  intros Hw Hp Ho Hf. pose proof (to_list_spec this a s w Hw Hp Ho) as Hwp.
  unfold wp in Hwp. destruct (to_list this w) as [l w'|e w'|]; [| |done].
  - destruct Hwp as [-> Hof]. by rewrite (only_faults_quiet _ _ Hof Hf).
  - by destruct Hwp as (_ & ? & _).
Qed.

Lemma contains_run this k a s w :
  ptrs w !! this = Some a → objs w !! a = Some s → faults w = [] →
  contains this k w = Val (bool_decide (is_Some (mappings s !! k))) w.
Proof.
  intros Hp Ho Hf. pose proof (contains_spec this k a s w Hp Ho) as Hwp.
  unfold wp in Hwp. destruct (contains this k w) as [l w'|e w'|]; [| |done].
  - destruct Hwp as [-> Hof]. by rewrite (only_faults_quiet _ _ Hof Hf).
  - by destruct Hwp as (_ & ? & _).
Qed.

Lemma size_run this a s w :
  ptrs w !! this = Some a → objs w !! a = Some s →
  size_ this w = Val (length (insertions s)) w.
Proof. intros Hp Ho. unfold size_, bind, sp_get, load. by rewrite Hp, Ho. Qed.

(** * What a program can observe of a container *)

(** The structure behind the container [x]. *)
Definition obj_at (w : world) (x : pid) : option map_structure :=
  match ptrs w !! x with Some a => objs w !! a | None => None end.

(** The escape flag of the structure behind [x]. *)
Definition flag_of (x : pid) (w : world) : option bool :=
  non_const_refs_given <$> obj_at w x.

(** The results of [size()], of a walk from [begin()] to [end()], and of
    [contains(k)], when no library call fails. *)
Definition size_of (x : pid) (w : world) : option nat :=
  match size_ x (set_faults [] w) with Val n _ => Some n | _ => None end.
Definition contents (x : pid) (w : world) : option (list (K * V)) :=
  match to_list x (set_faults [] w) with Val l _ => Some l | _ => None end.
Definition has_key (x : pid) (k : K) (w : world) : option bool :=
  match contains x k (set_faults [] w) with Val b _ => Some b | _ => None end.

(** The container [x] shows the same in [w] and in [w']. *)
Record same_view (x : pid) (w w' : world) : Prop := SameView {
  sv_size : size_of x w' = size_of x w;
  sv_contents : contents x w' = contents x w;
  sv_keys : ∀ k, has_key x k w' = has_key x k w }.

Lemma wf_set_faults fs w : wf w → wf (set_faults fs w).
Proof. intros []. by split. Qed.

Lemma obj_at_Some w x s :
  obj_at w x = Some s ↔ ∃ a, ptrs w !! x = Some a ∧ objs w !! a = Some s.
Proof.
  unfold obj_at. destruct (ptrs w !! x) as [a|]; [|split; [done|by intros (? & ? & ?)]].
  split; [by exists a|]. by intros (? & [= <-] & ?).
Qed.

Lemma observe_obj w x s :
  wf w → obj_at w x = Some s →
  size_of x w = Some (length (items s))
  ∧ contents x w = Some (items s)
  ∧ ∀ k, has_key x k w = Some (bool_decide (k ∈ (items s).*1)).
Proof.
  intros Hw (a & Hp & Ho)%obj_at_Some.
  assert (inv s) as Hi by by eapply wf_inv.
  unfold size_of, contents, has_key. split; [|split].
  - rewrite (size_run x a s) by done. by rewrite items_length.
  - rewrite (to_list_run x a s); [done|by apply wf_set_faults|done..].
  - intros k. rewrite (contains_run x k a s) by done. f_equal.
    apply bool_decide_ext. rewrite items_keys by done. symmetry.
    by apply inv_key_in_list.
Qed.

Lemma contents_live w x l :
  contents x w = Some l → ∃ s, obj_at w x = Some s.
Proof.
  unfold contents, to_list, begin, bind, sp_get, load, obj_at. wsimpl.
  destruct (ptrs w !! x) as [a|]; [|done]. wsimpl.
  destruct (objs w !! a) as [s|]; [|done]. by exists s.
Qed.

Lemma contents_items w x l :
  wf w → contents x w = Some l → ∃ s, obj_at w x = Some s ∧ items s = l.
Proof.
  intros Hw Hc. destruct (contents_live _ _ _ Hc) as [s Hs]. exists s. split; [done|].
  destruct (observe_obj w x s Hw Hs) as (_ & Hc' & _). congruence.
Qed.

Lemma same_view_items x w w' s s' :
  wf w → wf w' → obj_at w x = Some s → obj_at w' x = Some s' →
  items s' = items s → same_view x w w'.
Proof.
  intros Hw Hw' Hs Hs' Hit.
  destruct (observe_obj w x s Hw Hs) as (H1 & H2 & H3).
  destruct (observe_obj w' x s' Hw' Hs') as (H1' & H2' & H3').
  split; [| |intros k]; rewrite ?H1, ?H1', ?H2, ?H2', ?H3, ?H3', ?Hit; done.
Qed.

Lemma same_view_obj x w w' :
  wf w → wf w' → is_Some (obj_at w x) → obj_at w' x = obj_at w x → same_view x w w'.
Proof.
  intros Hw Hw' [s Hs] Heq. eapply (same_view_items x w w' s s); try done. congruence.
Qed.

Lemma live_obj w x : wf w → is_Some (ptrs w !! x) → is_Some (obj_at w x).
Proof.
  intros Hw [a Ha]. unfold obj_at. rewrite Ha. by eapply wf_ptrs.
Qed.

(** The frame of a change made through [this]. *)
Lemma changed_frame this w w' a' s' y :
  changed this w w' a' s' → y ≠ this → obj_at w' y = obj_at w y.
Proof.
  intros Hc Hy. unfold obj_at.
  rewrite (ch_ptrs _ _ _ _ _ Hc), lookup_insert_ne by done.
  destruct (ptrs w !! y) as [c|] eqn:Hyc; [|done]. by eapply ch_frame.
Qed.

Lemma changed_this this w w' a' s' :
  changed this w w' a' s' → obj_at w' this = Some s'.
Proof.
  intros Hc. unfold obj_at. rewrite (ch_ptrs _ _ _ _ _ Hc), lookup_insert_eq.
  by eapply ch_obj.
Qed.

Lemma same_store_obj w w' y : same_store w w' → obj_at w' y = obj_at w y.
Proof. intros Hs. unfold obj_at. by rewrite (same_ptrs _ _ Hs), (same_objs _ _ Hs). Qed.

Lemma obj_at_set_faults fs w y : obj_at (set_faults fs w) y = obj_at w y.
Proof. done. Qed.

Lemma same_view_set_faults fs x w w' :
  same_view x (set_faults fs w) w' ↔ same_view x w w'.
Proof. split; intros [? ? ?]; by split. Qed.

(** * The claims *)

(** ** insert *)

Lemma insert_contents this k v l w :
  wf w → contents this w = Some l →
  match insert this k v w with
  | Val b w' =>
      wf w' ∧ b = bool_decide (assoc k l = None)
      ∧ contents this w' = Some (spec_insert l k v)
      ∧ flag_of this w' = Some false
      ∧ (faults w = [] → faults w' = [])
  | Exc e w' =>
      e = injected_failure ∧ faults w ≠ [] ∧ wf w' ∧ contents this w' = Some l
  | UB => False
  end.
Proof.
  intros Hw Hc. destruct (contents_items _ _ _ Hw Hc) as (s & Hs & <-).
  pose proof Hs as (a & Hp & Ho)%obj_at_Some.
  assert (inv s) as Hi by by eapply wf_inv.
  pose proof (insert_spec this k v a s w Hw Hp Ho) as Hwp. unfold wp in Hwp.
  destruct (insert this k v w) as [b w'|e w'|]; [| |done].
  - destruct Hwp as (a1 & s1 & n & -> & Hn & Hu).
    assert (inv (insert_effect n k v s1)) as Hi'.
    { apply inv_insert_effect; [by eapply upd_base_inv|done]. }
    pose proof (upd_changed _ _ _ _ _ _ _ _ Hw Hp Hu Hi') as Hch.
    pose proof (changed_this _ _ _ _ _ Hch) as Hs'.
    split; [by eapply ch_wf|]. split; [|split; [|split]].
    + apply bool_decide_ext. rewrite assoc_items by done.
      by destruct (mappings s !! k).
    + destruct (observe_obj w' this _ (ch_wf _ _ _ _ _ Hch) Hs') as (_ & -> & _).
      rewrite items_insert_effect by (by try eapply upd_base_inv).
      by rewrite (upd_base_items _ _ _ _ _ _ _ _ Hu).
    + unfold flag_of. rewrite Hs'. simpl. by rewrite insert_effect_flag.
    + by eapply ch_quiet.
  - destruct Hwp as (-> & Hf & Hss). split; [done|]. split; [done|].
    assert (wf w') as Hw' by by eapply same_store_wf. split; [done|].
    destruct (observe_obj w' this s Hw') as (_ & -> & _); [|done].
    by rewrite (same_store_obj w w').
Qed.

(** C3. For a key already present with value [v0], [insert] returns false,
    keeps [v0] and moves the key to the last position of the iteration
    order; for a key not present it returns true and appends the pair as
    the last one. [l] is what iteration shows before the call. When no
    library call fails, the call returns. *)
Theorem insert_moves_or_appends this k v l w :
  wf w → contents this w = Some l →
  match insert this k v w with
  | Val b w' =>
      match assoc k l with
      | Some v0 =>
          b = false
          ∧ contents this w' = Some (filter (λ p, p.1 ≠ k) l ++ [(k, v0)])
      | None =>
          b = true ∧ contents this w' = Some (l ++ [(k, v)])
      end
  | Exc e w' => e = injected_failure ∧ faults w ≠ []
  | UB => False
  end
  ∧ (faults w = [] → ∃ b w', insert this k v w = Val b w').
Proof.
  intros Hw Hc. pose proof (insert_contents this k v l w Hw Hc) as Hi.
  split.
  - destruct (insert this k v w) as [b w'|e w'|]; [| |done].
    + destruct Hi as (_ & -> & Hc' & _). unfold spec_insert in Hc'.
      destruct (assoc k l) as [v0|]; split; try done.
    + by destruct Hi as (? & ? & _).
  - intros Hf. destruct (insert this k v w) as [b w'|e w'|]; [by eauto| |done].
    by destruct Hi as (_ & ? & _).
Qed.

(** ** Sequences of insertions *)

(** [insert] called for each pair in turn. *)
Fixpoint insert_all (this : pid) (kvs : list (K * V)) : M (list bool) :=
  match kvs with
  | [] => ret []
  | p :: rest =>
      do b <- insert this p.1 p.2;
      do bs <- insert_all this rest;
      ret (b :: bs)
  end.

Lemma insert_all_contents this kvs : ∀ l w,
  wf w → contents this w = Some l →
  match insert_all this kvs w with
  | Val bs w' => wf w' ∧ contents this w' = Some (spec_merge l kvs)
  | Exc e w' => e = injected_failure ∧ faults w ≠ []
  | UB => False
  end
  ∧ (faults w = [] → ∃ bs w', insert_all this kvs w = Val bs w').
Proof.
  induction kvs as [|[k v] kvs IH]; intros l w Hw Hc.
  { split; [done|]. intros _. by exists [], w. }
  simpl insert_all. unfold bind.
  pose proof (insert_contents this k v l w Hw Hc) as Hi.
  destruct (insert this k v w) as [b w1|e w1|]; [| |done].
  2:{ destruct Hi as (-> & Hf & _). split; [done|]. by intros ?. }
  destruct Hi as (Hw1 & _ & Hc1 & _ & Hq).
  destruct (IH _ _ Hw1 Hc1) as [IH1 IH2]. split.
  - destruct (insert_all this kvs w1) as [bs w2|e w2|]; [done| |done].
    destruct IH1 as [-> Hf]. split; [done|]. intros Hnil. apply Hf. auto.
  - intros Hf. destruct (IH2 (Hq Hf)) as (bs & w2 & ->). by eauto.
Qed.

Lemma filter_fst_keys (l : list (K * V)) k :
  (filter (λ p, p.1 ≠ k) l).*1 = filter (λ k', k' ≠ k) l.*1.
Proof.
  induction l as [|p l IH]; [done|]. csimpl.
  destruct (decide (p.1 = k)) as [Heq|Hne].
  - rewrite !filter_cons_False by (intros Hn; by apply Hn). done.
  - rewrite !filter_cons_True by done. csimpl. by rewrite IH.
Qed.

Lemma filter_ne_notin (l : list K) k : k ∉ l → filter (λ k', k' ≠ k) l = l.
Proof.
  induction l as [|k' l IH]; intros Hk; [done|].
  rewrite filter_cons_True by (intros ->; apply Hk; left).
  f_equal. apply IH. intros ?. apply Hk. by right.
Qed.

Lemma spec_insert_keys l k v :
  (spec_insert l k v).*1 = filter (λ k', k' ≠ k) l.*1 ++ [k].
Proof.
  unfold spec_insert. destruct (assoc k l) as [v0|] eqn:Ha.
  - by rewrite fmap_app, filter_fst_keys.
  - rewrite fmap_app. f_equal. symmetry. apply filter_ne_notin.
    intros Hin%assoc_elem_of. rewrite Ha in Hin. by destruct Hin.
Qed.

Lemma spec_insert_nodup l k v : NoDup l.*1 → NoDup (spec_insert l k v).*1.
Proof.
  intros Hnd. rewrite spec_insert_keys. apply NoDup_app. split; [|split].
  - by apply NoDup_filter.
  - intros k' [Hne _]%list_elem_of_filter ->%list_elem_of_singleton. done.
  - apply NoDup_singleton.
Qed.

Lemma spec_insert_keyset l k v :
  list_to_set (C := gset K) (spec_insert l k v).*1
  = list_to_set l.*1 ∪ {[k]}.
Proof.
  rewrite spec_insert_keys. apply set_eq. intros k'.
  rewrite elem_of_list_to_set, elem_of_app, list_elem_of_filter, list_elem_of_singleton.
  rewrite elem_of_union, elem_of_list_to_set, elem_of_singleton.
  destruct (decide (k' = k)) as [->|Hne]; [split; by right|].
  split; [intros [[_ ?]|?]; [by left|done]|intros [?|?]; [by left|done]].
Qed.

Lemma spec_merge_nodup kvs : ∀ l, NoDup l.*1 → NoDup (spec_merge l kvs).*1.
Proof.
  induction kvs as [|[k v] kvs IH]; intros l Hnd; [done|].
  apply IH. by apply spec_insert_nodup.
Qed.

Lemma spec_merge_keyset kvs : ∀ l,
  list_to_set (C := gset K) (spec_merge l kvs).*1
  = list_to_set l.*1 ∪ list_to_set kvs.*1.
Proof.
  induction kvs as [|[k v] kvs IH]; intros l.
  - csimpl. by rewrite (right_id_L ∅ (∪)).
  - rewrite spec_merge_cons, IH, spec_insert_keyset. csimpl.
    by rewrite (assoc_L (∪)).
Qed.

Lemma spec_merge_fresh kvs : ∀ l,
  NoDup (l.*1 ++ kvs.*1) → (spec_merge l kvs).*1 = l.*1 ++ kvs.*1.
Proof.
  induction kvs as [|[k v] kvs IH]; intros l Hnd.
  - csimpl. by rewrite app_nil_r.
  - csimpl in Hnd. rewrite spec_merge_cons.
    assert (Hk : k ∉ l.*1).
    { apply NoDup_app in Hnd as (_ & Hd & _). intros Hin. apply (Hd k Hin). left. }
    assert (Hkeys : (spec_insert l k v).*1 = l.*1 ++ [k]).
    { by rewrite spec_insert_keys, filter_ne_notin. }
    rewrite IH; rewrite Hkeys, <- app_assoc; done.
Qed.

(** C4. After a sequence of successful [insert] calls on an empty
    container, [size()] is the number of distinct keys inserted, and when
    these keys are all distinct iteration shows them in the order of the
    calls. When no library call fails, all the calls return. *)
Theorem inserts_size_and_order this kvs w :
  wf w → contents this w = Some [] →
  (∀ bs w', insert_all this kvs w = Val bs w' →
     size_of this w' = Some (size (list_to_set (C := gset K) kvs.*1))
     ∧ (NoDup kvs.*1 → ∃ l, contents this w' = Some l ∧ l.*1 = kvs.*1))
  ∧ (faults w = [] → ∃ bs w', insert_all this kvs w = Val bs w').
Proof.
  intros Hw Hc. destruct (insert_all_contents this kvs [] w Hw Hc) as [H1 H2].
  split; [|done]. intros bs w' Heq. rewrite Heq in H1. destruct H1 as [Hw' Hc'].
  destruct (contents_items _ _ _ Hw' Hc') as (s & Hs & Hit).
  destruct (observe_obj w' this s Hw' Hs) as (-> & _ & _).
  split.
  - rewrite Hit. f_equal. rewrite <- (length_fmap fst).
    rewrite <- (size_list_to_set (C := gset K)) by (apply spec_merge_nodup; constructor).
    rewrite spec_merge_keyset. csimpl. by rewrite (left_id_L ∅ (∪)).
  - intros Hnd. eexists. split; [done|]. by rewrite spec_merge_fresh.
Qed.

(** ** Lookup errors *)

Lemma contains_pass this k a s w :
  ptrs w !! this = Some a → objs w !! a = Some s → head (faults w) ≠ Some true →
  contains this k w = Val (bool_decide (is_Some (mappings s !! k))) (pass w).
Proof.
  intros Hp Ho Hf.
  pose proof (wp_contains Hp Ho k
    (λ b w', contains this k w = Val b w'
             → Val (A := bool) b w' = Val (bool_decide (is_Some (mappings s !! k))) (pass w))
    (λ _ _, False)) as Hwp.
  unfold wp in Hwp. destruct (contains this k w); [|exfalso; by apply Hwp..].
  by apply Hwp.
Qed.

Lemma contains_fail this k a s w :
  ptrs w !! this = Some a → objs w !! a = Some s → head (faults w) = Some true →
  contains this k w = Exc injected_failure (pass w).
Proof.
  intros Hp Ho Hf.
  pose proof (wp_contains Hp Ho k (λ _ _, False)
    (λ e w', contains this k w = Exc e w'
             → Exc (A := bool) e w' = Exc injected_failure (pass w))) as Hwp.
  unfold wp in Hwp. destruct (contains this k w); [exfalso; by apply Hwp| |exfalso; by apply Hwp].
  by apply Hwp.
Qed.

Lemma has_key_absent this k a s w :
  ptrs w !! this = Some a → objs w !! a = Some s →
  has_key this k w = Some false ↔ mappings s !! k = None.
Proof.
  intros Hp Ho. unfold has_key. rewrite (contains_run this k a s) by done.
  destruct (mappings s !! k).
  - rewrite bool_decide_eq_true_2 by by eexists. done.
  - rewrite bool_decide_eq_false_2 by by intros [? ?]. done.
Qed.

Section lookup_errors.
Context {this : pid} {k : K} {a : addr} {s : map_structure} {w : world}
  (Hp : ptrs w !! this = Some a) (Ho : objs w !! a = Some s).

Lemma erase_absent :
  mappings s !! k = None → head (faults w) ≠ Some true →
  erase this k w = Exc lookup_error (pass w).
Proof.
  intros Hm Hf. unfold erase, bind. rewrite (contains_pass this k a s) by done.
  rewrite Hm, bool_decide_eq_false_2 by by intros [? ?]. done.
Qed.

Lemma at_absent :
  mappings s !! k = None → head (faults w) ≠ Some true →
  at_ this k w = Exc lookup_error (pass w).
Proof.
  intros Hm Hf. unfold at_, bind. rewrite (contains_pass this k a s) by done.
  rewrite Hm, bool_decide_eq_false_2 by by intros [? ?]. done.
Qed.

Lemma at_const_absent :
  mappings s !! k = None → head (faults w) ≠ Some true →
  at_const this k w = Exc lookup_error (pass w).
Proof.
  intros Hm Hf. unfold at_const, bind. rewrite (contains_pass this k a s) by done.
  rewrite Hm, bool_decide_eq_false_2 by by intros [? ?]. done.
Qed.

Lemma erase_first_fault :
  head (faults w) = Some true → erase this k w = Exc injected_failure (pass w).
Proof. intros Hf. unfold erase, bind. by rewrite (contains_fail this k a s). Qed.

Lemma at_first_fault :
  head (faults w) = Some true → at_ this k w = Exc injected_failure (pass w).
Proof. intros Hf. unfold at_, bind. by rewrite (contains_fail this k a s). Qed.

Lemma at_const_first_fault :
  head (faults w) = Some true → at_const this k w = Exc injected_failure (pass w).
Proof. intros Hf. unfold at_const, bind. by rewrite (contains_fail this k a s). Qed.
End lookup_errors.

(** C5. [erase], the mutable [at] and the read-only [at] throw
    [lookup_error] exactly when the key is absent (provided the hash of the
    key, computed first, does not throw), and the state they leave is the one
    they found: only the schedule of faults has advanced. *)
Theorem lookup_error_iff_absent this k w :
  wf w → is_Some (ptrs w !! this) →
  ((∀ w', erase this k w = Exc lookup_error w' →
          has_key this k w = Some false ∧ only_faults w w')
   ∧ (has_key this k w = Some false → head (faults w) ≠ Some true →
      ∃ w', erase this k w = Exc lookup_error w'))
  ∧ ((∀ w', at_ this k w = Exc lookup_error w' →
            has_key this k w = Some false ∧ only_faults w w')
     ∧ (has_key this k w = Some false → head (faults w) ≠ Some true →
        ∃ w', at_ this k w = Exc lookup_error w'))
  ∧ ((∀ w', at_const this k w = Exc lookup_error w' →
            has_key this k w = Some false ∧ only_faults w w')
     ∧ (has_key this k w = Some false → head (faults w) ≠ Some true →
        ∃ w', at_const this k w = Exc lookup_error w')).
Proof.
  intros Hw [a Hp]. destruct (wf_ptrs w Hw _ _ Hp) as [s Ho].
  pose proof (has_key_absent this k a s w Hp Ho) as Habs.
  pose proof (erase_spec this k a s w Hw Hp Ho) as He.
  pose proof (at_spec this k a s w Hw Hp Ho) as Ha.
  pose proof (at_const_spec this k a s w Hp Ho) as Hc.
  unfold wp in He, Ha, Hc.
  split; [|split]; split.
  - intros w' Heq. rewrite Heq in He. destruct He as [Hm _].
    split; [by apply Habs|].
    destruct (decide (head (faults w) = Some true)) as [Hf|Hf].
    + by rewrite (erase_first_fault Hp Ho) in Heq.
    + rewrite (erase_absent Hp Ho) in Heq by done. injection Heq as <-.
      apply only_faults_pass.
  - intros Hm%Habs Hf. eexists. by apply (erase_absent Hp Ho).
  - intros w' Heq. rewrite Heq in Ha. destruct Ha as [Hm _].
    split; [by apply Habs|].
    destruct (decide (head (faults w) = Some true)) as [Hf|Hf].
    + by rewrite (at_first_fault Hp Ho) in Heq.
    + rewrite (at_absent Hp Ho) in Heq by done. injection Heq as <-.
      apply only_faults_pass.
  - intros Hm%Habs Hf. eexists. by apply (at_absent Hp Ho).
  - intros w' Heq. rewrite Heq in Hc. destruct Hc as [Hm Hof].
    split; [by apply Habs|done].
  - intros Hm%Habs Hf. eexists. by apply (at_const_absent Hp Ho).
Qed.

(** ** operator[] *)

Lemma assoc_app k (l1 l2 : list (K * V)) :
  assoc k (l1 ++ l2)
  = match assoc k l1 with Some v => Some v | None => assoc k l2 end.
Proof.
  induction l1 as [|p l1 IH]; [done|]. simpl. by destruct (decide (p.1 = k)).
Qed.

Lemma assoc_filter_ne k (l : list (K * V)) : assoc k (filter (λ p, p.1 ≠ k) l) = None.
Proof.
  induction l as [|p l IH]; [done|]. destruct (decide (p.1 = k)) as [Heq|Hne].
  - by rewrite filter_cons_False by (intros Hn; by apply Hn).
  - rewrite filter_cons_True by done. simpl. by rewrite decide_False.
Qed.

Lemma assoc_spec_insert k v l :
  assoc k (spec_insert l k v) = Some (default v (assoc k l)).
Proof.
  unfold spec_insert. destruct (assoc k l) as [v0|] eqn:Ha; rewrite assoc_app.
  - rewrite assoc_filter_ne. simpl. by rewrite decide_True.
  - rewrite Ha. simpl. by rewrite decide_True.
Qed.

Lemma index_contents this kr k l w :
  wf w → contents this w = Some l → faults w = [] →
  read_key kr w = Val k w → key_survives this kr w →
  ∃ r w' a1 s',
    operator_index this kr w = Val r w' ∧ wf w' ∧ r = Ref a1 k
    ∧ ptrs w' !! this = Some a1 ∧ objs w' !! a1 = Some s'
    ∧ non_const_refs_given s' = true
    ∧ items s' = spec_insert l k V0.
Proof.
  intros Hw Hc Hf Hr Hsv. destruct (contents_items _ _ _ Hw Hc) as (s & Hs & <-).
  pose proof Hs as (a & Hp & Ho)%obj_at_Some.
  assert (inv s) as Hi by by eapply wf_inv.
  rewrite (operator_index_survives this kr k w Hw (ex_intro _ a Hp) Hr Hsv).
  pose proof (operator_index_spec this k a s w Hw Hp Ho) as Hwp. unfold wp in Hwp.
  destruct (operator_index this (KeyValue k) w) as [r w'|e w'|]; [| |done].
  2:{ by destruct Hwp as (_ & ? & _). }
  destruct Hwp as (a1 & s1 & n & -> & Hn & Hu).
  assert (inv (set_flag true (insert_effect n k V0 s1))) as Hi'.
  { apply inv_set_flag, inv_insert_effect; [by eapply upd_base_inv|done]. }
  pose proof (upd_changed _ _ _ _ _ _ _ _ Hw Hp Hu Hi') as Hch.
  exists (Ref a1 k), w', a1, (set_flag true (insert_effect n k V0 s1)).
  split; [done|]. split; [by eapply ch_wf|]. split; [done|]. split.
  { by rewrite (ch_ptrs _ _ _ _ _ Hch), lookup_insert_eq. }
  split; [by eapply ch_obj|]. split; [done|].
  change (items (set_flag true (insert_effect n k V0 s1)))
    with (items (insert_effect n k V0 s1)).
  rewrite items_insert_effect by (by try eapply upd_base_inv).
  by rewrite (upd_base_items _ _ _ _ _ _ _ _ Hu).
Qed.

(** X24. [operator[]] with a key that outlives the call: an object of its
    own, or a key in a node of a list the container does not hold alone.
    When no library call fails, on an absent key it inserts the key with
    the value [V()] and returns a reference to that value; on a present key
    it returns a reference to the value already there, which it leaves
    alone, and the key moves to the last position of the iteration order.
    In both cases the escape flag is set, and a write through the reference
    changes the value the container shows. *)
Theorem index_inserts_or_moves this kr k l w :
  wf w → contents this w = Some l → faults w = [] →
  read_key kr w = Val k w → key_survives this kr w →
  ∃ r w' lc,
    operator_index this kr w = Val r w'
    ∧ contents this w' = Some lc
    ∧ flag_of this w' = Some true
    ∧ match assoc k l with
      | Some v0 =>
          lc = filter (λ p, p.1 ≠ k) l ++ [(k, v0)] ∧ read_ref r w' = Val v0 w'
      | None =>
          lc = l ++ [(k, V0)] ∧ read_ref r w' = Val V0 w'
      end
    ∧ ∀ v, ∃ w'', write_ref r v w' = Val tt w''
                  ∧ contents this w'' = Some (spec_write lc k v).
Proof.
  intros Hw Hc Hf Hr Hsv.
  destruct (index_contents this kr k l w Hw Hc Hf Hr Hsv)
    as (r & w' & a1 & s' & Hrun & Hw' & -> & Hp' & Ho' & Hfl & Hit).
  assert (Hs' : obj_at w' this = Some s') by (unfold obj_at; by rewrite Hp').
  assert (inv s') as Hi' by by eapply wf_inv.
  destruct (observe_obj w' this s' Hw' Hs') as (_ & Hc' & _).
  pose proof (assoc_items s' k Hi') as Hassoc.
  rewrite Hit, assoc_spec_insert in Hassoc.
  destruct (mappings s' !! k) as [mv|] eqn:Hm; [|done]. injection Hassoc as Hv.
  exists (Ref a1 k), w', (spec_insert l k V0).
  split; [done|]. split; [by rewrite Hc', Hit|]. split.
  { unfold flag_of. rewrite Hs'. simpl. by rewrite Hfl. }
  split.
  - rewrite (read_ref_spec (Ref a1 k) s' mv) by done. rewrite <- Hv.
    unfold spec_insert. by destruct (assoc k l).
  - intros v. eexists. split; [by apply (write_ref_spec (Ref a1 k) v s' mv)|].
    simpl.
    set (w'' := set_objs _ w').
    assert (wf w'') as Hw''.
    { pose proof (write_ref_wf (Ref a1 k) v w' Hw') as Hwf.
      by rewrite (write_ref_spec (Ref a1 k) v s' mv) in Hwf. }
    destruct (observe_obj w'' this (write_effect k mv v s') Hw'') as (_ & -> & _).
    + unfold obj_at. subst w''. wsimpl. by rewrite Hp', lookup_insert_eq.
    + by rewrite items_write_effect, Hit.
Qed.

(** ** merge *)

Lemma spec_merge_example (x y : K) (v1 v2 v3 : V) :
  x ≠ y → spec_merge [(x, v1)] [(x, v2); (y, v3)] = [(x, v1); (y, v3)].
Proof.
  intros Hne. unfold spec_merge, spec_insert. simpl.
  rewrite (decide_True (P := x = x)) by done.
  rewrite filter_cons_False by (simpl; intros Hn; by apply Hn).
  rewrite filter_nil. simpl.
  by rewrite (decide_False (P := x = y)) by done.
Qed.

(** C7. [merge] with the container itself returns at once and changes
    nothing. With another container, when no library call fails, it
    performs the insertion of every pair of the other container, in the
    iteration order of that container: keys already present keep their
    value and move to the end. So [[(x, 1)]] merged with [[(x, 2); (y, 3)]]
    shows [[(x, 1); (y, 3)]]. The other container shows what it did. *)
Theorem merge_inserts_in_order this other :
  (∀ w, merge this this w = Val tt w)
  ∧ ∀ l lo w,
      wf w → other ≠ this →
      contents this w = Some l → contents other w = Some lo → faults w = [] →
      ∃ w', merge this other w = Val tt w'
            ∧ contents this w' = Some (foldl (λ acc p, spec_insert acc p.1 p.2) l lo)
            ∧ contents other w' = Some lo
            ∧ ∀ x y v1 v2 v3,
                x ≠ y → l = [(x, v1)] → lo = [(x, v2); (y, v3)] →
                contents this w' = Some [(x, v1); (y, v3)].
Proof.
  split; [apply merge_self|]. intros l lo w Hw Hne Hc Hco Hf.
  destruct (contents_items _ _ _ Hw Hc) as (s & Hs & <-).
  destruct (contents_items _ _ _ Hw Hco) as (so & Hso & <-).
  pose proof Hs as (a & Hp & Ho)%obj_at_Some.
  pose proof Hso as (b & Hpo & Hoo)%obj_at_Some.
  pose proof (merge_spec this other a s b so w Hw Hne Hp Ho Hpo Hoo) as Hwp.
  unfold wp in Hwp.
  destruct (merge this other w) as [[] w'|e w'|]; [| |done].
  2:{ by destruct Hwp as (_ & ? & _). }
  destruct Hwp as (s' & Hch & Hit & Hfl).
  pose proof (ch_wf _ _ _ _ _ Hch) as Hw'.
  exists w'. split; [done|].
  assert (Hthis' : contents this w' = Some (spec_merge (items s) (items so))).
  { destruct (observe_obj w' this s' Hw') as (_ & -> & _); [|by rewrite Hit].
    by eapply changed_this. }
  split; [done|]. split.
  - destruct (observe_obj w' other so Hw') as (_ & -> & _); [|done].
    by rewrite (changed_frame _ _ _ _ _ _ Hch).
  - intros x y v1 v2 v3 Hxy Hl Hlo. rewrite Hthis', Hl, Hlo.
    by rewrite spec_merge_example.
Qed.

(** ** Queries *)

(** A call that returns or throws, and leaves everything but the schedule
    of faults as it was. *)
Definition query_ok {A} (m : M A) (w : world) : Prop :=
  match m w with
  | Val _ w' | Exc _ w' => only_faults w w'
  | UB => False
  end.

Lemma query_ok_wp {A} (m : M A) w (Q : A → world → Prop) (E : exn → world → Prop) :
  wp m w Q E → (∀ a w', Q a w' → only_faults w w') →
  (∀ e w', E e w' → only_faults w w') → query_ok m w.
Proof. unfold wp, query_ok. destruct (m w); eauto. Qed.

Lemma iterator_incr_same i w :
  match iterator_incr i w with
  | Val _ w' => w' = w
  | Exc _ _ => False
  | UB => True
  end.
Proof.
  unfold iterator_incr, bind, load. destruct (li_node (it_iter i)); [|done].
  destruct (objs w !! li_list (it_iter i)) as [s|]; [|done].
  by destruct (node_next n (insertions s)).
Qed.

(** C9. [size], [empty], [contains], the read-only [at], [begin], [end],
    advancing an iterator and a whole walk over the container change
    nothing of the state: no structure is cloned or written, no pointer
    moves, no flag is set. *)
Theorem queries_change_nothing this k w :
  wf w → is_Some (ptrs w !! this) →
  query_ok (size_ this) w ∧ query_ok (empty_ this) w
  ∧ query_ok (contains this k) w ∧ query_ok (at_const this k) w
  ∧ query_ok (begin this) w ∧ query_ok (end_ this) w
  ∧ query_ok (to_list this) w
  ∧ ∀ i, match iterator_incr i w with
         | Val _ w' => w' = w
         | Exc _ _ => False
         | UB => True
         end.
Proof.
  intros Hw [a Hp]. destruct (wf_ptrs w Hw _ _ Hp) as [s Ho].
  split_and!.
  - unfold query_ok. rewrite (size_run this a s) by done. apply only_faults_refl.
  - eapply query_ok_wp; [by eapply empty_spec| |done].
    intros ? ? [_ ->]. apply only_faults_refl.
  - eapply query_ok_wp; [by eapply contains_spec|..].
    + by intros ? ? [_ ?].
    + by intros ? ? (_ & _ & ?).
  - eapply query_ok_wp; [by eapply at_const_spec|..].
    + by intros ? ? [_ ?].
    + intros [] w' He; simpl in He; [by destruct He|done|by destruct He].
  - unfold query_ok. rewrite (begin_spec this a s) by done. apply only_faults_refl.
  - unfold query_ok. rewrite (end_spec this a s) by done. apply only_faults_refl.
  - eapply query_ok_wp; [by eapply to_list_spec|..].
    + by intros ? ? [_ ?].
    + by intros ? ? (_ & _ & ?).
  - intros i. apply iterator_incr_same.
Qed.

(** ** The escape flag after a mutation *)

Lemma copy_construct_shared other b so w :
  ptrs w !! other = Some b → objs w !! b = Some so →
  non_const_refs_given so = false →
  copy_construct other w
  = Val (next_pid w)
        (set_next_pid (S (next_pid w)) (set_ptrs (<[next_pid w := b]> (ptrs w)) w)).
Proof.
  intros Hp Ho Hfl. unfold copy_construct, sp_copy, bind, sp_get, sp_new, load.
  rewrite Hp. simpl. rewrite lookup_insert_eq. simpl. rewrite Ho, Hfl. done.
Qed.

(** The reference handed out leads into a structure [x] owns alone. *)
Definition own_ref (x : pid) (r : ref) (w : world) : Prop :=
  ∃ s, ptrs w !! x = Some (ref_obj r) ∧ objs w !! ref_obj r = Some s
       ∧ is_Some (mappings s !! ref_key r)
       ∧ ∀ y, y ≠ x → ptrs w !! y ≠ Some (ref_obj r).

(** After the call the flag is clear, and a copy of the container shares
    its structure. *)
Definition resets_flag {A} (m : M A) (this : pid) (w : world) : Prop :=
  ∀ r w', m w = Val r w' →
    flag_of this w' = Some false
    ∧ ∀ fs, ∃ b w'', copy_construct this (set_faults fs w') = Val b w''
                     ∧ b ≠ this ∧ ptrs w'' !! b = ptrs w'' !! this.

(** A container that owns its structure alone keeps it through the call. *)
Definition in_place {A} (m : M A) (this : pid) (w : world) : Prop :=
  ∀ a r w', ptrs w !! this = Some a → owners a (ptrs w) = 1 →
            m w = Val r w' → ptrs w' !! this = Some a.

(** A reference into the structure [this] owns alone is, after the call,
    still a reference into the structure [this] owns alone. *)
Definition keeps_ref {A} (m : M A) (this : pid) (r : ref) (w : world) : Prop :=
  ∀ b w', m w = Val b w' → own_ref this r w'.

Lemma upd_own_ref this a s w w' a1 s1 s' r :
  upd this a s w w' a1 s1 s' → ptrs w !! this = Some a → own_ref this r w →
  (s1 = s → is_Some (mappings s' !! ref_key r)) →
  own_ref this r w'.
Proof.
  intros Hu Hpa (s0 & Hp & Ho & Hk & Hex) Hs'.
  rewrite Hpa in Hp. injection Hp as ->.
  assert (Hown : owners (ref_obj r) (ptrs w) = 1).
  { rewrite <- (insert_id (ptrs w) this (ref_obj r) Hpa). by apply owners_excl. }
  destruct (upd_case _ _ _ _ _ _ _ _ Hu) as [(-> & -> & _)|[_ Hlt]]; [|lia].
  exists s'. rewrite (upd_ptrs _ _ _ _ _ _ _ _ Hu), (upd_objs _ _ _ _ _ _ _ _ Hu).
  rewrite !lookup_insert_eq. split; [done|]. split; [done|]. split; [by apply Hs'|].
  intros y Hy. rewrite lookup_insert_ne by done. by apply Hex.
Qed.

Lemma changed_resets this w w' a' s' :
  changed this w w' a' s' → non_const_refs_given s' = false →
  flag_of this w' = Some false
  ∧ ∀ fs, ∃ b w'', copy_construct this (set_faults fs w') = Val b w''
                   ∧ b ≠ this ∧ ptrs w'' !! b = ptrs w'' !! this.
Proof.
  intros Hch Hfl. pose proof (changed_this _ _ _ _ _ Hch) as Hs'.
  pose proof (ch_wf _ _ _ _ _ Hch) as Hw'.
  assert (Hp' : ptrs w' !! this = Some a').
  { by rewrite (ch_ptrs _ _ _ _ _ Hch), lookup_insert_eq. }
  split; [unfold flag_of; rewrite Hs'; simpl; by rewrite Hfl|].
  intros fs. eexists _, _. split.
  { apply (copy_construct_shared this a' s'); wsimpl; [done| |done]. by eapply ch_obj. }
  assert (next_pid w' ≠ this) as Hne.
  { pose proof (wf_fresh_pid w' Hw'). congruence. }
  wsimpl. split; [done|]. rewrite lookup_insert_eq. by rewrite lookup_insert_ne.
Qed.

(** C10 (amended). Every successful [insert], [erase], [clear], and [merge]
    with another container, leaves the escape flag clear, also when the
    change was made in place on a structure the container owns alone with no
    clone; so a copy made after such a mutation shares the structure again,
    even though a mutable reference handed out before that mutation may
    still be live: a reference into the structure the container owns alone
    is one still after a successful [insert], and after a successful
    [erase] of another key. [merge] of a container with itself is the
    exception: it returns at once and leaves the state, the flag included,
    as it was. *)
Theorem mutation_resets_flag this k v w :
  wf w → is_Some (ptrs w !! this) →
  (resets_flag (insert this k v) this w ∧ in_place (insert this k v) this w)
  ∧ (resets_flag (erase this k) this w ∧ in_place (erase this k) this w)
  ∧ (resets_flag (clear this) this w ∧ in_place (clear this) this w)
  ∧ (∀ other, other ≠ this → is_Some (ptrs w !! other) →
              resets_flag (merge this other) this w)
  ∧ (∀ r, own_ref this r w →
          keeps_ref (insert this k v) this r w
          ∧ (ref_key r ≠ k → keeps_ref (erase this k) this r w))
  ∧ merge this this w = Val tt w.
Proof.
  intros Hw [a Hp]. destruct (wf_ptrs w Hw _ _ Hp) as [s Ho].
  pose proof (insert_spec this k v a s w Hw Hp Ho) as Hi.
  pose proof (erase_spec this k a s w Hw Hp Ho) as He.
  pose proof (clear_spec this a s w Hw Hp Ho) as Hc.
  unfold wp in Hi, He, Hc.
  split; [|split; [|split; [|split; [|split; [|apply merge_self]]]]].
  - split.
    + intros r w' Heq. rewrite Heq in Hi. destruct Hi as (a1 & s1 & n & _ & Hn & Hu).
      eapply changed_resets; [|apply (insert_effect_flag n k v s1)].
      eapply upd_changed; eauto. apply inv_insert_effect; [by eapply upd_base_inv|done].
    + intros a0 r w' Hp0 Hown Heq. rewrite Hp in Hp0. injection Hp0 as <-.
      rewrite Heq in Hi. destruct Hi as (a1 & s1 & n & _ & Hn & Hu).
      rewrite (upd_ptrs _ _ _ _ _ _ _ _ Hu), lookup_insert_eq. f_equal.
      eapply upd_inplace; [done|lia].
  - split.
    + intros r w' Heq. rewrite Heq in He. destruct He as (a1 & s1 & mv1 & _ & Hm & Hu).
      eapply (changed_resets this w w' a1 (erase_effect k mv1 s1)); [|done].
      eapply upd_changed; eauto. apply inv_erase_effect; [by eapply upd_base_inv|done].
    + intros a0 r w' Hp0 Hown Heq. rewrite Hp in Hp0. injection Hp0 as <-.
      rewrite Heq in He. destruct He as (a1 & s1 & mv1 & _ & Hm & Hu).
      rewrite (upd_ptrs _ _ _ _ _ _ _ _ Hu), lookup_insert_eq. f_equal.
      eapply upd_inplace; [done|lia].
  - split.
    + intros r w' Heq. rewrite Heq in Hc. destruct Hc as (a1 & s1 & Hu).
      eapply (changed_resets this w w' a1 map_structure_default); [|done].
      eapply upd_changed; eauto. apply inv_default.
    + intros a0 r w' Hp0 Hown Heq. rewrite Hp in Hp0. injection Hp0 as <-.
      rewrite Heq in Hc. destruct Hc as (a1 & s1 & Hu).
      rewrite (upd_ptrs _ _ _ _ _ _ _ _ Hu), lookup_insert_eq. f_equal.
      eapply upd_inplace; [done|lia].
  - intros other Hne [b Hpo]. destruct (wf_ptrs w Hw _ _ Hpo) as [so Hoo].
    pose proof (merge_spec this other a s b so w Hw Hne Hp Ho Hpo Hoo) as Hm.
    unfold wp in Hm. intros r w' Heq. rewrite Heq in Hm.
    destruct Hm as (s' & Hch & _ & Hfl). by eapply changed_resets.
  - intros r Hown. pose proof Hown as (s0 & Hp0 & Ho0 & Hk0 & _).
    rewrite Hp in Hp0. injection Hp0 as ->. rewrite Ho in Ho0. injection Ho0 as <-.
    split.
    + intros b w' Heq. rewrite Heq in Hi. destruct Hi as (a1 & s1 & n & _ & Hn & Hu).
      eapply upd_own_ref; [done..|]. intros ->.
      destruct (decide (ref_key r = k)) as [->|Hkk]; [apply insert_effect_lookup|].
      unfold insert_effect. destruct (mappings s !! k); simpl;
        by rewrite lookup_insert_ne.
    + intros Hkk b w' Heq. rewrite Heq in He.
      destruct He as (a1 & s1 & mv1 & _ & Hm & Hu).
      eapply upd_own_ref; [done..|]. intros ->. simpl.
      by rewrite lookup_delete_ne.
Qed.

(** ** Mutations and what they leave to the other containers *)

(** [w'] is well formed and every container but [x] is backed by the very
    structure it had in [w]. *)
Definition framed (x : pid) (w w' : world) : Prop :=
  wf w' ∧ ∀ y, y ≠ x → obj_at w' y = obj_at w y.

Lemma framed_trans x w1 w2 w3 : framed x w1 w2 → framed x w2 w3 → framed x w1 w3.
Proof.
  intros [_ H1] [Hw H2]. split; [done|]. intros y Hy. by rewrite H2, H1.
Qed.

Lemma framed_same x w w' : wf w → same_store w w' → framed x w w'.
Proof.
  intros Hw Hs. split; [by eapply same_store_wf|]. intros y _. by apply same_store_obj.
Qed.

Lemma framed_changed x w w' a' s' : changed x w w' a' s' → framed x w w'.
Proof.
  intros Hch. split; [by eapply ch_wf|]. intros y Hy. by eapply changed_frame.
Qed.

Lemma framed_flagged x a s w w' :
  wf w → ptrs w !! x = Some a → objs w !! a = Some s → flagged a s w w' →
  framed x w w'.
Proof.
  intros Hw Hp Ho Hfl. split; [by eapply flagged_wf|].
  intros y Hy. unfold obj_at. rewrite (flagged_ptrs _ _ _ _ Hfl).
  destruct (ptrs w !! y) as [c|] eqn:Hc; [|done].
  destruct (flagged_objs _ _ _ _ Hfl) as [->|[-> Hle]]; [done|].
  rewrite lookup_insert_ne; [done|]. intros <-. apply Hy. by eapply owners_unique.
Qed.

Lemma changed_own_ref x w w' a' s' k :
  changed x w w' a' s' → is_Some (mappings s' !! k) → own_ref x (Ref a' k) w'.
Proof.
  intros Hch Hk. exists s'. simpl. split; [|split; [by eapply ch_obj|split; [done|]]].
  - by rewrite (ch_ptrs _ _ _ _ _ Hch), lookup_insert_eq.
  - intros y Hy. rewrite (ch_ptrs _ _ _ _ _ Hch), lookup_insert_ne by done.
    by eapply ch_excl.
Qed.

Lemma write_framed x r v w :
  wf w → own_ref x r w → ∃ w', write_ref r v w = Val tt w' ∧ framed x w w'.
Proof.
  intros Hw (s & Hp & Ho & [mv Hm] & Hex). eexists. split; [by eapply write_ref_spec|].
  split.
  - pose proof (write_ref_wf r v w Hw) as Hwf.
    by rewrite (write_ref_spec r v s mv) in Hwf.
  - intros y Hy. unfold obj_at. wsimpl.
    destruct (ptrs w !! y) as [c|] eqn:Hc; [|done].
    rewrite lookup_insert_ne; [done|]. intros <-. by apply (Hex y).
Qed.

Section outcomes.
Context (x : pid) (w : world) (Hw : wf w) (Hlive : is_Some (ptrs w !! x)).

Lemma insert_framed k v :
  match insert x k v w with
  | Val _ w' | Exc _ w' => framed x w w'
  | UB => False
  end.
Proof.
  destruct Hlive as [a Hp]. destruct (wf_ptrs w Hw _ _ Hp) as [s Ho].
  pose proof (insert_spec x k v a s w Hw Hp Ho) as Hwp. unfold wp in Hwp.
  destruct (insert x k v w) as [b w'|e w'|]; [| |done].
  - destruct Hwp as (a1 & s1 & n & _ & Hn & Hu). eapply framed_changed.
    eapply upd_changed; eauto. apply inv_insert_effect; [by eapply upd_base_inv|done].
  - destruct Hwp as (_ & _ & Hs). by apply framed_same.
Qed.

Lemma erase_framed k :
  match erase x k w with
  | Val _ w' | Exc _ w' => framed x w w'
  | UB => False
  end.
Proof.
  destruct Hlive as [a Hp]. destruct (wf_ptrs w Hw _ _ Hp) as [s Ho].
  pose proof (erase_spec x k a s w Hw Hp Ho) as Hwp. unfold wp in Hwp.
  destruct (erase x k w) as [b w'|e w'|]; [| |done].
  - destruct Hwp as (a1 & s1 & mv1 & _ & Hm & Hu). eapply framed_changed.
    eapply upd_changed; eauto. apply inv_erase_effect; [by eapply upd_base_inv|done].
  - destruct e; simpl in Hwp; [|done|]; destruct Hwp as [_ Hs]; by apply framed_same.
Qed.

Lemma clear_framed :
  match clear x w with
  | Val _ w' | Exc _ w' => framed x w w'
  | UB => False
  end.
Proof.
  destruct Hlive as [a Hp]. destruct (wf_ptrs w Hw _ _ Hp) as [s Ho].
  pose proof (clear_spec x a s w Hw Hp Ho) as Hwp. unfold wp in Hwp.
  destruct (clear x w) as [b w'|e w'|]; [| |done].
  - destruct Hwp as (a1 & s1 & Hu). eapply framed_changed.
    eapply upd_changed; eauto. apply inv_default.
  - destruct Hwp as (_ & _ & Hs). by apply framed_same.
Qed.

Lemma merge_framed other :
  is_Some (ptrs w !! other) →
  match merge x other w with
  | Val _ w' | Exc _ w' => framed x w w'
  | UB => False
  end.
Proof.
  intros [b Hpo]. destruct (decide (other = x)) as [->|Hne].
  { rewrite merge_self. by split. }
  destruct Hlive as [a Hp]. destruct (wf_ptrs w Hw _ _ Hp) as [s Ho].
  destruct (wf_ptrs w Hw _ _ Hpo) as [so Hoo].
  pose proof (merge_spec x other a s b so w Hw Hne Hp Ho Hpo Hoo) as Hwp.
  unfold wp in Hwp.
  destruct (merge x other w) as [r w'|e w'|]; [| |done].
  - destruct Hwp as (s' & Hch & _). by eapply framed_changed.
  - destruct Hwp as (_ & _ & Hs). by apply framed_same.
Qed.

Lemma at_framed k :
  match at_ x k w with
  | Val r w' => framed x w w' ∧ own_ref x r w'
  | Exc _ w' => framed x w w'
  | UB => False
  end.
Proof.
  destruct Hlive as [a Hp]. destruct (wf_ptrs w Hw _ _ Hp) as [s Ho].
  pose proof (at_spec x k a s w Hw Hp Ho) as Hwp. unfold wp in Hwp.
  destruct (at_ x k w) as [r w'|e w'|]; [| |done].
  - destruct Hwp as (a1 & s1 & -> & [mv Hm] & Hu).
    assert (changed x w w' a1 (set_flag true s1)) as Hch.
    { eapply upd_changed; eauto. apply inv_set_flag. by eapply upd_base_inv. }
    split; [by eapply framed_changed|].
    eapply changed_own_ref; [done|]. simpl.
    pose proof (upd_base_map _ _ _ _ _ _ _ _ Hu k) as Hk. rewrite Hm in Hk.
    destruct (mappings s1 !! k); [by eexists|done].
  - destruct e; simpl in Hwp; [|done|].
    + destruct Hwp as [_ Hs]. by apply framed_same.
    + destruct Hwp as [_ Hfl]. by eapply framed_flagged.
Qed.

Lemma index_value_framed k :
  match operator_index x (KeyValue k) w with
  | Val r w' => framed x w w' ∧ own_ref x r w'
  | Exc _ w' => framed x w w'
  | UB => False
  end.
Proof.
  destruct Hlive as [a Hp]. destruct (wf_ptrs w Hw _ _ Hp) as [s Ho].
  pose proof (operator_index_spec x k a s w Hw Hp Ho) as Hwp. unfold wp in Hwp.
  destruct (operator_index x (KeyValue k) w) as [r w'|e w'|]; [| |done].
  - destruct Hwp as (a1 & s1 & n & -> & Hn & Hu).
    assert (changed x w w' a1 (set_flag true (insert_effect n k V0 s1))) as Hch.
    { eapply upd_changed; eauto.
      apply inv_set_flag, inv_insert_effect; [by eapply upd_base_inv|done]. }
    split; [by eapply framed_changed|].
    eapply changed_own_ref; [done|]. apply insert_effect_lookup.
  - destruct Hwp as (_ & _ & [Hs|(a1 & s1 & n & Hn & Hu)]); [by apply framed_same|].
    eapply framed_changed. eapply upd_changed; eauto.
    destruct (mappings s !! k).
    + apply inv_insert_effect; [by eapply upd_base_inv|done].
    + apply inv_set_flag. by eapply upd_base_inv.
Qed.

Lemma index_framed kr :
  match operator_index x kr w with
  | Val r w' => framed x w w' ∧ own_ref x r w'
  | Exc _ w' => framed x w w'
  | UB => ¬ key_survives x kr w
  end.
Proof.
  destruct (operator_index_ref x kr w Hw Hlive) as [(k & _ & _ & ->)|[Hns Hm]].
  - pose proof (index_value_framed k) as Hf.
    by destruct (operator_index x (KeyValue k) w).
  - destruct (operator_index x kr w) as [r w'|e w'|]; [done| |done].
    destruct Hm as (_ & _ & Hss). by apply framed_same.
Qed.
End outcomes.

(** The ways a program changes a container: the members, and an assignment
    through the reference returned by [operator[]] or by [at]. *)
Inductive mutation :=
  | MInsert (k : K) (v : V)      (* x.insert(k, v) *)
  | MErase (k : K)               (* x.erase(k) *)
  | MIndex (kr : key_ref) (v : V) (* x[k] = v *)
  | MAt (k : K) (v : V)          (* x.at(k) = v *)
  | MMerge (other : pid)         (* x.merge(other) *)
  | MClear.                      (* x.clear() *)

Definition mutate (x : pid) (m : mutation) : M unit :=
  match m with
  | MInsert k v => do _ <- insert x k v; ret tt
  | MErase k => erase x k
  | MIndex kr v => do r <- operator_index x kr; write_ref r v
  | MAt k v => do r <- at_ x k; write_ref r v
  | MMerge other => merge x other
  | MClear => clear x
  end.

(** The containers a mutation names are alive. *)
Definition mutation_ok (w : world) (m : mutation) : Prop :=
  match m with
  | MMerge other => is_Some (ptrs w !! other)
  | _ => True
  end.

Lemma mutate_framed x m w :
  wf w → is_Some (ptrs w !! x) → mutation_ok w m →
  match mutate x m w with
  | Val _ w' | Exc _ w' => framed x w w'
  | UB => ∃ kr v, m = MIndex kr v ∧ ¬ key_survives x kr w
  end.
Proof.
  intros Hw Hlive Hok. destruct m as [k v|k|kr v|k v|other|]; simpl mutate.
  - unfold bind. pose proof (insert_framed x w Hw Hlive k v) as Hf.
    by destruct (insert x k v w).
  - pose proof (erase_framed x w Hw Hlive k) as Hf. by destruct (erase x k w).
  - unfold bind. pose proof (index_framed x w Hw Hlive kr) as Hf.
    destruct (operator_index x kr w) as [r w1|e w1|]; [|done|by exists kr, v].
    destruct Hf as [Hf Hr].
    destruct (write_framed x r v w1 (proj1 Hf) Hr) as (w2 & -> & Hf2).
    by eapply framed_trans.
  - unfold bind. pose proof (at_framed x w Hw Hlive k) as Hf.
    destruct (at_ x k w) as [r w1|e w1|]; [|done..].
    destruct Hf as [Hf Hr].
    destruct (write_framed x r v w1 (proj1 Hf) Hr) as (w2 & -> & Hf2).
    by eapply framed_trans.
  - pose proof (merge_framed x w Hw Hlive other Hok) as Hf.
    by destruct (merge x other w).
  - pose proof (clear_framed x w Hw Hlive) as Hf. by destruct (clear x w).
Qed.

(** ** Copies *)

Lemma copy_construct_outcome a w b w1 :
  wf w → is_Some (ptrs w !! a) → copy_construct a w = Val b w1 →
  wf w1 ∧ b ≠ a ∧ is_Some (ptrs w1 !! a) ∧ is_Some (ptrs w1 !! b)
  ∧ contents b w1 = contents a w ∧ obj_at w1 a = obj_at w a.
Proof.
  intros Hw [c Hp] Heq. destruct (wf_ptrs w Hw _ _ Hp) as [s Ho].
  pose proof (copy_construct_spec a c s w Hw Hp Ho) as Hwp. unfold wp in Hwp.
  rewrite Heq in Hwp. destruct Hwp as (-> & a' & s' & [Hw1 Hp1 Ho1 Hfr _ _] & Hit & _).
  assert (next_pid w ≠ a) as Hne.
  { pose proof (wf_fresh_pid w Hw). congruence. }
  assert (Ha1 : obj_at w1 a = obj_at w a).
  { unfold obj_at. rewrite Hp1, lookup_insert_ne, Hp by done. by eapply Hfr. }
  split; [done|]. split; [done|]. rewrite Hp1. split; [|split; [|split; [|done]]].
  - rewrite lookup_insert_ne by done. by eexists.
  - rewrite lookup_insert_eq. by eexists.
  - destruct (observe_obj w a s Hw) as (_ & -> & _).
    { unfold obj_at. by rewrite Hp. }
    destruct (observe_obj w1 (next_pid w) s' Hw1) as (_ & -> & _); [|by rewrite Hit].
    unfold obj_at. by rewrite Hp1, lookup_insert_eq.
Qed.

Lemma copy_assign_outcome a b w r w1 :
  wf w → is_Some (ptrs w !! a) → is_Some (ptrs w !! b) → b ≠ a →
  copy_assign b a w = Val r w1 →
  wf w1 ∧ is_Some (ptrs w1 !! a) ∧ is_Some (ptrs w1 !! b)
  ∧ contents b w1 = contents a w ∧ obj_at w1 a = obj_at w a.
Proof.
  intros Hw [c Hp] [d Hpb] Hne Heq. destruct (wf_ptrs w Hw _ _ Hp) as [s Ho].
  pose proof (copy_assign_spec b a d c s w Hw Hpb Hp Ho) as Hwp. unfold wp in Hwp.
  rewrite Heq in Hwp. destruct Hwp as (a' & s' & [Hw1 Hp1 Ho1 Hfr _ _] & Hit & _).
  assert (Ha1 : obj_at w1 a = obj_at w a).
  { unfold obj_at. rewrite Hp1, lookup_insert_ne, Hp by done. by eapply Hfr. }
  split; [done|]. rewrite Hp1. split; [|split; [|split; [|done]]].
  - rewrite lookup_insert_ne by done. by eexists.
  - rewrite lookup_insert_eq. by eexists.
  - destruct (observe_obj w a s Hw) as (_ & -> & _).
    { unfold obj_at. by rewrite Hp. }
    destruct (observe_obj w1 b s' Hw1) as (_ & -> & _); [|by rewrite Hit].
    unfold obj_at. by rewrite Hp1, lookup_insert_eq.
Qed.

(** X23. Let [b] be a copy of [a], made by the copy constructor or by an
    assignment. The copy shows what [a] shows. A mutation made by one member
    call with its write in the same statement (insert, erase, [x[k] = v],
    [x.at(k) = v], merge, clear), applied to one of the two in the state the
    copy left, whether it returns or throws, and whether the copy shared the
    structure or cloned it, leaves the other one showing exactly what it
    showed before: same size, same pairs in the same order, same keys. The
    call has undefined behaviour in one case only: [x[k]] with a key
    reference that does not survive the call. A write through a reference
    handed out before the copy is not such a mutation. *)
Theorem copy_then_mutate_leaves_other a b w w1 x y m fs :
  wf w → is_Some (ptrs w !! a) →
  (copy_construct a w = Val b w1
   ∨ (b ≠ a ∧ is_Some (ptrs w !! b) ∧ copy_assign b a w = Val tt w1)) →
  (x = a ∧ y = b ∨ x = b ∧ y = a) →
  mutation_ok w1 m →
  contents b w1 = contents a w
  ∧ match mutate x m (set_faults fs w1) with
    | Val _ w2 | Exc _ w2 => same_view y w1 w2
    | UB => ∃ kr v, m = MIndex kr v ∧ ¬ key_survives x kr w1
    end.
Proof.
  intros Hw Ha Hcopy Hxy Hok.
  assert (wf w1 ∧ b ≠ a ∧ is_Some (ptrs w1 !! a) ∧ is_Some (ptrs w1 !! b)
          ∧ contents b w1 = contents a w) as (Hw1 & Hne & Ha1 & Hb1 & Hc).
  { destruct Hcopy as [Heq|(Hne & Hb & Heq)].
    - destruct (copy_construct_outcome a w b w1 Hw Ha Heq) as (? & ? & ? & ? & ? & _).
      done.
    - destruct (copy_assign_outcome a b w tt w1 Hw Ha Hb Hne Heq) as (? & ? & ? & ? & _).
      done. }
  split; [done|].
  assert (is_Some (ptrs w1 !! x) ∧ is_Some (ptrs w1 !! y) ∧ y ≠ x) as (Hx & Hy & Hyx).
  { destruct Hxy as [[-> ->]|[-> ->]]; split_and!; done. }
  pose proof (mutate_framed x m (set_faults fs w1) (wf_set_faults fs w1 Hw1) Hx Hok) as Hf.
  destruct (mutate x m (set_faults fs w1)) as [r w2|e w2|]; [| |done].
  - destruct Hf as [Hw2 Hf]. apply same_view_obj; [done|done|by apply live_obj|].
    by rewrite (Hf y Hyx).
  - destruct Hf as [Hw2 Hf]. apply same_view_obj; [done|done|by apply live_obj|].
    by rewrite (Hf y Hyx).
Qed.

(** ** Failures *)

Lemma same_view_flag x w w' s b :
  wf w → wf w' → obj_at w x = Some s → obj_at w' x = Some (set_flag b s) →
  same_view x w w'.
Proof. intros Hw Hw' Hs Hs'. by eapply (same_view_items x w w' s (set_flag b s)). Qed.

(** Every mutation but [x[k] = v] has the strong guarantee: when it throws,
    every container, the one it was called on included, shows what it
    showed before the call. *)
Lemma failed_mutation_leaves_view x m w e w' y :
  wf w → is_Some (ptrs w !! x) → mutation_ok w m →
  (∀ k v, m ≠ MIndex k v) →
  mutate x m w = Exc e w' → is_Some (ptrs w !! y) → same_view y w w'.
Proof.
  intros Hw Hlive Hok Hm Heq Hy.
  pose proof (mutate_framed x m w Hw Hlive Hok) as Hf. rewrite Heq in Hf.
  destruct Hf as [Hw' Hf].
  destruct (decide (y = x)) as [->|Hyx].
  2:{ apply same_view_obj; [done|done|by apply live_obj|by apply Hf]. }
  clear Hy Hf. destruct Hlive as [a Hp]. destruct (wf_ptrs w Hw _ _ Hp) as [s Ho].
  assert (Hs : obj_at w x = Some s) by (unfold obj_at; by rewrite Hp).
  assert (Hsame : ∀ w'', same_store w w'' → w'' = w' → same_view x w w').
  { intros w'' Hss ->. apply same_view_obj; [done|done|by eexists|].
    by apply same_store_obj. }
  destruct m as [k v|k|k v|k v|other|]; simpl mutate in Heq.
  - unfold bind in Heq. pose proof (insert_spec x k v a s w Hw Hp Ho) as Hwp.
    unfold wp in Hwp. destruct (insert x k v w) as [b w1|e1 w1|]; [done| |done].
    injection Heq as -> ->. destruct Hwp as (_ & _ & Hss). by eapply Hsame.
  - pose proof (erase_spec x k a s w Hw Hp Ho) as Hwp. unfold wp in Hwp.
    rewrite Heq in Hwp. destruct e; simpl in Hwp; [|done|];
      destruct Hwp as [_ Hss]; by eapply Hsame.
  - by destruct (Hm k v).
  - unfold bind in Heq. pose proof (at_spec x k a s w Hw Hp Ho) as Hwp.
    pose proof (at_framed x w Hw (ex_intro _ a Hp) k) as Hfr.
    unfold wp in Hwp. destruct (at_ x k w) as [r w1|e1 w1|]; [| |done].
    { destruct Hfr as [Hfr Hr].
      destruct (write_framed x r v w1 (proj1 Hfr) Hr) as (w2 & Hw2 & _).
      by rewrite Hw2 in Heq. }
    injection Heq as -> ->. destruct e; simpl in Hwp; [|done|].
    + destruct Hwp as [_ Hss]. by eapply Hsame.
    + destruct Hwp as [_ Hfl].
      destruct (flagged_objs _ _ _ _ Hfl) as [Hobj|[Hobj _]].
      * apply same_view_obj; [done|done|by eexists|]. unfold obj_at.
        by rewrite (flagged_ptrs _ _ _ _ Hfl), Hobj.
      * eapply (same_view_flag x w w' s false); [done|done|done|].
        unfold obj_at. by rewrite (flagged_ptrs _ _ _ _ Hfl), Hp, Hobj, lookup_insert_eq.
  - destruct (decide (other = x)) as [->|Hne].
    { by rewrite merge_self in Heq. }
    destruct Hok as [b Hpo]. destruct (wf_ptrs w Hw _ _ Hpo) as [so Hoo].
    pose proof (merge_spec x other a s b so w Hw Hne Hp Ho Hpo Hoo) as Hwp.
    unfold wp in Hwp. rewrite Heq in Hwp. destruct Hwp as (_ & _ & Hss).
    by eapply Hsame.
  - pose proof (clear_spec x a s w Hw Hp Ho) as Hwp. unfold wp in Hwp.
    rewrite Heq in Hwp. destruct Hwp as (_ & _ & Hss). by eapply Hsame.
Qed.

(** ** Reachable states *)

(** What a program does with containers, iterators and references. *)
Inductive call :=
  | CallConstruct
  | CallCopyConstruct (other : pid)
  | CallMoveConstruct (other : pid)
  | CallDestroy (this : pid)
  | CallCopyAssign (this src : pid)
  | CallMoveAssign (this src : pid)
  | CallInsert (this : pid) (k : K) (v : V)
  | CallErase (this : pid) (k : K)
  | CallMerge (this other : pid)
  | CallAt (this : pid) (k : K)
  | CallAtConst (this : pid) (k : K)
  | CallIndex (this : pid) (kr : key_ref)
  | CallSize (this : pid)
  | CallEmpty (this : pid)
  | CallClear (this : pid)
  | CallContains (this : pid) (k : K)
  | CallBegin (this : pid)
  | CallEnd (this : pid)
  | CallIncr (i : iterator)
  | CallDeref (i : iterator)
  | CallWalk (this : pid)
  | CallRead (r : ref)
  | CallWrite (r : ref) (v : V).

Definition discard {A} (m : M A) : M unit := do _ <- m; ret tt.

Definition run_call (c : call) : M unit :=
  match c with
  | CallConstruct => discard construct
  | CallCopyConstruct other => discard (copy_construct other)
  | CallMoveConstruct other => discard (move_construct other)
  | CallDestroy this => destroy this
  | CallCopyAssign this src => copy_assign this src
  | CallMoveAssign this src => move_assign this src
  | CallInsert this k v => discard (insert this k v)
  | CallErase this k => erase this k
  | CallMerge this other => merge this other
  | CallAt this k => discard (at_ this k)
  | CallAtConst this k => discard (at_const this k)
  | CallIndex this kr => discard (operator_index this kr)
  | CallSize this => discard (size_ this)
  | CallEmpty this => discard (empty_ this)
  | CallClear this => clear this
  | CallContains this k => discard (contains this k)
  | CallBegin this => discard (begin this)
  | CallEnd this => discard (end_ this)
  | CallIncr i => discard (iterator_incr i)
  | CallDeref i => discard (iterator_deref i)
  | CallWalk this => discard (to_list this)
  | CallRead r => discard (read_ref r)
  | CallWrite r v => write_ref r v
  end.

(** The containers a call names are alive. Iterators, references and the
    key reference given to [operator[]] may be stale: using them is then
    undefined, and no state is reached. *)
Definition call_ok (w : world) (c : call) : Prop :=
  match c with
  | CallConstruct | CallIncr _ | CallRead _ | CallWrite _ _ => True
  | CallCopyConstruct x | CallMoveConstruct x | CallDestroy x
  | CallInsert x _ _ | CallErase x _ | CallAt x _ | CallAtConst x _
  | CallIndex x _ | CallSize x | CallEmpty x | CallClear x | CallContains x _
  | CallBegin x | CallEnd x | CallWalk x => is_Some (ptrs w !! x)
  | CallDeref i => is_Some (ptrs w !! it_ptr i)
  | CallCopyAssign x y | CallMoveAssign x y | CallMerge x y =>
      is_Some (ptrs w !! x) ∧ is_Some (ptrs w !! y)
  end.

Definition outcome {A} (r : result A) : option world :=
  match r with
  | Val _ w | Exc _ w => Some w
  | UB => None
  end.

(** The states a program reaches from the initial one; before each call
    the schedule of faults is arbitrary. *)
Inductive reachable : world → Prop :=
  | reach_init : reachable init_world
  | reach_call w c fs w' :
      reachable w → call_ok w c →
      outcome (run_call c (set_faults fs w)) = Some w' →
      reachable w'.

Lemma discard_outcome {A} (m : M A) w : outcome (discard m w) = outcome (m w).
Proof. unfold discard, bind. by destruct (m w). Qed.

Lemma outcome_wp {A} (m : M A) w Q E (P : world → Prop) w' :
  wp m w Q E → (∀ a w', Q a w' → P w') → (∀ e w', E e w' → P w') →
  outcome (m w) = Some w' → P w'.
Proof. unfold wp. destruct (m w); simpl; intros ? ? ? [= <-]; eauto. Qed.

Lemma outcome_framed {A} (m : M A) x w w' :
  match m w with
  | Val _ w' | Exc _ w' => framed x w w'
  | UB => False
  end →
  outcome (m w) = Some w' → wf w'.
Proof. destruct (m w); simpl; intros Hf [= <-]; by destruct Hf. Qed.

Lemma only_faults_wf w w' : wf w → only_faults w w' → wf w'.
Proof. intros Hw (fs & -> & _). by apply wf_set_faults. Qed.

Lemma iterator_deref_wf i w w' :
  wf w → is_Some (ptrs w !! it_ptr i) →
  outcome (iterator_deref i w) = Some w' → wf w'.
Proof.
  intros Hw [a Hp]. destruct (wf_ptrs w Hw _ _ Hp) as [s Ho].
  unfold iterator_deref, bind, load. destruct (li_node (it_iter i)); [|done].
  destruct (objs w !! li_list (it_iter i)) as [t|]; [|done].
  destruct (node_key n (insertions t)) as [k|]; [|done].
  pose proof (at_const_spec (it_ptr i) k a s w Hp Ho) as Hwp. unfold wp in Hwp.
  destruct (at_const (it_ptr i) k w) as [v w1|e w1|]; [| |done]; simpl; intros [= <-].
  - destruct Hwp as [_ Hof]. by eapply only_faults_wf.
  - destruct e; simpl in Hwp; [|done|]; destruct Hwp as [_ Hof];
      by eapply only_faults_wf.
Qed.

Lemma run_call_wf c w w' :
  wf w → call_ok w c → outcome (run_call c w) = Some w' → wf w'.
Proof.
  intros Hw Hok. destruct c; simpl run_call; simpl in Hok;
    rewrite ?discard_outcome.
  - eapply outcome_wp; [by apply construct_spec|..].
    + by intros ? ? (_ & ? & _).
    + intros ? ? (_ & _ & ?). by eapply same_store_wf.
  - destruct Hok as [b Hp]. destruct (wf_ptrs w Hw _ _ Hp) as [s Ho].
    eapply outcome_wp; [by eapply copy_construct_spec|..].
    + intros ? ? (_ & ? & ? & Hb & _). by destruct Hb.
    + intros ? ? (_ & _ & ?). by eapply same_store_wf.
  - destruct Hok as [b Hp]. destruct (wf_ptrs w Hw _ _ Hp) as [s Ho].
    eapply outcome_wp; [by eapply move_construct_spec|..].
    + by intros ? ? (_ & ? & _).
    + intros ? ? (_ & _ & ?). by eapply same_store_wf.
  - destruct Hok as [b Hp].
    eapply outcome_wp; [by eapply destroy_spec|..]; [|done].
    by intros ? ? (? & _).
  - destruct Hok as [[a Hp] [b Hpb]]. destruct (wf_ptrs w Hw _ _ Hpb) as [s Ho].
    eapply outcome_wp; [by eapply copy_assign_spec|..].
    + intros ? ? (? & ? & Hb & _). by destruct Hb.
    + intros ? ? (_ & _ & ?). by eapply same_store_wf.
  - destruct Hok as [[a Hp] [b Hpb]]. destruct (wf_ptrs w Hw _ _ Hpb) as [s Ho].
    eapply outcome_wp; [by eapply move_assign_spec|..]; done.
  - eapply outcome_framed. by apply insert_framed.
  - eapply outcome_framed. by apply erase_framed.
  - destruct Hok as [Hx Hy]. eapply outcome_framed. by apply merge_framed.
  - intros Heq. pose proof (at_framed this w Hw Hok k) as Hf.
    destruct (at_ this k w); simpl in Heq; [| |done]; injection Heq as <-.
    + by destruct Hf as [[? _] _].
    + by destruct Hf.
  - destruct Hok as [a Hp]. destruct (wf_ptrs w Hw _ _ Hp) as [s Ho].
    eapply outcome_wp; [by eapply at_const_spec|..].
    + intros ? ? [_ Hof]. by eapply only_faults_wf.
    + intros [] ? He; simpl in He; [|done|]; destruct He as [_ Hof];
        by eapply only_faults_wf.
  - intros Heq. pose proof (index_framed this w Hw Hok kr) as Hf.
    destruct (operator_index this kr w); simpl in Heq; [| |done]; injection Heq as <-.
    + by destruct Hf as [[? _] _].
    + by destruct Hf.
  - destruct Hok as [a Hp]. destruct (wf_ptrs w Hw _ _ Hp) as [s Ho].
    rewrite (size_run this a s) by done. by intros [= <-].
  - destruct Hok as [a Hp]. destruct (wf_ptrs w Hw _ _ Hp) as [s Ho].
    eapply outcome_wp; [by eapply empty_spec|..]; [|done]. by intros ? ? [_ ->].
  - eapply outcome_framed. by apply clear_framed.
  - destruct Hok as [a Hp]. destruct (wf_ptrs w Hw _ _ Hp) as [s Ho].
    eapply outcome_wp; [by eapply contains_spec|..].
    + intros ? ? [_ Hof]. by eapply only_faults_wf.
    + intros ? ? (_ & _ & Hof). by eapply only_faults_wf.
  - destruct Hok as [a Hp]. destruct (wf_ptrs w Hw _ _ Hp) as [s Ho].
    rewrite (begin_spec this a s) by done. by intros [= <-].
  - destruct Hok as [a Hp]. destruct (wf_ptrs w Hw _ _ Hp) as [s Ho].
    rewrite (end_spec this a s) by done. by intros [= <-].
  - pose proof (iterator_incr_same i w) as Hi.
    destruct (iterator_incr i w); simpl; [|done..]. intros [= <-]. by subst.
  - by apply iterator_deref_wf.
  - destruct Hok as [a Hp]. destruct (wf_ptrs w Hw _ _ Hp) as [s Ho].
    eapply outcome_wp; [by eapply to_list_spec|..].
    + intros ? ? [_ Hof]. by eapply only_faults_wf.
    + intros ? ? (_ & _ & Hof). by eapply only_faults_wf.
  - unfold read_ref, bind, load. destruct (objs w !! ref_obj r) as [s|]; [|done].
    destruct (mappings s !! ref_key r); [|done]. by intros [= <-].
  - pose proof (write_ref_wf r v w Hw) as Hf.
    destruct (write_ref r v w); simpl; [| |done]; by intros [= <-].
Qed.

Lemma reachable_wf w : reachable w → wf w.
Proof.
  induction 1 as [|w c fs w' _ IH Hok Hout]; [apply wf_init|].
  apply (run_call_wf c (set_faults fs w) w');
    [by apply wf_set_faults|exact Hok|exact Hout].
Qed.

(** The invariant of the shared state, as the design document words it. *)
Definition shared_state_inv (s : map_structure) : Prop :=
  length (insertions s) = size (mappings s)
  ∧ (∀ k mv, mappings s !! k = Some mv → (iter mv, k) ∈ insertions s)
  ∧ (∀ k1 k2 mv1 mv2,
       mappings s !! k1 = Some mv1 → mappings s !! k2 = Some mv2 →
       iter mv1 = iter mv2 → k1 = k2).

Lemma inv_shared_state s : inv s → shared_state_inv s.
Proof.
  intros Hi. split; [by apply inv_length|]. split; [apply Hi|].
  intros k1 k2 mv1 mv2. by apply inv_iter_inj.
Qed.

(** C8. In every state a program can reach, every shared state has as
    many elements in its order sequence as entries in its index, every
    entry points to a slot of the sequence that holds its key, and no two
    entries point to the same slot. A clone of such a shared state
    satisfies the same, and so does every state reached by one more call. *)
Theorem reachable_shared_state_inv w :
  reachable w →
  (∀ a s, objs w !! a = Some s →
     shared_state_inv s ∧ ∀ n0, shared_state_inv (map_structure_copy n0 s))
  ∧ ∀ c fs w', call_ok w c →
       outcome (run_call c (set_faults fs w)) = Some w' →
       ∀ a s, objs w' !! a = Some s → shared_state_inv s.
Proof.
  intros Hr. pose proof (reachable_wf w Hr) as Hw. split.
  - intros a s Ho. assert (inv s) as Hi by by eapply wf_inv.
    split; [by apply inv_shared_state|]. intros n0.
    by apply inv_shared_state, inv_copy.
  - intros c fs w' Hok Hout a s Ho. apply inv_shared_state.
    assert (wf w') as Hw'.
    { apply (run_call_wf c (set_faults fs w) w');
        [by apply wf_set_faults|exact Hok|exact Hout]. }
    by eapply wf_inv.
Qed.

(** Programs as lists of calls, run without faults. *)
Global Instance call_ok_dec w c : Decision (call_ok w c).
Proof. destruct c; simpl; apply _. Defined.

Fixpoint run_calls (cs : list call) (w : world) : option world :=
  match cs with
  | [] => Some w
  | c :: cs' =>
      if decide (call_ok w c)
      then match outcome (run_call c (set_faults [] w)) with
           | Some w' => run_calls cs' w'
           | None => None
           end
      else None
  end.

Lemma run_calls_reachable cs : ∀ w w',
  reachable w → run_calls cs w = Some w' → reachable w'.
Proof.
  induction cs as [|c cs IH]; intros w w' Hr; simpl.
  - by intros [= <-].
  - destruct (decide (call_ok w c)) as [Hok|]; [|done].
    destruct (outcome (run_call c (set_faults [] w))) as [w1|] eqn:Hout; [|done].
    apply IH. by eapply reach_call.
Qed.

(** * Further properties of the members *)

(** ** What a walk shows, and the queries *)

Lemma contents_nodup this l w : wf w → contents this w = Some l → NoDup l.*1.
Proof.
  intros Hw Hc. destruct (contents_items _ _ _ Hw Hc) as (s & Hs & <-).
  pose proof Hs as (a & Hp & Ho)%obj_at_Some.
  assert (inv s) as Hi by by eapply wf_inv.
  rewrite items_keys by done. by apply inv_keys_nodup.
Qed.

Lemma filter_key_length (l : list (K * V)) k :
  NoDup l.*1 → k ∈ l.*1 → S (length (filter (λ p, p.1 ≠ k) l)) = length l.
Proof.
  induction l as [|p l IH]; csimpl; intros Hnd Hin; [by apply elem_of_nil in Hin|].
  apply NoDup_cons in Hnd as [Hp Hnd].
  destruct (decide (p.1 = k)) as [Heq|Hne].
  - rewrite filter_cons_False by (intros Hn; by apply Hn). f_equal.
    rewrite <- (length_fmap fst), filter_fst_keys, filter_ne_notin, length_fmap;
      [done|congruence].
  - rewrite filter_cons_True by done. simpl. f_equal. apply IH; [done|].
    apply elem_of_cons in Hin as [?|?]; [congruence|done].
Qed.

Lemma filter_key_notin (l : list (K * V)) k : k ∉ (filter (λ p, p.1 ≠ k) l).*1.
Proof.
  intros ([k' v] & -> & [Hne _]%list_elem_of_filter)%list_elem_of_fmap. by apply Hne.
Qed.

Lemma contains_outcome this k l w :
  wf w → contents this w = Some l →
  match contains this k w with
  | Val b w' => b = bool_decide (k ∈ l.*1) ∧ only_faults w w'
  | Exc e w' => e = injected_failure ∧ faults w ≠ [] ∧ only_faults w w'
  | UB => False
  end.
Proof.
  intros Hw Hc. destruct (contents_items _ _ _ Hw Hc) as (s & Hs & <-).
  pose proof Hs as (a & Hp & Ho)%obj_at_Some.
  assert (inv s) as Hi by by eapply wf_inv.
  pose proof (contains_spec this k a s w Hp Ho) as Hwp. unfold wp in Hwp.
  destruct (contains this k w) as [b w'|e w'|]; [|done..].
  destruct Hwp as [-> Hof]. split; [|done]. apply bool_decide_ext.
  rewrite items_keys by done. symmetry. by apply inv_key_in_list.
Qed.

Lemma at_const_outcome this k l w :
  wf w → contents this w = Some l →
  match at_const this k w with
  | Val v w' => assoc k l = Some v ∧ only_faults w w'
  | Exc e w' =>
      (e = lookup_error ∧ assoc k l = None ∨ e = injected_failure ∧ faults w ≠ [])
      ∧ only_faults w w'
  | UB => False
  end.
Proof.
  intros Hw Hc. destruct (contents_items _ _ _ Hw Hc) as (s & Hs & <-).
  pose proof Hs as (a & Hp & Ho)%obj_at_Some.
  assert (inv s) as Hi by by eapply wf_inv.
  pose proof (at_const_spec this k a s w Hp Ho) as Hwp. unfold wp in Hwp.
  rewrite assoc_items by done.
  destruct (at_const this k w) as [v w'|e w'|]; [| |done].
  - destruct Hwp as [(mv & Hm & ->) Hof]. by rewrite Hm.
  - destruct e; simpl in Hwp; [|done|]; destruct Hwp as [Hn Hof]; split; try done.
    + left. by rewrite Hn.
    + by right.
Qed.

(** X1. The queries agree with what a walk from [begin()] to [end()]
    shows: no key is shown twice, [size()] is the number of pairs shown,
    [empty()] holds exactly when none is shown, [contains(k)] exactly when
    [k] is among the keys shown, and the read-only [at(k)] returns the value
    shown with [k]. *)
Theorem queries_agree_with_walk this k l w :
  wf w → contents this w = Some l →
  NoDup l.*1
  ∧ size_ this w = Val (length l) w
  ∧ empty_ this w = Val (bool_decide (l = [])) w
  ∧ (∀ b w', contains this k w = Val b w' → b = bool_decide (k ∈ l.*1))
  ∧ (∀ v w', at_const this k w = Val v w' → assoc k l = Some v)
  ∧ (faults w = [] →
       contains this k w = Val (bool_decide (k ∈ l.*1)) w
       ∧ ∀ v, assoc k l = Some v → at_const this k w = Val v w).
Proof.
  intros Hw Hc. split; [by eapply contents_nodup|].
  pose proof (contains_outcome this k l w Hw Hc) as Hcs.
  pose proof (at_const_outcome this k l w Hw Hc) as Has.
  destruct (contents_items _ _ _ Hw Hc) as (s & Hs & <-).
  pose proof Hs as (a & Hp & Ho)%obj_at_Some.
  assert (inv s) as Hi by by eapply wf_inv.
  split; [|split; [|split; [|split]]].
  - rewrite (size_run this a s) by done. by rewrite items_length.
  - pose proof (empty_spec this a s w Hp Ho) as He. unfold wp in He.
    destruct (empty_ this w) as [b w'|e w'|]; [|done..].
    destruct He as [-> ->]. f_equal. apply bool_decide_ext.
    split; intros H; apply length_zero_iff_nil.
    + rewrite items_length by done. by rewrite H.
    + rewrite <- items_length by done. by rewrite H.
  - intros b w' Heq. rewrite Heq in Hcs. by destruct Hcs.
  - intros v w' Heq. rewrite Heq in Has. by destruct Has.
  - intros Hf. split.
    + destruct (contains this k w) as [b w'|e w'|]; [| |done].
      * destruct Hcs as [-> Hof]. by rewrite (only_faults_quiet _ _ Hof Hf).
      * by destruct Hcs as (_ & ? & _).
    + intros v Hv. destruct (at_const this k w) as [v' w'|e w'|]; [| |done].
      * destruct Has as [Hv' Hof]. rewrite Hv in Hv'. injection Hv' as <-.
        by rewrite (only_faults_quiet _ _ Hof Hf).
      * destruct Has as [[[_ Hn]|[_ Hn]] _]; [by rewrite Hn in Hv|done].
Qed.

(** ** erase, clear, at *)

Lemma erase_outcome this k l w :
  wf w → contents this w = Some l →
  match erase this k w with
  | Val _ w' =>
      wf w' ∧ k ∈ l.*1
      ∧ contents this w' = Some (filter (λ p, p.1 ≠ k) l)
      ∧ flag_of this w' = Some false
  | Exc e w' =>
      e = lookup_error ∧ k ∉ l.*1 ∨ e = injected_failure ∧ faults w ≠ []
  | UB => False
  end.
Proof.
  intros Hw Hc. destruct (contents_items _ _ _ Hw Hc) as (s & Hs & <-).
  pose proof Hs as (a & Hp & Ho)%obj_at_Some.
  assert (inv s) as Hi by by eapply wf_inv.
  pose proof (erase_spec this k a s w Hw Hp Ho) as Hwp. unfold wp in Hwp.
  destruct (erase this k w) as [[] w'|e w'|]; [| |done].
  - destruct Hwp as (a1 & s1 & mv1 & Hk & Hm & Hu).
    assert (inv (erase_effect k mv1 s1)) as Hi'.
    { apply inv_erase_effect; [by eapply upd_base_inv|done]. }
    pose proof (upd_changed _ _ _ _ _ _ _ _ Hw Hp Hu Hi') as Hch.
    pose proof (changed_this _ _ _ _ _ Hch) as Hs'.
    pose proof (ch_wf _ _ _ _ _ Hch) as Hw'.
    destruct (observe_obj w' this _ Hw' Hs') as (_ & Hct & _).
    rewrite items_erase_effect in Hct by (by try eapply upd_base_inv).
    rewrite (upd_base_items _ _ _ _ _ _ _ _ Hu) in Hct.
    split; [done|]. split; [|split; [done|unfold flag_of; by rewrite Hs']].
    rewrite items_keys by done. by apply inv_key_in_list.
  - destruct e; simpl in Hwp; [|done|]; destruct Hwp as [Hn _]; [left|by right].
    split; [done|]. rewrite items_keys by done. intros Hin.
    apply inv_key_in_list in Hin as [mv Hm]; [|done]. by rewrite Hn in Hm.
Qed.

(** X2. [erase] of a key that is present removes its pair and nothing
    else: the other pairs keep their values and their order, the size goes
    down by one, the key is no longer contained and the escape flag is
    clear. When no library call fails, the call returns. *)
Theorem erase_removes_pair this k l w :
  wf w → contents this w = Some l → k ∈ l.*1 →
  (∀ w', erase this k w = Val tt w' →
     contents this w' = Some (filter (λ p, p.1 ≠ k) l)
     ∧ (∃ n, size_of this w' = Some n ∧ S n = length l)
     ∧ has_key this k w' = Some false
     ∧ flag_of this w' = Some false)
  ∧ (faults w = [] → ∃ w', erase this k w = Val tt w').
Proof.
  intros Hw Hc Hk. pose proof (contents_nodup _ _ _ Hw Hc) as Hnd.
  pose proof (erase_outcome this k l w Hw Hc) as Her.
  split.
  - intros w' Heq. rewrite Heq in Her. destruct Her as (Hw' & _ & Hct & Hfl).
    destruct (contents_items _ _ _ Hw' Hct) as (s' & Hs' & Hit).
    destruct (observe_obj w' this s' Hw' Hs') as (Hsz & _ & Hks).
    split; [done|]. split; [|split; [|done]].
    + exists (length (items s')). split; [done|]. rewrite Hit.
      by apply filter_key_length.
    + rewrite Hks, Hit. f_equal. apply bool_decide_eq_false_2, filter_key_notin.
  - intros Hf. destruct (erase this k w) as [[] w'|e w'|]; [by eexists| |done].
    by destruct Her as [[_ Hn]|[_ Hn]].
Qed.

(** X3. After a successful [clear] the container shows nothing: a walk is
    empty, [size()] is 0, [empty()] holds, no key is contained, and the
    escape flag is clear. When it throws, the container shows what it showed
    before. When no library call fails, the call returns. *)
Theorem clear_empties this l w :
  wf w → contents this w = Some l →
  match clear this w with
  | Val _ w' =>
      contents this w' = Some [] ∧ size_ this w' = Val 0 w'
      ∧ empty_ this w' = Val true w'
      ∧ (∀ k, has_key this k w' = Some false)
      ∧ flag_of this w' = Some false
  | Exc e w' => e = injected_failure ∧ faults w ≠ [] ∧ same_view this w w'
  | UB => False
  end
  ∧ (faults w = [] → ∃ w', clear this w = Val tt w').
Proof.
  intros Hw Hc.
  destruct (contents_items _ _ _ Hw Hc) as (s & Hs & <-).
  pose proof Hs as (a & Hp & Ho)%obj_at_Some.
  pose proof (clear_spec this a s w Hw Hp Ho) as Hwp. unfold wp in Hwp.
  destruct (clear this w) as [[] w'|e w'|]; [| |done].
  - split; [|by eexists]. destruct Hwp as (a1 & s1 & Hu).
    pose proof (upd_changed _ _ _ _ _ _ _ _ Hw Hp Hu inv_default) as Hch.
    pose proof (changed_this _ _ _ _ _ Hch) as Hs'.
    pose proof (ch_wf _ _ _ _ _ Hch) as Hw'.
    destruct (observe_obj w' this _ Hw' Hs') as (_ & Hct & Hks).
    pose proof Hs' as (a' & Hp' & Ho')%obj_at_Some.
    split; [done|]. split; [by rewrite (size_run this a' map_structure_default)|].
    split; [|split].
    + pose proof (empty_spec this a' _ w' Hp' Ho') as He. unfold wp in He.
      destruct (empty_ this w') as [b w''|e w''|]; [|done..].
      by destruct He as [-> ->].
    + intros k. by rewrite Hks.
    + unfold flag_of. by rewrite Hs'.
  - destruct Hwp as (-> & Hf & Hss). split; [|done].
    split; [done|]. split; [done|].
    apply same_view_obj; [done|by eapply same_store_wf|by eexists|].
    by apply same_store_obj.
Qed.

(** X4. When no library call fails, the mutable [at] on a key that is
    present returns a reference to its value, leaves what the container
    shows as it was, and sets the escape flag. A write through the
    reference replaces the value of that key and nothing else: the order
    and the other values stay. *)
Theorem at_refers_to_value this k v0 l w :
  wf w → contents this w = Some l → assoc k l = Some v0 → faults w = [] →
  ∃ r w', at_ this k w = Val r w'
    ∧ read_ref r w' = Val v0 w'
    ∧ contents this w' = Some l
    ∧ flag_of this w' = Some true
    ∧ ∀ v, ∃ w'', write_ref r v w' = Val tt w''
                  ∧ contents this w'' = Some (spec_write l k v)
                  ∧ read_ref r w'' = Val v w''.
Proof.
  intros Hw Hc Hk Hf.
  destruct (contents_items _ _ _ Hw Hc) as (s & Hs & <-).
  pose proof Hs as (a & Hp & Ho)%obj_at_Some.
  assert (inv s) as Hi by by eapply wf_inv.
  pose proof (at_spec this k a s w Hw Hp Ho) as Hwp. unfold wp in Hwp.
  destruct (at_ this k w) as [r w'|e w'|]; [| |done].
  2:{ rewrite assoc_items in Hk by done.
      destruct e; simpl in Hwp; [|done|]; destruct Hwp as [Hn _]; [|done].
      by rewrite Hn in Hk. }
  destruct Hwp as (a1 & s1 & -> & _ & Hu).
  assert (inv (set_flag true s1)) as Hi'.
  { apply inv_set_flag. by eapply upd_base_inv. }
  pose proof (upd_changed _ _ _ _ _ _ _ _ Hw Hp Hu Hi') as Hch.
  pose proof (changed_this _ _ _ _ _ Hch) as Hs'.
  pose proof (ch_wf _ _ _ _ _ Hch) as Hw'.
  pose proof (ch_obj _ _ _ _ _ Hch) as Ho'.
  assert (Hit : items (set_flag true s1) = items s).
  { change (items (set_flag true s1)) with (items s1).
    by eapply upd_base_items. }
  assert (∃ mv1, mappings s1 !! k = Some mv1 ∧ value mv1 = v0) as (mv1 & Hm1 & Hv1).
  { pose proof (upd_base_map _ _ _ _ _ _ _ _ Hu k) as Hb.
    rewrite assoc_items in Hk by done. rewrite <- Hb in Hk.
    destruct (mappings s1 !! k) as [mv1|]; [|done]. exists mv1. split; [done|].
    by injection Hk. }
  exists (Ref a1 k), w'. split; [done|]. split; [|split; [|split]].
  - rewrite (read_ref_spec _ (set_flag true s1) mv1) by done. by rewrite Hv1.
  - destruct (observe_obj w' this _ Hw' Hs') as (_ & -> & _). by rewrite Hit.
  - unfold flag_of. by rewrite Hs'.
  - intros v. eexists. split; [by apply (write_ref_spec _ _ (set_flag true s1) mv1)|].
    pose proof (write_ref_wf (Ref a1 k) v w' Hw') as Hw''.
    rewrite (write_ref_spec _ _ (set_flag true s1) mv1) in Hw'' by done.
    simpl ref_obj in *. simpl ref_key in *. split.
    + match goal with |- contents this ?w2 = _ =>
        destruct (observe_obj w2 this (write_effect k mv1 v (set_flag true s1)) Hw'')
          as (_ & -> & _) end.
      * unfold obj_at. wsimpl. pose proof Hs' as (a' & Hp' & _)%obj_at_Some.
        rewrite (ch_ptrs _ _ _ _ _ Hch), lookup_insert_eq. by rewrite lookup_insert_eq.
      * rewrite (items_write_effect k mv1) by done. by rewrite Hit.
    + unfold read_ref, bind, load. wsimpl. rewrite lookup_insert_eq. simpl.
      by rewrite lookup_insert_eq.
Qed.

(** ** Constructors and assignment *)

Lemma obj_at_fresh_ptr w w' x a' y :
  wf w → ptrs w' = <[x := a']> (ptrs w) → ptrs w !! x = None →
  (∀ c, ptrs w !! y = Some c → objs w' !! c = objs w !! c) →
  is_Some (ptrs w !! y) → obj_at w' y = obj_at w y.
Proof.
  intros Hw Hp Hx Hfr [c Hc]. unfold obj_at.
  rewrite Hp, lookup_insert_ne by congruence. rewrite Hc. by apply Hfr.
Qed.

Lemma same_store_views w w' y :
  wf w → same_store w w' → is_Some (ptrs w !! y) → same_view y w w'.
Proof.
  intros Hw Hss Hy. apply same_view_obj; [done|by eapply same_store_wf| |].
  - by apply live_obj.
  - by apply same_store_obj.
Qed.

(** X5. The default constructor gives a new container that shows nothing
    and whose escape flag is clear; the containers alive show what they
    showed. When it throws, nothing has changed. When no library call
    fails, it returns. *)
Theorem construct_is_empty w :
  wf w →
  match construct w with
  | Val x w' =>
      ptrs w !! x = None
      ∧ contents x w' = Some [] ∧ flag_of x w' = Some false
      ∧ ∀ y, is_Some (ptrs w !! y) → same_view y w w'
  | Exc e w' =>
      e = injected_failure ∧ faults w ≠ []
      ∧ ∀ y, is_Some (ptrs w !! y) → same_view y w w'
  | UB => False
  end
  ∧ (faults w = [] → ∃ x w', construct w = Val x w').
Proof.
  intros Hw. pose proof (construct_spec w Hw) as Hwp. unfold wp in Hwp.
  destruct (construct w) as [x w'|e w'|]; [| |done].
  - split; [|by eexists _, _].
    destruct Hwp as (-> & Hw' & Hp' & Ho' & _ & _).
    pose proof (wf_fresh_pid w Hw) as Hnp.
    assert (Hx : obj_at w' (next_pid w) = Some map_structure_default).
    { unfold obj_at. by rewrite Hp', lookup_insert_eq, Ho', lookup_insert_eq. }
    destruct (observe_obj w' _ _ Hw' Hx) as (_ & Hct & _).
    split; [done|]. split; [done|]. split; [unfold flag_of; by rewrite Hx|].
    intros y Hy. apply same_view_obj; [done|done|by apply live_obj|].
    apply (obj_at_fresh_ptr w w' (next_pid w) (next_addr w)); try done.
    intros c Hc. rewrite Ho', lookup_insert_ne; [done|].
    intros Heq'. rewrite <- Heq' in *. by apply (wf_fresh_addr_ptr w y Hw).
  - destruct Hwp as (-> & Hf & Hss). split; [|done].
    split; [done|]. split; [done|]. intros y Hy. by apply same_store_views.
Qed.

(** X6. The move constructor hands the structure of the source over as it
    is: the new container holds the very structure the source held, so it
    shows what the source showed, with the same escape flag, and references
    handed out by the source now lead into the new container. The source
    is left showing nothing, with a clear flag, and every other container
    shows what it showed. When the allocation of the empty structure
    throws, nothing has changed. *)
Theorem move_construct_transfers other l w :
  wf w → contents other w = Some l →
  match move_construct other w with
  | Val x w' =>
      x ≠ other ∧ ptrs w !! x = None
      ∧ ptrs w' !! x = ptrs w !! other
      ∧ contents x w' = Some l ∧ flag_of x w' = flag_of other w
      ∧ contents other w' = Some [] ∧ flag_of other w' = Some false
      ∧ ∀ y, y ≠ other → is_Some (ptrs w !! y) → same_view y w w'
  | Exc e w' =>
      e = injected_failure ∧ faults w ≠ []
      ∧ ∀ y, is_Some (ptrs w !! y) → same_view y w w'
  | UB => False
  end
  ∧ (faults w = [] → ∃ x w', move_construct other w = Val x w').
Proof.
  intros Hw Hc.
  destruct (contents_items _ _ _ Hw Hc) as (s & Hs & <-).
  pose proof Hs as (b & Hp & Ho)%obj_at_Some.
  pose proof (move_construct_spec other b s w Hw Hp Ho) as Hwp. unfold wp in Hwp.
  destruct (move_construct other w) as [x w'|e w'|]; [| |done].
  - split; [|by eexists _, _].
    destruct Hwp as (-> & Hw' & Hp' & Ho' & _ & _).
    pose proof (wf_fresh_pid w Hw) as Hnp.
    pose proof (wf_fresh_addr w Hw) as Hna.
    assert (next_pid w ≠ other) as Hne by congruence.
    assert (b ≠ next_addr w) as Hbne by congruence.
    assert (Hx : obj_at w' (next_pid w) = Some s).
    { unfold obj_at. rewrite Hp', lookup_insert_ne, lookup_insert_eq by done.
      by rewrite Ho', lookup_insert_ne. }
    assert (Hoth : obj_at w' other = Some map_structure_default).
    { unfold obj_at. by rewrite Hp', lookup_insert_eq, Ho', lookup_insert_eq. }
    destruct (observe_obj w' _ _ Hw' Hx) as (_ & Hct & _).
    destruct (observe_obj w' _ _ Hw' Hoth) as (_ & Hcto & _).
    split; [done|]. split; [done|]. split.
    { by rewrite Hp', lookup_insert_ne, lookup_insert_eq. }
    split; [done|]. split; [unfold flag_of; by rewrite Hx, Hs|].
    split; [done|]. split; [unfold flag_of; by rewrite Hoth|].
    intros y Hy [c Hyc]. apply same_view_obj; [done|done|apply live_obj; by eauto|].
    unfold obj_at. rewrite Hp', !lookup_insert_ne, Hyc by congruence.
    rewrite Ho', lookup_insert_ne; [done|].
    intros Heq'. rewrite <- Heq' in *. by apply (wf_fresh_addr_ptr w y Hw).
  - destruct Hwp as (-> & Hf & Hss). split; [|done].
    split; [done|]. split; [done|]. intros y Hy. by apply same_store_views.
Qed.

(** X7. The copy constructor shares the structure of the source exactly
    when the escape flag of the source is clear; otherwise the copy gets a
    clone. Either way the copy shows what the source shows, its flag is
    clear, and the source keeps its structure and its flag. When the clone
    cannot be made, nothing has changed. *)
Theorem copy_shares_unless_flagged other f w :
  wf w → flag_of other w = Some f →
  match copy_construct other w with
  | Val x w' =>
      x ≠ other ∧ ptrs w !! x = None
      ∧ (ptrs w' !! x = ptrs w' !! other ↔ f = false)
      ∧ contents x w' = contents other w
      ∧ flag_of x w' = Some false
      ∧ obj_at w' other = obj_at w other
      ∧ ∀ y, is_Some (ptrs w !! y) → same_view y w w'
  | Exc e w' =>
      e = injected_failure ∧ faults w ≠ [] ∧ f = true
      ∧ ∀ y, is_Some (ptrs w !! y) → same_view y w w'
  | UB => False
  end.
Proof.
  intros Hw Hfl. unfold flag_of in Hfl.
  destruct (obj_at w other) as [s|] eqn:Hs; [|done]. injection Hfl as <-.
  pose proof Hs as (b & Hp & Ho)%obj_at_Some.
  pose proof (copy_construct_spec other b s w Hw Hp Ho) as Hwp. unfold wp in Hwp.
  pose proof (wf_fresh_pid w Hw) as Hnp.
  pose proof (wf_fresh_addr w Hw) as Hna.
  destruct (copy_construct other w) as [x w'|e w'|] eqn:Heq; [| |done].
  - destruct Hwp as (-> & a' & s' & [Hw' Hp' Ho' Hfr _ _] & Hit & Hfl' & Hcase).
    assert (next_pid w ≠ other) as Hne by congruence.
    assert (Hfrm : ∀ y, is_Some (ptrs w !! y) → obj_at w' y = obj_at w y).
    { intros y Hy. apply (obj_at_fresh_ptr w w' (next_pid w) a'); try done.
      intros c Hc. by eapply Hfr. }
    assert (Hx : obj_at w' (next_pid w) = Some s').
    { unfold obj_at. by rewrite Hp', lookup_insert_eq. }
    split; [done|]. split; [done|]. split; [|split; [|split; [|split]]].
    + rewrite Hp', lookup_insert_eq, lookup_insert_ne, Hp by done.
      destruct (non_const_refs_given s); subst a'.
      * split; [|done]. intros [= Heq']. congruence.
      * done.
    + destruct (observe_obj w' _ _ Hw' Hx) as (_ & -> & _).
      destruct (observe_obj w _ _ Hw Hs) as (_ & -> & _). by rewrite Hit.
    + unfold flag_of. by rewrite Hx, <- Hfl'.
    + rewrite <- Hs. apply Hfrm. by eexists.
    + intros y Hy. apply same_view_obj; [done|done|by apply live_obj|by apply Hfrm].
  - destruct Hwp as (-> & Hf & Hss). split; [done|]. split; [done|]. split.
    + destruct (non_const_refs_given s) eqn:Hflag; [done|].
      exfalso. by rewrite (copy_construct_shared other b s w) in Heq.
    + intros y Hy. by apply same_store_views.
Qed.

(** X8. After the assignment [this = src] the container shows what [src]
    showed and its escape flag is clear; every other container, [src]
    included, shows what it showed. This holds for [x = x] as well. When
    the assignment throws, nothing has changed. *)
Theorem copy_assign_takes_view this src w :
  wf w → is_Some (ptrs w !! this) → is_Some (ptrs w !! src) →
  match copy_assign this src w with
  | Val _ w' =>
      contents this w' = contents src w
      ∧ flag_of this w' = Some false
      ∧ ∀ y, y ≠ this → is_Some (ptrs w !! y) → same_view y w w'
  | Exc e w' =>
      e = injected_failure ∧ faults w ≠ []
      ∧ ∀ y, is_Some (ptrs w !! y) → same_view y w w'
  | UB => False
  end.
Proof.
  intros Hw [a Hp] [b Hpb]. destruct (wf_ptrs w Hw _ _ Hpb) as [so Hob].
  assert (Hso : obj_at w src = Some so) by (unfold obj_at; by rewrite Hpb).
  pose proof (copy_assign_spec this src a b so w Hw Hp Hpb Hob) as Hwp.
  unfold wp in Hwp.
  destruct (copy_assign this src w) as [r w'|e w'|]; [| |done].
  - destruct Hwp as (a' & s' & [Hw' Hp' Ho' Hfr _ _] & Hit & Hfl' & _).
    assert (Hx : obj_at w' this = Some s').
    { unfold obj_at. by rewrite Hp', lookup_insert_eq. }
    split; [|split].
    + destruct (observe_obj w' _ _ Hw' Hx) as (_ & -> & _).
      destruct (observe_obj w _ _ Hw Hso) as (_ & -> & _). by rewrite Hit.
    + unfold flag_of. by rewrite Hx, <- Hfl'.
    + intros y Hy [c Hyc]. apply same_view_obj; [done|done|apply live_obj; by eauto|].
      unfold obj_at. rewrite Hp', lookup_insert_ne, Hyc by done. by eapply Hfr.
  - destruct Hwp as (-> & Hf & Hss). split; [done|]. split; [done|].
    intros y Hy. by apply same_store_views.
Qed.

Lemma obj_at_reclaim c w y : obj_at (reclaim c w) y = obj_at w y.
Proof.
  unfold obj_at. rewrite ptrs_reclaim. destruct (ptrs w !! y) as [b|] eqn:Hy; [|done].
  by apply (objs_reclaim_other c w y).
Qed.

Lemma obj_at_ptr_delete x w y :
  y ≠ x → obj_at (set_ptrs (delete x (ptrs w)) w) y = obj_at w y.
Proof. intros Hy. unfold obj_at. wsimpl. by rewrite lookup_delete_ne. Qed.

Lemma obj_at_ptr_set x a w :
  obj_at (set_ptrs (<[x := a]> (ptrs w)) w) x = objs w !! a.
Proof. unfold obj_at. wsimpl. by rewrite lookup_insert_eq. Qed.

Lemma obj_at_ptr_set_ne x a w y :
  y ≠ x → obj_at (set_ptrs (<[x := a]> (ptrs w)) w) y = obj_at w y.
Proof. intros Hy. unfold obj_at. wsimpl. by rewrite lookup_insert_ne. Qed.

Lemma obj_at_alloc s w y :
  wf w →
  obj_at (set_next_addr (S (next_addr w)) (set_objs (<[next_addr w := s]> (objs w)) w)) y
  = obj_at w y.
Proof.
  intros Hw. unfold obj_at. wsimpl. destruct (ptrs w !! y) as [c|] eqn:Hc; [|done].
  rewrite lookup_insert_ne; [done|]. intros Heq. rewrite <- Heq in Hc.
  by apply (wf_fresh_addr_ptr w y Hw).
Qed.

Ltac obj_step :=
  repeat first [ rewrite obj_at_reclaim
               | rewrite obj_at_ptr_delete by done
               | rewrite obj_at_ptr_set_ne by done ].

(** What [this = std::move(src)] leaves behind. *)
Lemma move_assign_spec' this src a b so w :
  wf w → ptrs w !! this = Some a → ptrs w !! src = Some b → objs w !! b = Some so →
  wp (move_assign this src) w
     (λ _ w', wf w' ∧ (∃ s', obj_at w' this = Some s' ∧ items s' = items so
                              ∧ non_const_refs_given s' = false)
        ∧ (src ≠ this → obj_at w' src = Some map_structure_default)
        ∧ ∀ y, y ≠ this → y ≠ src → is_Some (ptrs w !! y) → obj_at w' y = obj_at w y)
     (λ e w', e = injected_failure ∧ faults w ≠ [] ∧ wf w'
        ∧ (same_store w w'
           ∨ (non_const_refs_given so = true
              ∧ obj_at w' src = Some map_structure_default
              ∧ ∀ y, y ≠ src → is_Some (ptrs w !! y) → obj_at w' y = obj_at w y))).
Proof.
  intros Hw Hthis Hsrc Hb.
  pose proof (wf_fresh_pid w Hw) as Hnp.
  pose proof (wf_fresh_addr w Hw) as Hna.
  assert (this ≠ next_pid w) as Hne by congruence.
  assert (src ≠ next_pid w) as Hne' by congruence.
  assert (b ≠ next_addr w) as Hbne by congruence.
  assert (inv so) as Hio by by eapply wf_inv.
  unfold move_assign.
  apply wp_bind. eapply wp_mono; [by apply (move_construct_spec src b so w)|..].
  2:{ intros e w' (-> & Hf & Hs). split; [done|]. split; [done|].
      split; [by eapply same_store_wf|by left]. }
  intros x w1 (-> & Hw1 & Hp1 & Ho1 & Hg1 & Hq1).
  assert (Hx1 : ptrs w1 !! next_pid w = Some b).
  { rewrite Hp1, lookup_insert_ne by done. apply lookup_insert_eq. }
  assert (Hb1 : objs w1 !! b = Some so) by by rewrite Ho1, lookup_insert_ne.
  assert (Hthis1 : is_Some (ptrs w1 !! this)).
  { rewrite Hp1. destruct (decide (this = src)) as [->|?].
    - rewrite lookup_insert_eq. by eexists.
    - rewrite !lookup_insert_ne by done. by eexists. }
  destruct Hthis1 as [old Hold].
  assert (Hlt : this < next_pid w1).
  { apply Hw1. by eexists. }
  assert (Hsrc1 : obj_at w1 src = Some map_structure_default).
  { unfold obj_at. by rewrite Hp1, lookup_insert_eq, Ho1, lookup_insert_eq. }
  assert (Hfr1 : ∀ y, y ≠ src → is_Some (ptrs w !! y) → obj_at w1 y = obj_at w y).
  { intros y Hy [c Hc]. unfold obj_at.
    rewrite Hp1, !lookup_insert_ne, Hc by congruence.
    rewrite Ho1, lookup_insert_ne; [done|].
    intros Heq'. rewrite <- Heq' in *. by apply (wf_fresh_addr_ptr w y Hw). }
  apply wp_scope. unfold operator_assign, destroy.
  apply wp_bind. eapply wp_sp_get; [done|].
  apply wp_bind. eapply wp_load; [done|].
  destruct (non_const_refs_given so) eqn:Hflag.
  - apply wp_bind. unfold make_shared_copy.
    apply wp_bind. apply wp_may_throw'; intros Hf0.
    + apply wp_bind. apply wp_alloc_nodes. apply wp_alloc_obj.
      eapply wp_sp_set; [done|].
      eapply wp_sp_destroy.
      { rewrite ptrs_reclaim. wsimpl. rewrite lookup_insert_ne by done. apply Hx1. }
      split.
      { wf_step. wf_step. wf_step.
        wf_step; [wf_step; [wf_step; by wf_step|..]|..].
        * by apply inv_copy.
        * apply fresh_copy.
        * wsimpl. rewrite lookup_insert_eq. by eexists.
        * done. }
      assert (Hw2 : wf (set_next_node (length (insertions so) + next_node (pass w1))
                          (pass w1))).
      { wf_step. by wf_step. }
      split; [|split].
      * obj_step. rewrite obj_at_ptr_set. wsimpl. rewrite lookup_insert_eq.
        eexists. split; [done|]. split; [by apply items_copy|done].
      * intros Hst. obj_step. by rewrite (obj_at_alloc _ _ _ Hw2).
      * intros y Hy Hys Hlive.
        assert (y ≠ next_pid w) as Hyx by (intros ->; rewrite Hnp in Hlive; by destruct Hlive).
        obj_step. rewrite (obj_at_alloc _ _ _ Hw2). by apply Hfr1.
    + eapply wp_sp_destroy; [done|].
      split; [done|]. split.
      { intros Hnil. rewrite (Hq1 Hnil) in Hf0. done. }
      split; [wf_step; wf_step; by wf_step|]. right. split; [done|].
      split.
      * by obj_step.
      * intros y Hys Hlive.
        assert (y ≠ next_pid w) as Hyx by (intros ->; rewrite Hnp in Hlive; by destruct Hlive).
        obj_step. by apply Hfr1.
  - eapply wp_sp_assign; [done|done|].
    eapply wp_sp_destroy.
    { rewrite ptrs_reclaim. wsimpl. rewrite lookup_insert_ne by done. apply Hx1. }
    split.
    { wf_step. wf_step. wf_step. wf_step; [done|by eexists|done]. }
    split; [|split].
    + obj_step. rewrite obj_at_ptr_set, Hb1. by exists so.
    + intros Hst. by obj_step.
    + intros y Hy Hys Hlive.
      assert (y ≠ next_pid w) as Hyx by (intros ->; rewrite Hnp in Hlive; by destruct Hlive).
      obj_step. by apply Hfr1.
Qed.

(** X9. [this = std::move(src)]: on return the container shows what [src]
    showed, with a clear escape flag; [src], when it is another container,
    is left showing nothing; every other container shows what it showed.
    [x = std::move(x)] keeps what [x] shows. When the assignment throws,
    either nothing has changed, or the escape flag of [src] was set and
    [src] has been emptied all the same: the parameter of [operator=] had
    taken its structure before the clone failed. *)
Theorem move_assign_transfers this src l w :
  wf w → is_Some (ptrs w !! this) → contents src w = Some l →
  match move_assign this src w with
  | Val _ w' =>
      contents this w' = Some l ∧ flag_of this w' = Some false
      ∧ (src ≠ this → contents src w' = Some [])
      ∧ ∀ y, y ≠ this → y ≠ src → is_Some (ptrs w !! y) → same_view y w w'
  | Exc e w' =>
      e = injected_failure ∧ faults w ≠ []
      ∧ ((∀ y, is_Some (ptrs w !! y) → same_view y w w')
         ∨ (flag_of src w = Some true ∧ contents src w' = Some []
            ∧ ∀ y, y ≠ src → is_Some (ptrs w !! y) → same_view y w w'))
  | UB => False
  end
  ∧ (faults w = [] → ∃ w', move_assign this src w = Val tt w').
Proof.
  intros Hw [a Hp] Hc.
  destruct (contents_items _ _ _ Hw Hc) as (so & Hso & <-).
  pose proof Hso as (b & Hpb & Hob)%obj_at_Some.
  pose proof (move_assign_spec' this src a b so w Hw Hp Hpb Hob) as Hwp.
  unfold wp in Hwp.
  destruct (move_assign this src w) as [[] w'|e w'|]; [| |done].
  - split; [|by eexists].
    destruct Hwp as (Hw' & (s' & Hs' & Hit & Hfl') & Hsrc & Hfr).
    split; [|split; [|split]].
    + destruct (observe_obj w' _ _ Hw' Hs') as (_ & -> & _). by rewrite Hit.
    + unfold flag_of. by rewrite Hs', <- Hfl'.
    + intros Hne. by destruct (observe_obj w' _ _ Hw' (Hsrc Hne)) as (_ & -> & _).
    + intros y Hy Hys Hlive.
      apply same_view_obj; [done|done|by apply live_obj|by apply Hfr].
  - destruct Hwp as (-> & Hf & Hw' & Hcase). split; [|done].
    split; [done|]. split; [done|].
    destruct Hcase as [Hss|(Hflag & Hsrc & Hfr)].
    + left. intros y Hy. by apply same_store_views.
    + right. split; [unfold flag_of; by rewrite Hso, <- Hflag|]. split.
      * by destruct (observe_obj w' _ _ Hw' Hsrc) as (_ & -> & _).
      * intros y Hys Hlive.
        apply same_view_obj; [done|done|by apply live_obj|by apply Hfr].
Qed.

(** ** operator[] that throws *)

Lemma filter_key_id (l : list (K * V)) k :
  k ∉ l.*1 → filter (λ p, p.1 ≠ k) l = l.
Proof.
  induction l as [|p l IH]; intros Hk; [done|].
  rewrite filter_cons_True by (intros Heq; apply Hk; rewrite <- Heq; left).
  f_equal. apply IH. intros ?. apply Hk. by right.
Qed.

Lemma moved_pair_permutation (l : list (K * V)) k v0 :
  NoDup l.*1 → assoc k l = Some v0 →
  filter (λ p, p.1 ≠ k) l ++ [(k, v0)] ≡ₚ l.
Proof.
  induction l as [|p l IH]; csimpl; intros Hnd Hk; [done|].
  apply NoDup_cons in Hnd as [Hp Hnd].
  destruct (decide (p.1 = k)) as [Heq|Hne].
  - injection Hk as <-. rewrite filter_cons_False by (intros Hn; by apply Hn).
    rewrite filter_key_id by congruence.
    rewrite <- Heq. destruct p as [k' v']. simpl. symmetry.
    apply Permutation_cons_append.
  - rewrite filter_cons_True by done. simpl. constructor. by apply IH.
Qed.

(** X10. What a failed [operator[]] can leave behind, [k] being the key
    the reference given to the call designates when the call starts. The
    failure is a library failure, never a lookup error. Every other
    container shows what
    it showed. The container itself shows the same pairs: either in the
    same order, or, when the key was present, with that key moved to the
    end, its value unchanged. For a key that was absent the container
    shows exactly what it showed: the pair just inserted is taken out
    again. *)
Theorem failed_index_keeps_pairs this kr k l w e w' :
  wf w → contents this w = Some l → read_key kr w = Val k w →
  operator_index this kr w = Exc e w' →
  e = injected_failure ∧ faults w ≠ []
  ∧ (contents this w' = Some l
     ∨ ∃ v0, assoc k l = Some v0
             ∧ contents this w' = Some (filter (λ p, p.1 ≠ k) l ++ [(k, v0)]))
  ∧ (∃ l', contents this w' = Some l' ∧ l' ≡ₚ l)
  ∧ (assoc k l = None → same_view this w w')
  ∧ ∀ y, y ≠ this → is_Some (ptrs w !! y) → same_view y w w'.
Proof.
  intros Hw Hc Hr Heq. pose proof (contents_nodup _ _ _ Hw Hc) as Hnd.
  destruct (contents_items _ _ _ Hw Hc) as (s & Hs & <-).
  pose proof Hs as (a & Hp & Ho)%obj_at_Some.
  assert (inv s) as Hi by by eapply wf_inv.
  assert (Hwp : index_post this k a s w e w').
  { destruct (operator_index_ref this kr w Hw (ex_intro _ a Hp))
      as [(k' & Hr' & _ & Heq')|[_ Hm]].
    - rewrite Hr in Hr'. injection Hr' as <-. rewrite Heq' in Heq.
      pose proof (operator_index_spec this k a s w Hw Hp Ho) as Hwp.
      unfold wp in Hwp. by rewrite Heq in Hwp.
    - rewrite Heq in Hm. destruct Hm as (-> & Hf & Hss).
      split; [done|]. split; [done|by left]. }
  destruct Hwp as (-> & Hf & Hcase).
  split; [done|]. split; [done|].
  destruct Hcase as [Hss|(a1 & s1 & n & Hn & Hu)].
  { assert (wf w') as Hw' by by eapply same_store_wf.
    assert (Hct : contents this w' = Some (items s)).
    { destruct (observe_obj w' this s Hw') as (_ & -> & _); [|done].
      by rewrite (same_store_obj w w'). }
    split; [by left|]. split; [by eexists|]. split.
    - intros _. apply same_store_views; [done|done|by eexists].
    - intros y _ Hy. by apply same_store_views. }
  assert (Hi1 : inv s1) by by eapply upd_base_inv.
  assert (Hit1 : items s1 = items s) by by eapply upd_base_items.
  rewrite assoc_items by done.
  destruct (mappings s !! k) as [mv|] eqn:Hm.
  - assert (inv (insert_effect n k V0 s1)) as Hi' by by apply inv_insert_effect.
    pose proof (upd_changed _ _ _ _ _ _ _ _ Hw Hp Hu Hi') as Hch.
    pose proof (changed_this _ _ _ _ _ Hch) as Hs'.
    pose proof (ch_wf _ _ _ _ _ Hch) as Hw'.
    assert (Hk : assoc k (items s) = Some (value mv)).
    { rewrite assoc_items by done. by rewrite Hm. }
    assert (Hct : contents this w'
                  = Some (filter (λ p, p.1 ≠ k) (items s) ++ [(k, value mv)])).
    { destruct (observe_obj w' this _ Hw' Hs') as (_ & -> & _).
      rewrite items_insert_effect, Hit1 by done. unfold spec_insert. by rewrite Hk. }
    split; [right; by eexists|]. split.
    { eexists. split; [done|]. by apply moved_pair_permutation. }
    split; [done|].
    intros y Hy Hlive. apply same_view_obj; [done|done|by apply live_obj|].
    by eapply changed_frame.
  - assert (inv (set_flag false s1)) as Hi' by by apply inv_set_flag.
    pose proof (upd_changed _ _ _ _ _ _ _ _ Hw Hp Hu Hi') as Hch.
    pose proof (changed_this _ _ _ _ _ Hch) as Hs'.
    pose proof (ch_wf _ _ _ _ _ Hch) as Hw'.
    assert (Hct : contents this w' = Some (items s)).
    { destruct (observe_obj w' this _ Hw' Hs') as (_ & -> & _).
      change (items (set_flag false s1)) with (items s1). by rewrite Hit1. }
    split; [by left|]. split; [by eexists|]. split.
    + intros _. by eapply (same_view_items this w w' s (set_flag false s1)).
    + intros y Hy Hlive. apply same_view_obj; [done|done|by apply live_obj|].
      by eapply changed_frame.
Qed.

(** ** References and copies *)

(** The state after [at] or [operator[]] handed out the reference [r]:
    [this] alone holds the structure [r] leads into, and its flag is set. *)
Record lent (this : pid) (k : K) (r : ref) (w w1 : world) (s1 : map_structure)
    : Prop := Lent {
  lent_ref : r = Ref (ref_obj r) k;
  lent_changed : changed this w w1 (ref_obj r) s1;
  lent_flag : non_const_refs_given s1 = true;
  lent_key : is_Some (mappings s1 !! k) }.

Lemma reference_lent this k r w w1 :
  wf w → is_Some (ptrs w !! this) →
  at_ this k w = Val r w1
  ∨ (∃ kr, read_key kr w = Val k w ∧ operator_index this kr w = Val r w1) →
  ∃ s1, lent this k r w w1 s1.
Proof.
  intros Hw [a Hp] Hcall. destruct (wf_ptrs w Hw _ _ Hp) as [s Ho].
  assert (at_ this k w = Val r w1 ∨ operator_index this (KeyValue k) w = Val r w1)
    as [Heq|Heq].
  { destruct Hcall as [Heq|(kr & Hr & Heq)]; [by left|right].
    destruct (operator_index_ref this kr w Hw (ex_intro _ a Hp))
      as [(k' & Hr' & _ & Heq')|[_ Hm]].
    - rewrite Hr in Hr'. injection Hr' as <-. by rewrite <- Heq'.
    - by rewrite Heq in Hm. }
  - pose proof (at_spec this k a s w Hw Hp Ho) as Hwp. unfold wp in Hwp.
    rewrite Heq in Hwp. destruct Hwp as (a1 & s1 & -> & [mv Hm] & Hu).
    exists (set_flag true s1). split; [done| |done|].
    + eapply upd_changed; eauto. apply inv_set_flag. by eapply upd_base_inv.
    + simpl. pose proof (upd_base_map _ _ _ _ _ _ _ _ Hu k) as Hk. rewrite Hm in Hk.
      destruct (mappings s1 !! k); [by eexists|done].
  - pose proof (operator_index_spec this k a s w Hw Hp Ho) as Hwp. unfold wp in Hwp.
    rewrite Heq in Hwp. destruct Hwp as (a1 & s1 & n & -> & Hn & Hu).
    exists (set_flag true (insert_effect n k V0 s1)). split; [done| |done|].
    + eapply upd_changed; eauto.
      apply inv_set_flag, inv_insert_effect; [by eapply upd_base_inv|done].
    + apply insert_effect_lookup.
Qed.

Lemma lent_view this k r w w1 s1 :
  lent this k r w w1 s1 →
  wf w1 ∧ ptrs w1 !! this = Some (ref_obj r) ∧ objs w1 !! ref_obj r = Some s1
  ∧ obj_at w1 this = Some s1 ∧ contents this w1 = Some (items s1)
  ∧ owners (ref_obj r) (ptrs w1) = 1.
Proof.
  intros [_ Hch _ _]. pose proof (ch_wf _ _ _ _ _ Hch) as Hw1.
  pose proof (changed_this _ _ _ _ _ Hch) as Hs1.
  split; [done|]. split; [by rewrite (ch_ptrs _ _ _ _ _ Hch), lookup_insert_eq|].
  split; [by eapply ch_obj|]. split; [done|]. split.
  - by destruct (observe_obj w1 this s1 Hw1 Hs1) as (_ & -> & _).
  - rewrite (ch_ptrs _ _ _ _ _ Hch). apply owners_excl. by eapply ch_excl.
Qed.

(** X11. A copy constructed while the escape flag is set is a clone, so
    a write through a reference into the container does not reach it. When
    [at] or [operator[]] returns a reference [r], the container holds the
    structure [r] leads into alone and the flag is set. In every such state,
    a copy [x] of [this] does not share the structure; a write through [r]
    then changes the value of the key in [this], and [x] keeps showing what
    [this] showed when the copy was made. The flag has to be set still: a
    copy made after a later call cleared it shares. *)
Theorem flagged_copy_is_isolated this :
  (∀ k w r w1,
     wf w → is_Some (ptrs w !! this) →
     at_ this k w = Val r w1
     ∨ (∃ kr, read_key kr w = Val k w ∧ operator_index this kr w = Val r w1) →
     wf w1 ∧ own_ref this r w1 ∧ ref_key r = k ∧ flag_of this w1 = Some true)
  ∧ ∀ w1 r fs x w2 v,
      wf w1 → own_ref this r w1 → flag_of this w1 = Some true →
      copy_construct this (set_faults fs w1) = Val x w2 →
      ∃ l1 w3,
        contents this w1 = Some l1 ∧ contents x w2 = Some l1
        ∧ ptrs w2 !! x ≠ ptrs w2 !! this
        ∧ write_ref r v w2 = Val tt w3
        ∧ contents x w3 = Some l1
        ∧ same_view x w2 w3
        ∧ contents this w3 = Some (spec_write l1 (ref_key r) v).
Proof.
  split.
  { intros k w r w1 Hw Hlive Hcall.
    destruct (reference_lent this k r w w1 Hw Hlive Hcall) as [s1 Hl].
    destruct (lent_view _ _ _ _ _ _ Hl) as (Hw1 & Hp1 & Ho1 & Hs1 & _ & _).
    destruct Hl as [Hr Hch Hflag Hkey].
    split; [done|]. split; [|split; [by rewrite Hr|]].
    - rewrite Hr. by eapply changed_own_ref.
    - unfold flag_of. by rewrite Hs1, <- Hflag. }
  intros w1 r fs x w2 v Hw1 (s1 & Hp1 & Ho1 & [mv Hm] & Hex) Hfl Hcopy.
  assert (Hs1 : obj_at w1 this = Some s1) by (unfold obj_at; by rewrite Hp1).
  assert (Hflag : non_const_refs_given s1 = true).
  { unfold flag_of in Hfl. rewrite Hs1 in Hfl. by injection Hfl. }
  destruct (observe_obj w1 this s1 Hw1 Hs1) as (_ & Hc1 & _).
  assert (Hw1' : wf (set_faults fs w1)) by by apply wf_set_faults.
  pose proof (copy_construct_spec this (ref_obj r) s1 (set_faults fs w1) Hw1' Hp1 Ho1)
    as Hwp.
  unfold wp in Hwp. rewrite Hcopy in Hwp. rewrite Hflag in Hwp.
  destruct Hwp as (-> & a' & s' & [Hw2 Hp2 Ho2 Hfr _ _] & Hit & _ & ->).
  change (next_pid (set_faults fs w1)) with (next_pid w1) in *.
  change (next_addr (set_faults fs w1)) with (next_addr w1) in *.
  change (ptrs (set_faults fs w1)) with (ptrs w1) in *.
  change (objs (set_faults fs w1)) with (objs w1) in *.
  pose proof (wf_fresh_pid w1 Hw1) as Hnp.
  assert (next_pid w1 ≠ this) as Hne by congruence.
  assert (Hlt : ref_obj r < next_addr w1) by (apply Hw1; by eexists).
  assert (Hx : obj_at w2 (next_pid w1) = Some s').
  { unfold obj_at. by rewrite Hp2, lookup_insert_eq. }
  assert (Hp2' : ptrs w2 !! this = Some (ref_obj r)).
  { by rewrite Hp2, lookup_insert_ne. }
  assert (Ho2' : objs w2 !! ref_obj r = Some s1).
  { rewrite <- Ho1. by apply (Hfr this). }
  assert (Hown : own_ref this r w2).
  { exists s1. split; [done|]. split; [done|]. split; [by eexists|].
    intros y Hy. rewrite Hp2. destruct (decide (y = next_pid w1)) as [->|Hyx].
    - rewrite lookup_insert_eq. intros [= Heq']. lia.
    - rewrite lookup_insert_ne by done. by apply Hex. }
  destruct (write_framed this r v w2 Hw2 Hown) as (w3 & Hwr & Hw3 & Hfr3).
  assert (Hx3 : obj_at w3 (next_pid w1) = Some s') by by rewrite Hfr3.
  exists (items s1), w3. split; [done|].
  destruct (observe_obj w2 _ _ Hw2 Hx) as (_ & Hcx & _).
  destruct (observe_obj w3 _ _ Hw3 Hx3) as (_ & Hcx3 & _).
  rewrite Hit in Hcx, Hcx3.
  split; [done|]. split.
  { rewrite Hp2', Hp2, lookup_insert_eq. intros [= Heq']. lia. }
  split; [done|]. split; [done|]. split.
  { apply same_view_obj; [done|done|by eexists|]. by rewrite Hx3. }
  rewrite (write_ref_spec r v s1 mv) in Hwr by done. injection Hwr as <-.
  match goal with |- contents this ?w4 = _ =>
    destruct (observe_obj w4 this (write_effect (ref_key r) mv v s1) Hw3)
      as (_ & -> & _) end.
  - unfold obj_at. wsimpl. by rewrite Hp2', lookup_insert_eq.
  - by rewrite (items_write_effect _ mv).
Qed.

(** X12. A reference outlives the clearing of the escape flag. Let [r] be
    the reference returned by [at] or by [operator[]] of [this]; a
    successful [insert] on [this] then clears the flag without moving the
    structure, so a copy [x] constructed next shares it, and a write
    through [r] now shows in the copy as well as in [this]. *)
Theorem reference_reaches_later_copy this k w r w1 fs1 k' v' b w2 fs2 x w3 v :
  wf w → is_Some (ptrs w !! this) →
  at_ this k w = Val r w1
  ∨ (∃ kr, read_key kr w = Val k w ∧ operator_index this kr w = Val r w1) →
  insert this k' v' (set_faults fs1 w1) = Val b w2 →
  copy_construct this (set_faults fs2 w2) = Val x w3 →
  ∃ l2 w4,
    contents this w3 = Some l2 ∧ contents x w3 = Some l2
    ∧ x ≠ this ∧ ptrs w3 !! x = ptrs w3 !! this
    ∧ write_ref r v w3 = Val tt w4
    ∧ contents this w4 = Some (spec_write l2 k v)
    ∧ contents x w4 = Some (spec_write l2 k v).
Proof.
  intros Hw Hlive Hcall Hins Hcopy.
  destruct (reference_lent this k r w w1 Hw Hlive Hcall) as [s1 Hl].
  destruct (lent_view _ _ _ _ _ _ Hl) as (Hw1 & Hp1 & Ho1 & Hs1 & Hc1 & Hown).
  destruct Hl as [Hr Hch Hflag [mv Hm]].
  assert (Hw1' : wf (set_faults fs1 w1)) by by apply wf_set_faults.
  pose proof (insert_spec this k' v' (ref_obj r) s1 (set_faults fs1 w1) Hw1' Hp1 Ho1)
    as Hwp.
  unfold wp in Hwp. rewrite Hins in Hwp.
  destruct Hwp as (a2 & s2 & n & _ & Hn & Hu).
  assert (a2 = ref_obj r ∧ s2 = s1) as [-> ->].
  { destruct (upd_case _ _ _ _ _ _ _ _ Hu) as [(? & ? & _)|[_ Hlt]]; [done|].
    change (ptrs (set_faults fs1 w1)) with (ptrs w1) in Hlt. lia. }
  assert (inv s1) as Hi1 by by eapply wf_inv.
  assert (inv (insert_effect n k' v' s1)) as Hi2 by by apply inv_insert_effect.
  pose proof (upd_changed _ _ _ _ _ _ _ _ Hw1' Hp1 Hu Hi2) as Hch2.
  pose proof (ch_wf _ _ _ _ _ Hch2) as Hw2.
  pose proof (ch_obj _ _ _ _ _ Hch2) as Ho2.
  assert (Hp2 : ptrs w2 !! this = Some (ref_obj r)).
  { by rewrite (ch_ptrs _ _ _ _ _ Hch2), lookup_insert_eq. }
  assert (∃ mv2, mappings (insert_effect n k' v' s1) !! k = Some mv2) as [mv2 Hm2].
  { destruct (decide (k = k')) as [->|Hkk]; [apply insert_effect_lookup|].
    unfold insert_effect. destruct (mappings s1 !! k'); simpl;
      rewrite lookup_insert_ne by done; by eexists. }
  rewrite (copy_construct_shared this (ref_obj r) (insert_effect n k' v' s1)) in Hcopy;
    [|done|done|apply insert_effect_flag].
  injection Hcopy as <- <-.
  change (next_pid (set_faults fs2 w2)) with (next_pid w2).
  change (ptrs (set_faults fs2 w2)) with (ptrs w2).
  pose proof (wf_fresh_pid w2 Hw2) as Hnp.
  assert (next_pid w2 ≠ this) as Hne by congruence.
  set (w3 := set_next_pid (S (next_pid w2))
               (set_ptrs (<[next_pid w2 := ref_obj r]> (ptrs w2)) (set_faults fs2 w2))).
  assert (Hw3 : wf w3).
  { subst w3. wf_step; [by apply wf_set_faults|]. wsimpl. by eexists. }
  assert (Hp3 : ptrs w3 !! this = Some (ref_obj r)).
  { subst w3. wsimpl. by rewrite lookup_insert_ne. }
  assert (Hpx3 : ptrs w3 !! next_pid w2 = Some (ref_obj r)).
  { subst w3. wsimpl. by rewrite lookup_insert_eq. }
  assert (Ho3 : objs w3 !! ref_obj r = Some (insert_effect n k' v' s1)) by done.
  assert (Hm3 : mappings (insert_effect n k' v' s1) !! ref_key r = Some mv2).
  { rewrite Hr. by simpl. }
  pose proof (write_ref_wf r v w3 Hw3) as Hw4.
  rewrite (write_ref_spec r v _ mv2 w3 Ho3 Hm3) in Hw4.
  exists (items (insert_effect n k' v' s1)). eexists.
  assert (Hobj3 : ∀ y, ptrs w3 !! y = Some (ref_obj r) →
                       obj_at w3 y = Some (insert_effect n k' v' s1)).
  { intros y Hy. unfold obj_at. by rewrite Hy. }
  split; [by destruct (observe_obj w3 this _ Hw3 (Hobj3 _ Hp3)) as (_ & -> & _)|].
  split; [by destruct (observe_obj w3 _ _ Hw3 (Hobj3 _ Hpx3)) as (_ & -> & _)|].
  split; [done|]. split; [by rewrite Hp3, Hpx3|].
  split; [by apply (write_ref_spec r v (insert_effect n k' v' s1) mv2)|].
  assert (Hobj4 : ∀ y, ptrs w3 !! y = Some (ref_obj r) →
    contents y (set_objs (<[ref_obj r := write_effect (ref_key r) mv2 v
                                            (insert_effect n k' v' s1)]> (objs w3)) w3)
    = Some (spec_write (items (insert_effect n k' v' s1)) k v)).
  { intros y Hy.
    match goal with |- contents y ?w4 = _ =>
      destruct (observe_obj w4 y (write_effect (ref_key r) mv2 v
                                     (insert_effect n k' v' s1)) Hw4)
        as (_ & -> & _) end.
    - unfold obj_at. wsimpl. by rewrite Hy, lookup_insert_eq.
    - rewrite (items_write_effect _ mv2) by done. rewrite Hr. done. }
  split; by apply Hobj4.
Qed.

(** ** Exceptions and undefined behaviour *)


(** X13. The exceptions of the mutations. [std::out_of_range] of the
    index never leaves a member. A lookup error leaves [erase] and [at]
    only, and only for a key that is absent: [insert], [operator[]],
    [merge] and [clear] never throw it, although [merge] calls [at] of the
    other container. Every other exception is the failure of a library
    call, so with no such failure nothing else is thrown. One mutation
    only can have undefined behaviour: [x[k] = v] whose [k] is a reference
    to a key that does not survive the call, that is, a key stored in the
    structure [x] holds alone. *)
Theorem mutation_exceptions x m w :
  wf w → is_Some (ptrs w !! x) → mutation_ok w m →
  match mutate x m w with
  | Val _ _ => True
  | Exc e _ =>
      (e = injected_failure ∧ faults w ≠ [])
      ∨ (e = lookup_error
         ∧ ∃ k, has_key x k w = Some false ∧ (m = MErase k ∨ ∃ v, m = MAt k v))
  | UB => ∃ kr v, m = MIndex kr v ∧ ¬ key_survives x kr w
  end.
Proof.
  intros Hw Hlive Hok. pose proof Hlive as [a Hp].
  destruct (wf_ptrs w Hw _ _ Hp) as [s Ho].
  destruct m as [k v|k|kr v|k v|other|]; simpl mutate.
  - pose proof (insert_spec x k v a s w Hw Hp Ho) as Hwp. unfold wp in Hwp.
    unfold bind. destruct (insert x k v w) as [b w'|e w'|]; [done| |done].
    left. by destruct Hwp as (-> & ? & _).
  - pose proof (erase_spec x k a s w Hw Hp Ho) as Hwp. unfold wp in Hwp.
    destruct (erase x k w) as [b w'|e w'|]; [done| |done].
    destruct e; simpl in Hwp; [|done|]; destruct Hwp as [Hn _].
    + right. split; [done|]. exists k. split; [|by left].
      by apply (has_key_absent x k a s).
    + by left.
  - unfold bind.
    destruct (operator_index_ref x kr w Hw Hlive) as [(k & _ & _ & Heq)|[Hns Hm]].
    + rewrite Heq.
      pose proof (operator_index_spec x k a s w Hw Hp Ho) as Hwp.
      pose proof (index_value_framed x w Hw Hlive k) as Hfr.
      unfold wp in Hwp.
      destruct (operator_index x (KeyValue k) w) as [r w'|e w'|]; [| |done].
      * destruct Hfr as [Hfr Hr].
        destruct (write_framed x r v w' (proj1 Hfr) Hr) as (w'' & -> & _). done.
      * left. by destruct Hwp as (-> & ? & _).
    + destruct (operator_index x kr w) as [r w'|e w'|]; [done| |by exists kr, v].
      left. by destruct Hm as (-> & ? & _).
  - pose proof (at_spec x k a s w Hw Hp Ho) as Hwp.
    pose proof (at_framed x w Hw Hlive k) as Hfr.
    unfold wp in Hwp. unfold bind.
    destruct (at_ x k w) as [r w'|e w'|]; [| |done].
    + destruct Hfr as [Hfr Hr].
      destruct (write_framed x r v w' (proj1 Hfr) Hr) as (w'' & -> & _). done.
    + destruct e; simpl in Hwp; [|done|]; destruct Hwp as [Hn _].
      * right. split; [done|]. exists k. split; [|right; by exists v].
        by apply (has_key_absent x k a s).
      * by left.
  - destruct (decide (other = x)) as [->|Hne]; [by rewrite merge_self|].
    destruct Hok as [b Hpo]. destruct (wf_ptrs w Hw _ _ Hpo) as [so Hoo].
    pose proof (merge_spec x other a s b so w Hw Hne Hp Ho Hpo Hoo) as Hwp.
    unfold wp in Hwp. destruct (merge x other w) as [r w'|e w'|]; [done| |done].
    left. by destruct Hwp as (-> & ? & _).
  - pose proof (clear_spec x a s w Hw Hp Ho) as Hwp. unfold wp in Hwp.
    destruct (clear x w) as [r w'|e w'|]; [done| |done].
    left. by destruct Hwp as (-> & ? & _).
Qed.

(** The calls made on containers, as opposed to those made through an
    iterator or a reference, which may be stale. *)
Definition container_call (c : call) : bool :=
  match c with
  | CallIncr _ | CallDeref _ | CallRead _ | CallWrite _ _ => false
  | _ => true
  end.

Lemma wp_defined {A} (m : M A) w Q E : wp m w Q E → is_Some (outcome (m w)).
Proof. unfold wp. destruct (m w); simpl; [by eexists..|done]. Qed.

Lemma framed_defined {A} (m : M A) x w :
  match m w with
  | Val _ w' | Exc _ w' => framed x w w'
  | UB => False
  end → is_Some (outcome (m w)).
Proof. destruct (m w); simpl; [by eexists..|done]. Qed.

Lemma run_call_defined c w :
  wf w → call_ok w c → container_call c = true →
  (∀ x kr, c = CallIndex x kr → key_survives x kr w) →
  is_Some (outcome (run_call c w)).
Proof.
  intros Hw Hok Hc Hkey. destruct c; try done; simpl run_call; simpl in Hok;
    rewrite ?discard_outcome.
  - eapply wp_defined. by apply construct_spec.
  - destruct Hok as [b Hp]. destruct (wf_ptrs w Hw _ _ Hp) as [s Ho].
    eapply wp_defined. by eapply copy_construct_spec.
  - destruct Hok as [b Hp]. destruct (wf_ptrs w Hw _ _ Hp) as [s Ho].
    eapply wp_defined. by eapply move_construct_spec.
  - destruct Hok as [b Hp]. eapply wp_defined. by eapply destroy_spec.
  - destruct Hok as [[a Hp] [b Hpb]]. destruct (wf_ptrs w Hw _ _ Hpb) as [s Ho].
    eapply wp_defined. by eapply copy_assign_spec.
  - destruct Hok as [[a Hp] [b Hpb]]. destruct (wf_ptrs w Hw _ _ Hpb) as [s Ho].
    eapply wp_defined. by eapply move_assign_spec.
  - eapply framed_defined. by apply insert_framed.
  - eapply framed_defined. by apply erase_framed.
  - destruct Hok as [Hx Hy]. eapply framed_defined. by apply merge_framed.
  - pose proof (at_framed this w Hw Hok k) as Hf.
    destruct (at_ this k w); simpl; [by eexists..|done].
  - destruct Hok as [a Hp]. destruct (wf_ptrs w Hw _ _ Hp) as [s Ho].
    eapply wp_defined. by eapply at_const_spec.
  - pose proof (index_framed this w Hw Hok kr) as Hf.
    destruct (operator_index this kr w); simpl; [by eexists..|].
    destruct Hf. by apply Hkey.
  - destruct Hok as [a Hp]. destruct (wf_ptrs w Hw _ _ Hp) as [s Ho].
    eapply wp_defined. by eapply size_spec.
  - destruct Hok as [a Hp]. destruct (wf_ptrs w Hw _ _ Hp) as [s Ho].
    eapply wp_defined. by eapply empty_spec.
  - eapply framed_defined. by apply clear_framed.
  - destruct Hok as [a Hp]. destruct (wf_ptrs w Hw _ _ Hp) as [s Ho].
    eapply wp_defined. by eapply contains_spec.
  - destruct Hok as [a Hp]. destruct (wf_ptrs w Hw _ _ Hp) as [s Ho].
    rewrite (begin_spec this a s) by done. by eexists.
  - destruct Hok as [a Hp]. destruct (wf_ptrs w Hw _ _ Hp) as [s Ho].
    rewrite (end_spec this a s) by done. by eexists.
  - destruct Hok as [a Hp]. destruct (wf_ptrs w Hw _ _ Hp) as [s Ho].
    eapply wp_defined. by eapply to_list_spec.
Qed.

(** X14. A call on containers that are alive has no undefined behaviour,
    whatever library call fails, provided the key given to [operator[]]
    survives the call: it is a value of its own, a key of another
    structure, or a key of a structure the container shares. In every state
    a program can reach, a constructor, the destructor, an assignment, a
    mutation, a query or a walk then returns or throws, and the state it
    leaves is again one where every container holds a live structure. In
    particular [pop_back] is never called on an empty list. The proviso is
    needed: [x[k]] with [k] bound to a key stored in the structure [x] holds
    alone reads the key after its node is erased. *)
Theorem container_calls_defined c fs w :
  reachable w → call_ok w c → container_call c = true →
  (∀ x kr, c = CallIndex x kr → key_survives x kr w) →
  ∃ w', outcome (run_call c (set_faults fs w)) = Some w'
        ∧ reachable w' ∧ wf w'.
Proof.
  intros Hr Hok Hc Hkey. pose proof (reachable_wf w Hr) as Hw.
  destruct (run_call_defined c (set_faults fs w)) as [w' Hout];
    [by apply wf_set_faults|done|done|done|].
  exists w'. split; [done|].
  assert (reachable w') as Hr' by by eapply reach_call.
  split; [done|by apply reachable_wf].
Qed.

(** ** The private parts: cloning a structure, copy_on_write *)

(** X15. The clone made by the copy constructor of [map_structure] shows
    the same pairs in the same order. The loop that re-points the entries
    of the index creates no entry: the clone has the keys of the original,
    each with the value of the original. Every entry of the clone points
    into the list of the clone, at one of the nodes [n0], [n0 + 1], ... just
    allocated and at none of the original, and the escape flag of the clone
    is clear. *)
Theorem clone_shows_the_same n0 s :
  inv s →
  items (map_structure_copy n0 s) = items s
  ∧ dom (mappings (map_structure_copy n0 s)) = dom (mappings s)
  ∧ (∀ k, value <$> mappings (map_structure_copy n0 s) !! k
          = value <$> mappings s !! k)
  ∧ (insertions (map_structure_copy n0 s)).*2 = (insertions s).*2
  ∧ (insertions (map_structure_copy n0 s)).*1 = seq n0 (length (insertions s))
  ∧ (∀ k mv, mappings (map_structure_copy n0 s) !! k = Some mv →
       n0 ≤ iter mv < n0 + length (insertions s)
       ∧ (iter mv, k) ∈ insertions (map_structure_copy n0 s))
  ∧ non_const_refs_given (map_structure_copy n0 s) = false.
Proof.
  intros Hi. pose proof (inv_copy n0 s Hi) as Hic.
  split; [by apply items_copy|]. split; [|split; [by intros k; apply copy_value|]].
  { apply set_eq. intros k. rewrite !elem_of_dom.
    rewrite <- (fmap_is_Some value (mappings (map_structure_copy n0 s) !! k)).
    rewrite <- (fmap_is_Some value (mappings s !! k)). by rewrite copy_value. }
  split; [apply copy_list_snd|]. split; [apply copy_list_fst|]. split; [|done].
  intros k mv Hm. pose proof (inv_map_list _ Hic k mv Hm) as Hin.
  split; [|done].
  assert (iter mv ∈ (insertions (map_structure_copy n0 s)).*1) as Hn.
  { apply list_elem_of_fmap. by exists (iter mv, k). }
  change (insertions (map_structure_copy n0 s)) with (copy_list n0 (insertions s)) in Hn.
  rewrite copy_list_fst in Hn. apply elem_of_seq in Hn. lia.
Qed.

(** X16. [copy_on_write] leaves the container with a structure no other
    container holds, showing the same pairs: the structure it had when it
    was the only container holding it, a clone otherwise. So the count the
    code compares with 2 is right: the container itself and the pointer
    just copied. The pointer returned keeps the former structure alive and
    untouched. When the clone cannot be made, the store is as before. *)
Theorem copy_on_write_unshares this a s w :
  wf w → ptrs w !! this = Some a → objs w !! a = Some s →
  match copy_on_write this w with
  | Val old w1 =>
      ptrs w !! old = None ∧ ptrs w1 !! old = Some a ∧ objs w1 !! a = Some s
      ∧ ∃ a1 s1,
          ptrs w1 !! this = Some a1 ∧ objs w1 !! a1 = Some s1
          ∧ items s1 = items s
          ∧ (∀ y, y ≠ this → y ≠ old →
               ptrs w1 !! y = ptrs w !! y ∧ ptrs w1 !! y ≠ Some a1)
          ∧ (a1 = a ↔ owners a (ptrs w) = 1)
  | Exc e w1 => e = injected_failure ∧ faults w ≠ [] ∧ same_store w w1
  | UB => False
  end.
Proof.
  intros Hw Hp Ho.
  pose proof (copy_on_write_spec this a s w Hw Hp Ho) as Hwp. unfold wp in Hwp.
  destruct (copy_on_write this w) as [old w1|e w1|]; [|done..].
  destruct Hwp as (-> & a1 & s1 & Hc).
  pose proof (wf_fresh_pid w Hw) as Hnp.
  assert (Hlt : a < next_addr w) by (apply Hw; by eexists).
  split; [done|]. split; [by eapply cow_old|]. split.
  { rewrite (cow_objs _ _ _ _ _ _ _ Hc).
    destruct (cow_case _ _ _ _ _ _ _ Hc) as [(-> & -> & _)|[-> _]].
    - by rewrite lookup_insert_eq.
    - rewrite lookup_insert_ne by lia. done. }
  exists a1, s1. split; [by eapply cow_this|]. split; [by eapply cow_obj|].
  split; [by eapply cow_items|]. split.
  - intros y Hy Hyo. rewrite (cow_ptrs _ _ _ _ _ _ _ Hc), !lookup_insert_ne by done.
    split; [done|]. by eapply cow_excl.
  - pose proof (owners_pos a this (ptrs w) Hp) as Hpos.
    destruct (cow_case _ _ _ _ _ _ _ Hc) as [(-> & _ & Hle)|[-> Hgt]].
    + split; [lia|done].
    + split; [lia|lia].
Qed.

(** ** The class iterator, step by step *)

(** [bool operator!=(const iterator &rhs) const] *)
Definition iterator_ne (i j : iterator) : bool :=
  bool_decide (¬ (li_list (it_iter i) = li_list (it_iter j)
                  ∧ li_node (it_iter i) = li_node (it_iter j))).

(** [operator->]: the pair is built as by [operator*], then
    [std::make_unique] allocates the object the result points to. *)
Definition iterator_arrow (i : iterator) : M (K * V) :=
  do p <- iterator_deref i;
  run may_throw;
  ret p.

(** [++it], [n] times. *)
Fixpoint advance (n : nat) (i : iterator) : M iterator :=
  match n with
  | 0 => ret i
  | S n' => do i' <- iterator_incr i; advance n' i'
  end.

Lemma omap_all_lookup {A B} (f : A → option B) (l : list A) n x :
  (∀ y, y ∈ l → is_Some (f y)) → l !! n = Some x → omap f l !! n = f x.
Proof.
  revert n. induction l as [|y l IH]; intros n Hall Hn; [done|].
  destruct (Hall y) as [z Hz]; [left|]. csimpl. rewrite Hz.
  destruct n as [|n]; simpl in *.
  - injection Hn as <-. done.
  - apply IH; [|done]. intros y' Hy'. apply Hall. by right.
Qed.

Lemma items_lookup s n m k :
  inv s → insertions s !! n = Some (m, k) →
  ∃ mv, mappings s !! k = Some mv ∧ items s !! n = Some (k, value mv).
Proof.
  intros Hi Hn.
  assert (Hin : (m, k) ∈ insertions s) by by eapply list_elem_of_lookup_2.
  destruct (inv_list_map s Hi _ _ Hin) as (mv & Hm & _). exists mv. split; [done|].
  unfold items.
  rewrite (omap_all_lookup _ _ n k).
  - by rewrite Hm.
  - intros k' Hk'. apply inv_key_in_list in Hk' as [mv' Hm']; [|done].
    rewrite Hm'. by eexists.
  - by rewrite list_lookup_fmap, Hn.
Qed.

Lemma advance_spec this a s w :
  objs w !! a = Some s → inv s →
  ∀ n l1 l2, insertions s = l1 ++ l2 → n ≤ length l2 →
    advance n (Iterator (ListIter a (head l2.*1)) this) w
    = Val (Iterator (ListIter a (head (drop n l2).*1)) this) w.
Proof.
  intros Ho Hi. induction n as [|n IH]; intros l1 l2 Hl Hn.
  { by rewrite drop_0. }
  destruct l2 as [|[m k] l2]; [simpl in Hn; lia|].
  assert (Hm : m ∉ l1.*1).
  { pose proof (inv_nodup s Hi) as Hnd. rewrite Hl, fmap_app in Hnd.
    apply NoDup_app in Hnd as (_ & Hnd & _). intros Hin. apply (Hnd m Hin). left. }
  simpl advance. unfold bind at 1. unfold iterator_incr. simpl.
  unfold bind, load. rewrite Ho, Hl, node_next_app by done. simpl.
  apply (IH (l1 ++ [(m, k)]) l2).
  - by rewrite Hl, <- app_assoc.
  - simpl in Hn. lia.
Qed.

(** X17. A walk step by step. [begin()] advanced [n] times, for [n] up
    to [size()], is an iterator that equals [end()] exactly when [n] is
    [size()], and [!=] says the opposite. Before that, [*it] is the [n]-th
    pair of the container, in the order of insertion: with no library
    failure [*it] and [it->] return it and change nothing, and [*it] never
    throws a lookup error and never has undefined behaviour. *)
Theorem walk_visits_pairs_in_order this l w :
  wf w → contents this w = Some l →
  ∃ b e, begin this w = Val b w ∧ end_ this w = Val e w
    ∧ ∀ n, n ≤ length l →
        ∃ i, advance n b w = Val i w
          ∧ iterator_eq i e = bool_decide (n = length l)
          ∧ iterator_ne i e = bool_decide (n < length l)
          ∧ ∀ p, l !! n = Some p →
              match iterator_deref i w with
              | Val q w' => q = p ∧ only_faults w w'
              | Exc x w' => x = injected_failure ∧ faults w ≠ [] ∧ only_faults w w'
              | UB => False
              end
              ∧ (faults w = [] →
                   iterator_deref i w = Val p w ∧ iterator_arrow i w = Val p w).
Proof.
  intros Hw Hc. destruct (contents_items _ _ _ Hw Hc) as (s & Hs & <-).
  pose proof Hs as (a & Hp & Ho)%obj_at_Some.
  assert (inv s) as Hi by by eapply wf_inv.
  eexists _, _. split; [by apply (begin_spec this a s)|].
  split; [by apply (end_spec this a s)|].
  intros n Hn. rewrite items_length in Hn by done.
  eexists. split; [by apply (advance_spec this a s w Ho Hi n [] (insertions s))|].
  assert (Hhead : head (drop n (insertions s)).*1 = None ↔ n = length (insertions s)).
  { destruct (drop n (insertions s)) as [|q rest] eqn:Hd.
    - split; [|done]. intros _. apply drop_nil_inv in Hd. lia.
    - split; [done|]. intros ->. by rewrite drop_all in Hd. }
  unfold iterator_eq, iterator_ne. simpl. rewrite items_length by done.
  split; [|split].
  - apply bool_decide_ext. rewrite <- Hhead. split; [by intros [_ ?]|done].
  - apply bool_decide_ext. split.
    + intros Hne. destruct (decide (n = length (insertions s))) as [Heq|]; [|lia].
      exfalso. apply Hne. split; [done|]. by apply Hhead.
    + intros Hlt [_ Heq]. apply Hhead in Heq. lia.
  - intros p Hlp.
    assert (n < length (insertions s)) as Hlt.
    { rewrite <- items_length by done. by eapply lookup_lt_Some. }
    destruct (lookup_lt_is_Some_2 (insertions s) n Hlt) as [[m k] Hmk].
    destruct (items_lookup s n m k Hi Hmk) as (mv & Hm & Hitem).
    rewrite Hlp in Hitem. injection Hitem as ->.
    pose proof (take_drop_middle _ _ _ Hmk) as Hsplit.
    assert (Hnotin : m ∉ (take n (insertions s)).*1).
    { pose proof (inv_nodup s Hi) as Hnd. rewrite <- Hsplit, fmap_app in Hnd.
      apply NoDup_app in Hnd as (_ & Hnd & _). intros Hin. apply (Hnd m Hin). left. }
    assert (Hderef : iterator_deref
              (Iterator (ListIter a (head (drop n (insertions s)).*1)) this) w
            = (do v <- at_const this k; ret (k, v)) w).
    { assert (Hnk : node_key m (insertions s) = Some k).
      { rewrite <- Hsplit. by apply node_key_app. }
      rewrite (drop_S _ _ _ Hmk). unfold iterator_deref. simpl.
      unfold bind at 1. unfold load. rewrite Ho. cbv beta iota. by rewrite Hnk. }
    pose proof (at_const_spec this k a s w Hp Ho) as Hwp. unfold wp in Hwp.
    split.
    + rewrite Hderef. unfold bind.
      destruct (at_const this k w) as [v w'|x w'|]; [| |done].
      * destruct Hwp as [(mv' & Hm' & ->) Hof]. rewrite Hm in Hm'.
        injection Hm' as <-. by split.
      * destruct x; simpl in Hwp; [|done|done].
        destruct Hwp as [Hnone _]. by rewrite Hnone in Hm.
    + intros Hf.
      assert (Hat : at_const this k w = Val (value mv) w).
      { destruct (at_const this k w) as [v w'|x w'|]; [| |done].
        - destruct Hwp as [(mv' & Hm' & ->) Hof]. rewrite Hm in Hm'.
          injection Hm' as <-. by rewrite (only_faults_quiet _ _ Hof Hf).
        - destruct x; simpl in Hwp; [|done|]; destruct Hwp as [Hnone _]; [|done].
          by rewrite Hnone in Hm. }
      unfold iterator_arrow. unfold bind at 1. rewrite Hderef. unfold bind.
      rewrite Hat. unfold ret, may_throw. by rewrite Hf.
Qed.

(** ** Round trips *)

(** X18. Inserting and looking up: after a successful [insert(k, v)] the
    key is contained and the read-only [at(k)] returns the value stored for
    it, which is [v] for a key that was absent and the former value for a
    key that was present. *)
Theorem insert_then_lookup this k v l w b w1 fs :
  wf w → contents this w = Some l →
  insert this k v w = Val b w1 →
  contains this k (set_faults [] w1) = Val true (set_faults [] w1)
  ∧ at_const this k (set_faults [] w1)
    = Val (default v (assoc k l)) (set_faults [] w1)
  ∧ (b = true ↔ assoc k l = None)
  ∧ match at_const this k (set_faults fs w1) with
    | Val v' _ => v' = default v (assoc k l)
    | Exc e _ => e = injected_failure ∧ fs ≠ []
    | UB => False
    end.
Proof.
  intros Hw Hc Hins. pose proof (insert_contents this k v l w Hw Hc) as Hi.
  rewrite Hins in Hi. destruct Hi as (Hw1 & -> & Hc1 & _ & _).
  assert (Hk : assoc k (spec_insert l k v) = Some (default v (assoc k l))).
  { apply assoc_spec_insert. }
  assert (Hat : ∀ fs', match at_const this k (set_faults fs' w1) with
                       | Val v' w' => v' = default v (assoc k l)
                                      ∧ only_faults (set_faults fs' w1) w'
                       | Exc e _ => e = injected_failure ∧ fs' ≠ []
                       | UB => False
                       end).
  { intros fs'.
    pose proof (at_const_outcome this k _ (set_faults fs' w1)
                  (wf_set_faults fs' w1 Hw1) Hc1) as Ho.
    destruct (at_const this k (set_faults fs' w1)) as [v' w'|e w'|]; [| |done].
    - destruct Ho as [Hv Hof]. rewrite Hk in Hv. by injection Hv as <-.
    - destruct Ho as [[[_ Hn]|[-> Hn]] _]; [by rewrite Hk in Hn|done]. }
  split; [|split; [|split]].
  - pose proof (contains_outcome this k _ (set_faults [] w1)
                  (wf_set_faults [] w1 Hw1) Hc1) as Ho.
    destruct (contains this k (set_faults [] w1)) as [b w'|e w'|]; [| |done].
    + destruct Ho as [-> Hof]. rewrite (only_faults_quiet _ _ Hof eq_refl).
      f_equal. apply bool_decide_eq_true_2, assoc_elem_of. by eexists.
    + by destruct Ho as (_ & ? & _).
  - specialize (Hat []).
    destruct (at_const this k (set_faults [] w1)) as [v' w'|e w'|]; [| |done].
    + destruct Hat as [-> Hof]. by rewrite (only_faults_quiet _ _ Hof eq_refl).
    + by destruct Hat.
  - by rewrite bool_decide_eq_true.
  - specialize (Hat fs).
    destruct (at_const this k (set_faults fs w1)) as [v' w'|e w'|]; [|done..].
    by destruct Hat.
Qed.

Lemma filter_key_app_last (l : list (K * V)) k v :
  filter (λ p, p.1 ≠ k) (l ++ [(k, v)]) = filter (λ p, p.1 ≠ k) l.
Proof.
  rewrite filter_app, filter_cons_False by (intros Hn; by apply Hn).
  by rewrite filter_nil, app_nil_r.
Qed.

Lemma filter_key_twice (l : list (K * V)) k :
  filter (λ p, p.1 ≠ k) (filter (λ p, p.1 ≠ k) l) = filter (λ p, p.1 ≠ k) l.
Proof. apply filter_key_id, filter_key_notin. Qed.

(** X19. Erasing what was just inserted. After a successful [insert(k, v)]
    a successful [erase(k)] leaves the pairs of the other keys, in the
    order they had; for a key that was absent this is exactly what the
    container showed before the two calls. *)
Theorem insert_then_erase this k v l w b w1 fs w2 :
  wf w → contents this w = Some l →
  insert this k v w = Val b w1 →
  erase this k (set_faults fs w1) = Val tt w2 →
  contents this w2 = Some (filter (λ p, p.1 ≠ k) l)
  ∧ (b = true → contents this w2 = Some l)
  ∧ has_key this k w2 = Some false.
Proof.
  intros Hw Hc Hins Her. pose proof (insert_contents this k v l w Hw Hc) as Hi.
  rewrite Hins in Hi. destruct Hi as (Hw1 & -> & Hc1 & _ & _).
  assert (Hk : k ∈ (spec_insert l k v).*1).
  { apply assoc_elem_of. rewrite assoc_spec_insert. by eexists. }
  pose proof (erase_outcome this k _ (set_faults fs w1)
                (wf_set_faults fs w1 Hw1) Hc1) as Ho.
  rewrite Her in Ho. destruct Ho as (Hw2 & _ & Hc2 & _).
  assert (Hfil : filter (λ p, p.1 ≠ k) (spec_insert l k v) = filter (λ p, p.1 ≠ k) l).
  { unfold spec_insert. destruct (assoc k l).
    - by rewrite filter_key_app_last, filter_key_twice.
    - by rewrite filter_key_app_last. }
  rewrite Hfil in Hc2. split; [done|]. split.
  - intros Hb%bool_decide_eq_true. rewrite Hc2. f_equal. apply filter_key_id.
    intros Hin%assoc_elem_of. rewrite Hb in Hin. by destruct Hin.
  - destruct (contents_items _ _ _ Hw2 Hc2) as (s2 & Hs2 & Hit).
    destruct (observe_obj w2 this s2 Hw2 Hs2) as (_ & _ & Hks).
    rewrite Hks, Hit. f_equal. apply bool_decide_eq_false_2, filter_key_notin.
Qed.

(** ** merge in closed form *)

Lemma assoc_spec_insert_ne k k' v l : k' ≠ k → assoc k' (spec_insert l k v) = assoc k' l.
Proof.
  intros Hne. unfold spec_insert. destruct (assoc k l) as [v0|]; rewrite assoc_app.
  - assert (Hf : assoc k' (filter (λ p, p.1 ≠ k) l) = assoc k' l).
    { induction l as [|p l IH]; [done|]. destruct (decide (p.1 = k)) as [Heq|Hpk].
      - rewrite filter_cons_False by (intros Hn; by apply Hn). simpl.
        rewrite decide_False by congruence. done.
      - rewrite filter_cons_True by done. simpl. by rewrite IH. }
    rewrite Hf. simpl. rewrite decide_False by done. by destruct (assoc k' l).
  - simpl. rewrite decide_False by done. by destruct (assoc k' l).
Qed.

Lemma assoc_spec_merge k lo : ∀ l,
  assoc k (spec_merge l lo)
  = match assoc k l with Some v => Some v | None => assoc k lo end.
Proof.
  induction lo as [|[k' v'] lo IH]; intros l.
  - simpl. by destruct (assoc k l).
  - rewrite spec_merge_cons, IH. simpl. destruct (decide (k' = k)) as [->|Hne].
    + rewrite assoc_spec_insert. by destruct (assoc k l).
    + by rewrite assoc_spec_insert_ne.
Qed.

Lemma spec_merge_keys lo : ∀ l,
  NoDup lo.*1 →
  (spec_merge l lo).*1 = filter (λ k, k ∉ lo.*1) l.*1 ++ lo.*1.
Proof.
  induction lo as [|[k v] lo IH]; intros l Hnd.
  - csimpl. rewrite app_nil_r. induction (l.*1) as [|x ks IHk]; [done|].
    rewrite filter_cons_True by (by intros ?%elem_of_nil). by rewrite <- IHk.
  - csimpl in Hnd. apply NoDup_cons in Hnd as [Hk Hnd].
    rewrite spec_merge_cons, IH, spec_insert_keys by done. csimpl.
    rewrite filter_app, filter_cons_True, filter_nil by done.
    rewrite <- app_assoc. simpl. f_equal.
    rewrite list_filter_filter. apply list_filter_iff. intros x. split.
    + intros [Hx Hxk] [->|Hin]%elem_of_cons; [by apply Hxk|by apply Hx].
    + intros Hx. split; [intros ?; apply Hx; by right|intros ->; apply Hx; left].
Qed.

(** X20. [merge] in closed form. After a successful [a.merge(b)] with
    another container, [a] shows first the keys it had and [b] lacks, in
    the order they had, then all the keys of [b] in the order of [b]. A key
    [a] had keeps the value it had in [a]; the others have the value of
    [b]. [b] shows what it showed. *)
Theorem merge_is_union this other l lo w w' :
  wf w → other ≠ this →
  contents this w = Some l → contents other w = Some lo →
  merge this other w = Val tt w' →
  ∃ l', contents this w' = Some l'
    ∧ l'.*1 = filter (λ k, k ∉ lo.*1) l.*1 ++ lo.*1
    ∧ (∀ k, assoc k l'
            = match assoc k l with Some v => Some v | None => assoc k lo end)
    ∧ size_of this w' = Some (length (filter (λ k, k ∉ lo.*1) l.*1) + length lo)
    ∧ contents other w' = Some lo.
Proof.
  intros Hw Hne Hc Hco Heq.
  pose proof (contents_nodup _ _ _ Hw Hco) as Hndo.
  destruct (contents_items _ _ _ Hw Hc) as (s & Hs & <-).
  destruct (contents_items _ _ _ Hw Hco) as (so & Hso & <-).
  pose proof Hs as (a & Hp & Ho)%obj_at_Some.
  pose proof Hso as (b & Hpb & Hob)%obj_at_Some.
  pose proof (merge_spec this other a s b so w Hw Hne Hp Ho Hpb Hob) as Hwp.
  unfold wp in Hwp. rewrite Heq in Hwp. destruct Hwp as (s' & Hch & Hit & _).
  pose proof (ch_wf _ _ _ _ _ Hch) as Hw'.
  pose proof (changed_this _ _ _ _ _ Hch) as Hs'.
  destruct (observe_obj w' this s' Hw' Hs') as (Hsz & Hct & _).
  exists (items s'). split; [done|]. rewrite Hit. split; [by apply spec_merge_keys|].
  split; [intros k; apply assoc_spec_merge|]. split.
  - rewrite Hsz, Hit. f_equal.
    rewrite <- (length_fmap fst (spec_merge _ _)), spec_merge_keys by done.
    by rewrite length_app, length_fmap.
  - assert (Hso' : obj_at w' other = Some so).
    { rewrite <- Hso. by eapply changed_frame. }
    by destruct (observe_obj w' other so Hw' Hso') as (_ & -> & _).
Qed.

(** ** The destructor *)

(** X21. The destructor never throws and consumes no entry of the
    schedule. The container is gone, and every other container shows what
    it showed, also one that shared the structure: a copy outlives the
    original. *)
Theorem destroy_leaves_others this w :
  wf w → is_Some (ptrs w !! this) →
  ∃ w', destroy this w = Val tt w'
    ∧ wf w' ∧ ptrs w' !! this = None ∧ faults w' = faults w
    ∧ ∀ y, y ≠ this → is_Some (ptrs w !! y) →
           is_Some (ptrs w' !! y) ∧ same_view y w w'.
Proof.
  intros Hw [a Hp]. pose proof (destroy_spec this a w Hw Hp) as Hwp.
  unfold wp in Hwp.
  assert (Hf : ∀ w', destroy this w = Val tt w' → faults w' = faults w).
  { unfold destroy, sp_destroy. rewrite Hp. intros w' [= <-].
    by rewrite faults_reclaim. }
  destruct (destroy this w) as [[] w'|e w'|]; [|done..].
  destruct Hwp as (Hw' & Hp' & Hfr & _ & _).
  exists w'. split; [done|]. split; [done|]. split; [by rewrite Hp', lookup_delete_eq|].
  split; [by apply Hf|]. intros y Hy [c Hyc].
  split; [rewrite Hp', lookup_delete_ne by done; by eexists|].
  apply same_view_obj; [done|done|apply live_obj; by eauto|].
  unfold obj_at. rewrite Hp', lookup_delete_ne, Hyc by done. by eapply Hfr.
Qed.

(** ** Mutations that throw *)

(** X22. The strong guarantee holds for every mutation except [x[k] = v]:
    when [insert], [erase], [x.at(k) = v], [merge] or [clear] throws,
    whatever the library call that failed, every container alive, the one
    the member was called on included, shows exactly what it showed before
    the call: same size, same pairs in the same order, same keys. *)
Theorem failed_mutation_is_undone x m w e w' :
  wf w → is_Some (ptrs w !! x) → mutation_ok w m →
  (∀ k v, m ≠ MIndex k v) →
  mutate x m w = Exc e w' →
  wf w' ∧ ∀ y, is_Some (ptrs w !! y) → same_view y w w'.
Proof.
  intros Hw Hlive Hok Hm Heq. split.
  - pose proof (mutate_framed x m w Hw Hlive Hok) as Hf. rewrite Heq in Hf.
    by destruct Hf.
  - intros y Hy. exact (failed_mutation_leaves_view x m w e w' y Hw Hlive Hok Hm Heq Hy).
Qed.
End Container.

Arguments Val {K K_eq K_countable V A} a w.
Arguments Exc {K K_eq K_countable V A} e w.
Arguments UB {K K_eq K_countable V A}.

(** * Runs on containers of numbers

    Keys and values are natural numbers and [V()] is 0. The states below
    are reached from the initial one by the calls listed. *)

Definition state_after (cs : list (call (K := nat) (V := nat))) :
  world (K := nat) (V := nat) :=
  default init_world (run_calls 0 cs init_world).

Lemma state_after_wf cs : is_Some (run_calls 0 cs init_world) → wf (state_after cs).
Proof.
  intros [w Hw]. unfold state_after. rewrite Hw. simpl.
  apply (reachable_wf 0). apply (run_calls_reachable 0 cs init_world w); [apply reach_init|exact Hw].
Qed.

Lemma state_after_reachable cs :
  is_Some (run_calls 0 cs init_world) → reachable 0 (state_after cs).
Proof.
  intros [w Hw]. unfold state_after. rewrite Hw. simpl.
  apply (run_calls_reachable 0 cs init_world w); [apply reach_init|exact Hw].
Qed.

(** One empty container, 0. *)
Definition fresh : world (K := nat) (V := nat) := state_after [CallConstruct].

(** Container 0 shows (1, 10), (2, 20). *)
Definition two : world (K := nat) (V := nat) :=
  state_after [CallConstruct; CallInsert 0 1 10; CallInsert 0 2 20].

(** Container 0 as in [two], and its copy 3. *)
Definition two_copied : world (K := nat) (V := nat) :=
  state_after [CallConstruct; CallInsert 0 1 10; CallInsert 0 2 20;
               CallCopyConstruct 0].

(** Container 0 shows (1, 1); container 2 shows (1, 2), (2, 3). *)
Definition pair : world (K := nat) (V := nat) :=
  state_after [CallConstruct; CallInsert 0 1 1; CallConstruct;
               CallInsert 2 1 2; CallInsert 2 2 3].

(** Container 0 shows (1, 10) and has handed out a reference. *)
Definition marked : world (K := nat) (V := nat) :=
  state_after [CallConstruct; CallInsert 0 1 10; CallAt 0 1].

(** [two] after [at(1)] handed out a reference, then after a copy of
    container 0 was constructed, container 4. *)
Definition two_lent : world (K := nat) (V := nat) :=
  state_after [CallConstruct; CallInsert 0 1 10; CallInsert 0 2 20; CallAt 0 1].
Definition two_lent_copied : world (K := nat) (V := nat) :=
  state_after [CallConstruct; CallInsert 0 1 10; CallInsert 0 2 20; CallAt 0 1;
               CallCopyConstruct 0].

(** [two_lent] after [insert(3, 30)], then after the copy 5 was constructed. *)
Definition two_lent_grown : world (K := nat) (V := nat) :=
  state_after [CallConstruct; CallInsert 0 1 10; CallInsert 0 2 20; CallAt 0 1;
               CallInsert 0 3 30].
Definition two_lent_grown_copied : world (K := nat) (V := nat) :=
  state_after [CallConstruct; CallInsert 0 1 10; CallInsert 0 2 20; CallAt 0 1;
               CallInsert 0 3 30; CallCopyConstruct 0].

(** [two_lent_grown_copied] after 99 was written through the reference
    that [at(1)] returned. *)
Definition two_lent_grown_written : world (K := nat) (V := nat) :=
  state_after [CallConstruct; CallInsert 0 1 10; CallInsert 0 2 20; CallAt 0 1;
               CallInsert 0 3 30; CallCopyConstruct 0; CallWrite (Ref 0 1) 99].

Lemma fresh_wf : wf fresh.
Proof. apply state_after_wf. vm_compute. by eexists. Qed.

Lemma two_wf : wf two.
Proof. apply state_after_wf. vm_compute. by eexists. Qed.

Lemma pair_wf : wf pair.
Proof. apply state_after_wf. vm_compute. by eexists. Qed.

Lemma marked_wf : wf marked.
Proof. apply state_after_wf. vm_compute. by eexists. Qed.

Lemma two_reachable : reachable 0 two.
Proof. apply state_after_reachable. vm_compute. by eexists. Qed.

Lemma two_live : is_Some (ptrs two !! 0).
Proof. vm_compute. by eexists. Qed.

Lemma marked_live : is_Some (ptrs marked !! 0).
Proof. vm_compute. by eexists. Qed.

Lemma two_quiet : faults two = [].
Proof. vm_compute. reflexivity. Qed.

Lemma fresh_quiet : faults fresh = [].
Proof. vm_compute. reflexivity. Qed.

(** C1. A copy is not isolated from a write through a reference that was
    handed out before the copy was made. In [two] container 0 shows (1, 10),
    (2, 20). [at(1)] returns the reference [Ref 0 1] and sets the escape
    flag; [insert(3, 30)] then clears the flag, in place; the copy 5 of
    container 0 constructed next therefore shares the structure, and shows
    (1, 10), (2, 20), (3, 30). The write of 99 through the reference, a
    change of container 0 alone, changes what the copy shows as well: both
    now show (1, 99), (2, 20), (3, 30). *)
Theorem stale_reference_changes_copy :
  reachable 0 two
  ∧ contents 0 two = Some [(1, 10); (2, 20)]
  ∧ at_ 0 0 1 two = Val (Ref 0 1) two_lent
  ∧ flag_of 0 two_lent = Some true
  ∧ insert 0 0 3 30 two_lent = Val true two_lent_grown
  ∧ flag_of 0 two_lent_grown = Some false
  ∧ copy_construct 0 0 two_lent_grown = Val 5 two_lent_grown_copied
  ∧ ptrs two_lent_grown_copied !! 5 = ptrs two_lent_grown_copied !! 0
  ∧ contents 5 two_lent_grown_copied = Some [(1, 10); (2, 20); (3, 30)]
  ∧ write_ref (Ref 0 1) 99 two_lent_grown_copied = Val tt two_lent_grown_written
  ∧ reachable 0 two_lent_grown_written
  ∧ contents 0 two_lent_grown_written = Some [(1, 99); (2, 20); (3, 30)]
  ∧ contents 5 two_lent_grown_written = Some [(1, 99); (2, 20); (3, 30)]
  ∧ ¬ same_view 5 two_lent_grown_copied two_lent_grown_written.
Proof.
  split; [exact two_reachable|].
  do 9 (split; [vm_compute; reflexivity|]).
  split; [apply state_after_reachable; vm_compute; by eexists|].
  do 2 (split; [vm_compute; reflexivity|]).
  intros [_ Hc _]. vm_compute in Hc. discriminate.
Qed.

(** C2. The strong guarantee does not hold for [operator[]] on a key that
    is present and not last. In [two] container 0 shows (1, 10), (2, 20).
    The call [x[1]] in which [V()], the insertion in the list and the
    insertion in the index succeed and the first call inside [at] throws
    rethrows that failure, and iteration then shows (2, 20), (1, 10): the
    handler of [operator[]] undoes a fresh insertion only, and the move of
    key 1 to the end made by [private_insert] stays. *)
Theorem index_failure_reorders :
  reachable 0 two
  ∧ contents 0 two = Some [(1, 10); (2, 20)]
  ∧ ∃ w', operator_index 0 0 (KeyValue 1)
            (set_faults [false; false; false; true] two)
          = Exc injected_failure w'
          ∧ contents 0 w' = Some [(2, 20); (1, 10)]
          ∧ ¬ same_view 0 two w'.
Proof.
  split; [exact two_reachable|]. split; [vm_compute; reflexivity|].
  eexists. split; [vm_compute; reflexivity|]. split; [vm_compute; reflexivity|].
  intros [_ Hc _]. vm_compute in Hc. discriminate.
Qed.

(** C6. [operator[]] on a present key does not return a reference to the
    value when the key it is given is the container's own. In [two]
    container 0 holds its structure alone and shows (1, 10), (2, 20);
    [begin()] is the iterator at node 0 of its list, which shows the pair
    (1, 10), and whose [first] is a reference to the key 1 stored in that
    node. The call [x[k]] with [k] bound to that key, when no library call
    fails, is undefined: [private_insert] inserts a new node for the key at
    the end and erases node 0, and [at(k)] then reads [k]. *)
Theorem index_own_key_undefined :
  reachable 0 two
  ∧ faults two = []
  ∧ contents 0 two = Some [(1, 10); (2, 20)]
  ∧ owners 0 (ptrs two) = 1
  ∧ begin 0 two = Val (Iterator (ListIter 0 (Some 0)) 0) two
  ∧ iterator_deref (Iterator (ListIter 0 (Some 0)) 0) two = Val (1, 10) two
  ∧ read_key (KeyInNode 0 0) two = Val 1 two
  ∧ operator_index 0 0 (KeyInNode 0 0) two = UB.
Proof.
  split; [exact two_reachable|].
  do 6 (split; [vm_compute; reflexivity|]). vm_compute. reflexivity.
Qed.

(** C10 as worded fails for a container merged with itself: [merge]
    returns at once, the flag set by an earlier [at] stays set, and a copy
    made next is a clone. *)
Lemma merge_self_keeps_flag :
  wf marked
  ∧ merge 0 0 0 marked = Val tt marked
  ∧ flag_of 0 marked = Some true
  ∧ ¬ resets_flag 0 (merge 0 0 0) 0 marked
  ∧ ∃ b w', copy_construct 0 0 marked = Val b w'
            ∧ ptrs w' !! b ≠ ptrs w' !! 0.
Proof.
  assert (Hm : merge 0 0 0 marked = Val tt marked) by (vm_compute; reflexivity).
  split; [exact marked_wf|]. split; [exact Hm|]. split; [vm_compute; reflexivity|].
  split.
  - intros H. destruct (H tt marked Hm) as [Hf _]. vm_compute in Hf. discriminate.
  - eexists _, _. split; [vm_compute; reflexivity|]. vm_compute. discriminate.
Qed.

(** X23 on [two]: container 3 is a copy of container 0, and an insertion
    in the copy leaves what container 0 shows. *)
Lemma copy_then_mutate_leaves_other_witness :
  wf two ∧ is_Some (ptrs two !! 0)
  ∧ copy_construct 0 0 two = Val 3 two_copied
  ∧ contents 3 two_copied = contents 0 two
  ∧ match mutate 0 3 (MInsert 3 30) (set_faults [] two_copied) with
    | Val _ w2 | Exc _ w2 => same_view 0 two_copied w2
    | UB => ∃ (kr : key_ref) (v : nat),
              MInsert 3 30 = MIndex kr v ∧ ¬ key_survives 3 kr two_copied
    end.
Proof.
  assert (Hc : copy_construct 0 0 two = Val 3 two_copied) by (vm_compute; reflexivity).
  split; [exact two_wf|]. split; [exact two_live|]. split; [exact Hc|].
  exact (copy_then_mutate_leaves_other 0 0 3 two two_copied 3 0 (MInsert 3 30) []
           two_wf two_live (or_introl Hc) (or_intror (conj eq_refl eq_refl)) I).
Defined.

(** C3 on [two]: inserting key 1 again returns false, keeps the value 10
    and moves the key behind key 2. *)
Lemma insert_moves_or_appends_witness :
  wf two ∧ contents 0 two = Some [(1, 10); (2, 20)]
  ∧ ∃ w', insert 0 0 1 99 two = Val false w'
          ∧ contents 0 w' = Some [(2, 20); (1, 10)].
Proof.
  assert (Hc : contents 0 two = Some [(1, 10); (2, 20)]) by (vm_compute; reflexivity).
  split; [exact two_wf|]. split; [exact Hc|].
  destruct (insert_moves_or_appends 0 0 1 99 _ two two_wf Hc) as [H Hret].
  destruct (Hret two_quiet) as (b & w' & Heq). rewrite Heq in H.
  change (assoc 1 [(1, 10); (2, 20)]) with (Some 10) in H.
  destruct H as [-> H]. exists w'. split; [exact Heq|].
  rewrite H. vm_compute. reflexivity.
Defined.

(** C4 on [fresh]: three insertions of distinct keys give size 3 and the
    keys in the order of the calls. *)
Lemma inserts_size_and_order_witness :
  wf fresh ∧ contents 0 fresh = Some []
  ∧ ∃ bs w' l, insert_all 0 0 [(3, 30); (1, 10); (2, 20)] fresh = Val bs w'
             ∧ size_of 0 w' = Some 3
             ∧ contents 0 w' = Some l ∧ l.*1 = [3; 1; 2].
Proof.
  assert (Hc : contents 0 fresh = Some []) by (vm_compute; reflexivity).
  split; [exact fresh_wf|]. split; [exact Hc|].
  destruct (inserts_size_and_order 0 0 [(3, 30); (1, 10); (2, 20)] fresh fresh_wf Hc)
    as [H Hret].
  destruct (Hret fresh_quiet) as (bs & w' & Heq).
  destruct (H bs w' Heq) as [Hs Ho].
  destruct Ho as (l & Hl & Hk).
  { apply (bool_decide_unpack _). vm_compute. exact I. }
  exists bs, w', l. split; [exact Heq|]. split; [|exact (conj Hl Hk)].
  rewrite Hs. vm_compute. reflexivity.
Defined.

(** C5 on [two]: key 7 is absent, and [erase] and both [at] throw the
    lookup error. *)
Lemma lookup_error_iff_absent_witness :
  wf two ∧ is_Some (ptrs two !! 0) ∧ has_key 0 7 two = Some false
  ∧ (∃ w', erase 0 0 7 two = Exc lookup_error w')
  ∧ (∃ w', at_ 0 0 7 two = Exc lookup_error w')
  ∧ (∃ w', at_const 0 7 two = Exc lookup_error w').
Proof.
  assert (Hk : has_key 0 7 two = Some false) by (vm_compute; reflexivity).
  assert (Hf : head (faults two) ≠ Some true) by (vm_compute; discriminate).
  split; [exact two_wf|]. split; [exact two_live|]. split; [exact Hk|].
  destruct (lookup_error_iff_absent 0 0 7 two two_wf two_live)
    as ([_ He] & [_ Ha] & [_ Hac]).
  split; [exact (He Hk Hf)|]. split; [exact (Ha Hk Hf)|exact (Hac Hk Hf)].
Defined.

(** X24 on [two]: [x[1]] returns a reference to the value 10, moves key 1
    behind key 2 and sets the escape flag. *)
Lemma index_inserts_or_moves_witness :
  wf two ∧ contents 0 two = Some [(1, 10); (2, 20)] ∧ faults two = []
  ∧ read_key (KeyValue 1) two = Val 1 two ∧ key_survives 0 (KeyValue 1) two
  ∧ ∃ r w', operator_index 0 0 (KeyValue 1) two = Val r w'
            ∧ contents 0 w' = Some [(2, 20); (1, 10)]
            ∧ flag_of 0 w' = Some true
            ∧ read_ref r w' = Val 10 w'.
Proof.
  assert (Hc : contents 0 two = Some [(1, 10); (2, 20)]) by (vm_compute; reflexivity).
  assert (Hk : read_key (KeyValue 1) two = Val 1 two) by reflexivity.
  split; [exact two_wf|]. split; [exact Hc|]. split; [exact two_quiet|].
  split; [exact Hk|]. split; [exact I|].
  destruct (index_inserts_or_moves 0 0 (KeyValue 1) 1 _ two two_wf Hc two_quiet Hk I)
    as (r & w' & lc & Heq & Hlc & Hfl & Hm & _).
  change (assoc 1 [(1, 10); (2, 20)]) with (Some 10) in Hm.
  destruct Hm as [-> Hr]. exists r, w'. split; [exact Heq|].
  split; [|exact (conj Hfl Hr)]. rewrite Hlc. vm_compute. reflexivity.
Defined.

(** C7 on [pair]: the example of the design document. *)
Lemma merge_inserts_in_order_witness :
  wf pair ∧ 2 ≠ 0
  ∧ contents 0 pair = Some [(1, 1)]
  ∧ contents 2 pair = Some [(1, 2); (2, 3)]
  ∧ faults pair = []
  ∧ ∃ w', merge 0 0 2 pair = Val tt w'
          ∧ contents 0 w' = Some [(1, 1); (2, 3)]
          ∧ contents 2 w' = Some [(1, 2); (2, 3)].
Proof.
  assert (Ha : contents 0 pair = Some [(1, 1)]) by (vm_compute; reflexivity).
  assert (Hb : contents 2 pair = Some [(1, 2); (2, 3)]) by (vm_compute; reflexivity).
  assert (Hf : faults pair = []) by (vm_compute; reflexivity).
  assert (Hne : 2 ≠ 0) by lia.
  split; [exact pair_wf|]. split; [exact Hne|]. split; [exact Ha|].
  split; [exact Hb|]. split; [exact Hf|].
  destruct (merge_inserts_in_order (K := nat) 0 0 2) as [_ H].
  destruct (H _ _ pair pair_wf Hne Ha Hb Hf) as (w' & Heq & _ & Hb' & Hex).
  exists w'. split; [exact Heq|]. split; [|exact Hb'].
  apply (Hex 1 2 1 2 3); [lia|reflexivity|reflexivity].
Defined.

(** C8 on [two], a state reached by three calls. *)
Lemma reachable_shared_state_inv_witness :
  reachable 0 two
  ∧ (∀ a s, objs two !! a = Some s →
       shared_state_inv s ∧ ∀ n0, shared_state_inv (map_structure_copy 0 n0 s))
  ∧ ∀ c fs w', call_ok two c →
       outcome (run_call 0 c (set_faults fs two)) = Some w' →
       ∀ a s, objs w' !! a = Some s → shared_state_inv s.
Proof.
  split; [exact two_reachable|].
  exact (reachable_shared_state_inv 0 two two_reachable).
Defined.

(** C9 on [two]. *)
Lemma queries_change_nothing_witness :
  wf two ∧ is_Some (ptrs two !! 0)
  ∧ query_ok (size_ 0) two
  ∧ query_ok (contains 0 1) two
  ∧ query_ok (at_const 0 1) two
  ∧ query_ok (to_list 0) two.
Proof.
  split; [exact two_wf|]. split; [exact two_live|].
  destruct (queries_change_nothing 0 1 two two_wf two_live)
    as (Hs & _ & Hc & Ha & _ & _ & Hl & _).
  exact (conj Hs (conj Hc (conj Ha Hl))).
Defined.

(** C10 on [marked]: the flag is set, container 0 owns its structure
    alone, and an insertion made in place clears the flag. *)
Lemma mutation_resets_flag_witness :
  wf marked ∧ is_Some (ptrs marked !! 0)
  ∧ flag_of 0 marked = Some true
  ∧ ∃ b w', insert 0 0 2 20 marked = Val b w'
            ∧ flag_of 0 w' = Some false
            ∧ ptrs w' !! 0 = ptrs marked !! 0.
Proof.
  split; [exact marked_wf|]. split; [exact marked_live|].
  split; [vm_compute; reflexivity|].
  destruct (mutation_resets_flag 0 0 2 20 marked marked_wf marked_live)
    as [[Hr Hp] _].
  destruct (insert 0 0 2 20 marked) as [b w'|e w'|] eqn:Heq.
  - exists b, w'. split; [reflexivity|]. split; [exact (proj1 (Hr b w' Heq))|].
    rewrite (Hp 0 b w'); [| | |exact Heq]; vm_compute; reflexivity.
  - vm_compute in Heq. discriminate.
  - vm_compute in Heq. discriminate.
Defined.

(** * Further runs on containers of numbers *)

(** The state a call leaves, whether it returns or throws. *)
Definition state_of {A} (r : result (K := nat) (V := nat) A)
  : world (K := nat) (V := nat) :=
  default init_world (outcome r).

(** [two] after [insert(3, 30)], then after [erase(3)]. *)
Definition two_grown : world (K := nat) (V := nat) :=
  state_after [CallConstruct; CallInsert 0 1 10; CallInsert 0 2 20;
               CallInsert 0 3 30].
Definition two_grown_erased : world (K := nat) (V := nat) :=
  state_after [CallConstruct; CallInsert 0 1 10; CallInsert 0 2 20;
               CallInsert 0 3 30; CallErase 0 3].

(** [marked] after a copy of container 0 was constructed, container 3. *)
Definition marked_copied : world (K := nat) (V := nat) :=
  state_after [CallConstruct; CallInsert 0 1 10; CallAt 0 1; CallCopyConstruct 0].

(** [pair] after [0 = 2], and [pair] after [0.merge(2)]. *)
Definition pair_assigned : world (K := nat) (V := nat) :=
  state_after [CallConstruct; CallInsert 0 1 1; CallConstruct;
               CallInsert 2 1 2; CallInsert 2 2 3; CallCopyAssign 0 2].
Definition pair_merged : world (K := nat) (V := nat) :=
  state_after [CallConstruct; CallInsert 0 1 1; CallConstruct;
               CallInsert 2 1 2; CallInsert 2 2 3; CallMerge 0 2].

(** The structure of container 0 in [two]. *)
Definition two_structure : map_structure (K := nat) (V := nat) :=
  default map_structure_default (objs two !! 0).

Lemma two_copied_wf : wf two_copied.
Proof. apply state_after_wf. vm_compute. by eexists. Qed.

Lemma two_contents : contents 0 two = Some [(1, 10); (2, 20)].
Proof. vm_compute. reflexivity. Qed.

Lemma pair_live : is_Some (ptrs pair !! 0) ∧ is_Some (ptrs pair !! 2).
Proof. split; vm_compute; by eexists. Qed.

Lemma two_structure_inv : inv two_structure.
Proof. apply (wf_inv two two_wf 0). vm_compute. reflexivity. Qed.

(** X1 on [two]. *)
Lemma queries_agree_with_walk_witness :
  wf two ∧ contents 0 two = Some [(1, 10); (2, 20)]
  ∧ size_ 0 two = Val 2 two ∧ contains 0 1 two = Val true two
  ∧ at_const 0 2 two = Val 20 two.
Proof.
  split; [exact two_wf|]. split; [exact two_contents|].
  destruct (queries_agree_with_walk 0 1 _ two two_wf two_contents)
    as (_ & Hs & _ & _ & _ & Hrun).
  destruct (queries_agree_with_walk 0 2 _ two two_wf two_contents)
    as (_ & _ & _ & _ & _ & Hrun2).
  split; [exact Hs|]. split.
  - rewrite (proj1 (Hrun two_quiet)). vm_compute. reflexivity.
  - apply (proj2 (Hrun2 two_quiet)). vm_compute. reflexivity.
Defined.

(** X2 on [two]: erasing key 1 leaves (2, 20). *)
Lemma erase_removes_pair_witness :
  wf two ∧ contents 0 two = Some [(1, 10); (2, 20)] ∧ 1 ∈ [(1, 10); (2, 20)].*1
  ∧ ∃ w', erase 0 0 1 two = Val tt w' ∧ contents 0 w' = Some [(2, 20)]
          ∧ has_key 0 1 w' = Some false.
Proof.
  assert (Hin : 1 ∈ [(1, 10); (2, 20)].*1).
  { apply (bool_decide_unpack _). vm_compute. exact I. }
  split; [exact two_wf|]. split; [exact two_contents|]. split; [exact Hin|].
  destruct (erase_removes_pair 0 0 1 _ two two_wf two_contents Hin) as [H Hret].
  destruct (Hret two_quiet) as [w' Heq]. exists w'. split; [exact Heq|].
  destruct (H w' Heq) as (Hc & _ & Hk & _). split; [|exact Hk].
  rewrite Hc. vm_compute. reflexivity.
Defined.

(** X3 on [two]. *)
Lemma clear_empties_witness :
  wf two ∧ contents 0 two = Some [(1, 10); (2, 20)]
  ∧ ∃ w', clear 0 0 two = Val tt w' ∧ contents 0 w' = Some []
          ∧ empty_ 0 w' = Val true w'.
Proof.
  split; [exact two_wf|]. split; [exact two_contents|].
  destruct (clear_empties 0 0 _ two two_wf two_contents) as [H Hret].
  destruct (Hret two_quiet) as [w' Heq]. exists w'. split; [exact Heq|].
  rewrite Heq in H. destruct H as (Hc & _ & He & _). exact (conj Hc He).
Defined.

(** X4 on [two]. *)
Lemma at_refers_to_value_witness :
  wf two ∧ contents 0 two = Some [(1, 10); (2, 20)]
  ∧ assoc 1 [(1, 10); (2, 20)] = Some 10 ∧ faults two = []
  ∧ ∃ r w', at_ 0 0 1 two = Val r w' ∧ read_ref r w' = Val 10 w'
            ∧ flag_of 0 w' = Some true
            ∧ ∃ w'', write_ref r 99 w' = Val tt w''
                     ∧ contents 0 w'' = Some [(1, 99); (2, 20)].
Proof.
  assert (Ha : assoc 1 [(1, 10); (2, 20)] = Some 10) by (vm_compute; reflexivity).
  split; [exact two_wf|]. split; [exact two_contents|]. split; [exact Ha|].
  split; [exact two_quiet|].
  destruct (at_refers_to_value 0 0 1 10 _ two two_wf two_contents Ha two_quiet)
    as (r & w' & Heq & Hr & _ & Hf & Hwr).
  exists r, w'. split; [exact Heq|]. split; [exact Hr|]. split; [exact Hf|].
  destruct (Hwr 99) as (w'' & Hw'' & Hc'' & _). exists w''. split; [exact Hw''|].
  rewrite Hc''. vm_compute. reflexivity.
Defined.

(** X5 on [fresh]. *)
Lemma construct_is_empty_witness :
  wf fresh
  ∧ ∃ x w', construct fresh = Val x w' ∧ contents x w' = Some []
            ∧ same_view 0 fresh w'.
Proof.
  split; [exact fresh_wf|].
  destruct (construct_is_empty fresh fresh_wf) as [H Hret].
  destruct (Hret fresh_quiet) as (x & w' & Heq). exists x, w'. split; [exact Heq|].
  rewrite Heq in H. destruct H as (_ & Hc & _ & Hfr). split; [exact Hc|].
  apply Hfr. vm_compute. by eexists.
Defined.

(** X6 on [two]. *)
Lemma move_construct_transfers_witness :
  wf two ∧ contents 0 two = Some [(1, 10); (2, 20)]
  ∧ ∃ x w', move_construct 0 two = Val x w'
            ∧ contents x w' = Some [(1, 10); (2, 20)]
            ∧ contents 0 w' = Some [].
Proof.
  split; [exact two_wf|]. split; [exact two_contents|].
  destruct (move_construct_transfers 0 _ two two_wf two_contents) as [H Hret].
  destruct (Hret two_quiet) as (x & w' & Heq). exists x, w'. split; [exact Heq|].
  rewrite Heq in H. destruct H as (_ & _ & _ & Hc & _ & Hc0 & _).
  exact (conj Hc Hc0).
Defined.

(** X7 on [marked]: the flag is set, the copy is a clone. *)
Lemma copy_shares_unless_flagged_witness :
  wf marked ∧ flag_of 0 marked = Some true
  ∧ copy_construct 0 0 marked = Val 3 marked_copied
  ∧ ptrs marked_copied !! 3 ≠ ptrs marked_copied !! 0
  ∧ contents 3 marked_copied = contents 0 marked.
Proof.
  assert (Hf : flag_of 0 marked = Some true) by (vm_compute; reflexivity).
  assert (Heq : copy_construct 0 0 marked = Val 3 marked_copied)
    by (vm_compute; reflexivity).
  split; [exact marked_wf|]. split; [exact Hf|]. split; [exact Heq|].
  pose proof (copy_shares_unless_flagged 0 0 true marked marked_wf Hf) as H.
  rewrite Heq in H. destruct H as (_ & _ & Hiff & Hc & _).
  split; [|exact Hc]. intros Hsh. apply Hiff in Hsh. discriminate Hsh.
Defined.

(** X8 on [pair]: [0 = 2]. *)
Lemma copy_assign_takes_view_witness :
  wf pair ∧ is_Some (ptrs pair !! 0) ∧ is_Some (ptrs pair !! 2)
  ∧ copy_assign 0 0 2 pair = Val tt pair_assigned
  ∧ contents 0 pair_assigned = contents 2 pair
  ∧ same_view 2 pair pair_assigned.
Proof.
  assert (Heq : copy_assign 0 0 2 pair = Val tt pair_assigned)
    by (vm_compute; reflexivity).
  split; [exact pair_wf|]. split; [exact (proj1 pair_live)|].
  split; [exact (proj2 pair_live)|]. split; [exact Heq|].
  pose proof (copy_assign_takes_view 0 0 2 pair pair_wf (proj1 pair_live)
                (proj2 pair_live)) as H.
  rewrite Heq in H. destruct H as (Hc & _ & Hfr). split; [exact Hc|].
  apply Hfr; [lia|exact (proj2 pair_live)].
Defined.

(** X9 on [pair]: [0 = std::move(2)]. *)
Lemma move_assign_transfers_witness :
  wf pair ∧ is_Some (ptrs pair !! 0) ∧ contents 2 pair = Some [(1, 2); (2, 3)]
  ∧ ∃ w', move_assign 0 0 2 pair = Val tt w'
          ∧ contents 0 w' = Some [(1, 2); (2, 3)] ∧ contents 2 w' = Some [].
Proof.
  assert (Hc : contents 2 pair = Some [(1, 2); (2, 3)]) by (vm_compute; reflexivity).
  assert (Hf : faults pair = []) by (vm_compute; reflexivity).
  split; [exact pair_wf|]. split; [exact (proj1 pair_live)|]. split; [exact Hc|].
  destruct (move_assign_transfers 0 0 2 _ pair pair_wf (proj1 pair_live) Hc)
    as [H Hret].
  destruct (Hret Hf) as [w' Heq]. exists w'. split; [exact Heq|].
  rewrite Heq in H. destruct H as (Hc0 & _ & Hc2 & _). split; [exact Hc0|].
  apply Hc2. lia.
Defined.

(** X10 on [two]: the failing call of C2. *)
Lemma failed_index_keeps_pairs_witness :
  wf (set_faults [false; false; false; true] two)
  ∧ contents 0 (set_faults [false; false; false; true] two)
    = Some [(1, 10); (2, 20)]
  ∧ read_key (KeyValue 1) (set_faults [false; false; false; true] two)
    = Val 1 (set_faults [false; false; false; true] two)
  ∧ operator_index 0 0 (KeyValue 1) (set_faults [false; false; false; true] two)
    = Exc injected_failure
          (state_of (operator_index 0 0 (KeyValue 1)
                       (set_faults [false; false; false; true] two)))
  ∧ ∃ l', contents 0 (state_of (operator_index 0 0 (KeyValue 1)
                                  (set_faults [false; false; false; true] two)))
          = Some l'
          ∧ l' ≡ₚ [(1, 10); (2, 20)].
Proof.
  assert (Hw : wf (set_faults [false; false; false; true] two))
    by exact (wf_set_faults _ _ two_wf).
  assert (Hc : contents 0 (set_faults [false; false; false; true] two)
               = Some [(1, 10); (2, 20)]) by (vm_compute; reflexivity).
  assert (Hk : read_key (KeyValue 1) (set_faults [false; false; false; true] two)
               = Val 1 (set_faults [false; false; false; true] two)) by reflexivity.
  assert (Heq : operator_index 0 0 (KeyValue 1)
                  (set_faults [false; false; false; true] two)
    = Exc injected_failure
          (state_of (operator_index 0 0 (KeyValue 1)
                       (set_faults [false; false; false; true] two))))
    by (vm_compute; reflexivity).
  split; [exact Hw|]. split; [exact Hc|]. split; [exact Hk|]. split; [exact Heq|].
  destruct (failed_index_keeps_pairs 0 0 (KeyValue 1) 1 _ _ _ _ Hw Hc Hk Heq)
    as (_ & _ & _ & Hp & _).
  exact Hp.
Defined.

(** X11 on [two]: the reference to the value of key 1, then the copy 4. *)
Lemma flagged_copy_is_isolated_witness :
  wf two ∧ is_Some (ptrs two !! 0)
  ∧ at_ 0 0 1 two = Val (Ref 0 1) two_lent
  ∧ own_ref 0 (Ref 0 1) two_lent ∧ flag_of 0 two_lent = Some true
  ∧ copy_construct 0 0 (set_faults [] two_lent) = Val 4 two_lent_copied
  ∧ ∃ w3, write_ref (Ref 0 1) 99 two_lent_copied = Val tt w3
          ∧ contents 4 w3 = Some [(1, 10); (2, 20)]
          ∧ contents 0 w3 = Some [(1, 99); (2, 20)].
Proof.
  assert (Hat : at_ 0 0 1 two = Val (Ref 0 1) two_lent) by (vm_compute; reflexivity).
  assert (Hcp : copy_construct 0 0 (set_faults [] two_lent) = Val 4 two_lent_copied)
    by (vm_compute; reflexivity).
  destruct (flagged_copy_is_isolated (K := nat) 0 0) as [Hlend Hcopy].
  destruct (Hlend 1 two (Ref 0 1) two_lent two_wf two_live (or_introl Hat))
    as (Hw1 & Hown & _ & Hfl).
  split; [exact two_wf|]. split; [exact two_live|]. split; [exact Hat|].
  split; [exact Hown|]. split; [exact Hfl|]. split; [exact Hcp|].
  destruct (Hcopy two_lent (Ref 0 1) [] 4 two_lent_copied 99 Hw1 Hown Hfl Hcp)
    as (l1 & w3 & Hl1 & _ & _ & Hwr & Hcx & _ & Hc0).
  assert (Hl : l1 = [(1, 10); (2, 20)]).
  { assert (Hc : contents 0 two_lent = Some [(1, 10); (2, 20)])
      by (vm_compute; reflexivity).
    rewrite Hc in Hl1. injection Hl1 as <-. reflexivity. }
  rewrite Hl in Hcx, Hc0.
  exists w3. split; [exact Hwr|]. split; [exact Hcx|].
  rewrite Hc0. vm_compute. reflexivity.
Defined.

(** X12 on [two]: the reference, an insertion, then the copy 5. *)
Lemma reference_reaches_later_copy_witness :
  wf two ∧ is_Some (ptrs two !! 0)
  ∧ at_ 0 0 1 two = Val (Ref 0 1) two_lent
  ∧ insert 0 0 3 30 (set_faults [] two_lent) = Val true two_lent_grown
  ∧ copy_construct 0 0 (set_faults [] two_lent_grown) = Val 5 two_lent_grown_copied
  ∧ ∃ w4, write_ref (Ref 0 1) 99 two_lent_grown_copied = Val tt w4
          ∧ contents 5 w4 = Some [(1, 99); (2, 20); (3, 30)].
Proof.
  assert (Hat : at_ 0 0 1 two = Val (Ref 0 1) two_lent) by (vm_compute; reflexivity).
  assert (Hin : insert 0 0 3 30 (set_faults [] two_lent) = Val true two_lent_grown)
    by (vm_compute; reflexivity).
  assert (Hcp : copy_construct 0 0 (set_faults [] two_lent_grown)
                = Val 5 two_lent_grown_copied) by (vm_compute; reflexivity).
  split; [exact two_wf|]. split; [exact two_live|]. split; [exact Hat|].
  split; [exact Hin|]. split; [exact Hcp|].
  destruct (reference_reaches_later_copy 0 0 1 two (Ref 0 1) two_lent [] 3 30 true
              two_lent_grown [] 5 two_lent_grown_copied 99 two_wf two_live
              (or_introl Hat) Hin Hcp)
    as (l2 & w4 & Hl2 & _ & _ & _ & Hwr & _ & Hcx).
  assert (Hl : l2 = [(1, 10); (2, 20); (3, 30)]).
  { assert (Hc : contents 0 two_lent_grown_copied = Some [(1, 10); (2, 20); (3, 30)])
      by (vm_compute; reflexivity).
    rewrite Hc in Hl2. injection Hl2 as <-. reflexivity. }
  rewrite Hl in Hcx.
  exists w4. split; [exact Hwr|]. rewrite Hcx. vm_compute. reflexivity.
Defined.

(** X13 on [two]: erasing the absent key 7. *)
Lemma mutation_exceptions_witness :
  wf two ∧ is_Some (ptrs two !! 0) ∧ mutation_ok two (MErase 7)
  ∧ match mutate 0 0 (MErase 7) two with
    | Val _ _ => True
    | Exc e _ =>
        (e = injected_failure ∧ faults two ≠ [])
        ∨ (e = lookup_error
           ∧ ∃ k, has_key 0 k two = Some false
                  ∧ (MErase (V := nat) 7 = MErase k ∨ ∃ v : nat, MErase 7 = MAt k v))
    | UB => ∃ (kr : key_ref) (v : nat),
              MErase 7 = MIndex kr v ∧ ¬ key_survives 0 kr two
    end.
Proof.
  split; [exact two_wf|]. split; [exact two_live|]. split; [exact I|].
  exact (mutation_exceptions 0 0 (MErase 7) two two_wf two_live I).
Defined.

(** X14 on [two]: an insertion whose first library call fails. *)
Lemma container_calls_defined_witness :
  reachable 0 two ∧ call_ok two (CallInsert 0 5 50)
  ∧ container_call (CallInsert (V := nat) 0 5 50) = true
  ∧ (∀ x kr, CallInsert (V := nat) 0 5 50 = CallIndex x kr → key_survives x kr two)
  ∧ ∃ w', outcome (run_call 0 (CallInsert 0 5 50) (set_faults [true] two)) = Some w'
          ∧ reachable 0 w' ∧ wf w'.
Proof.
  assert (Hk : ∀ x kr, CallInsert (V := nat) 0 5 50 = CallIndex x kr →
                       key_survives x kr two).
  { intros x kr H. discriminate H. }
  split; [exact two_reachable|]. split; [exact two_live|]. split; [reflexivity|].
  split; [exact Hk|].
  exact (container_calls_defined 0 (CallInsert 0 5 50) [true] two two_reachable
           two_live eq_refl Hk).
Defined.

(** X15 on the structure of container 0 in [two]. *)
Lemma clone_shows_the_same_witness :
  inv two_structure
  ∧ items (map_structure_copy 0 7 two_structure) = items two_structure
  ∧ (insertions (map_structure_copy 0 7 two_structure)).*1 = [7; 8].
Proof.
  split; [exact two_structure_inv|].
  destruct (clone_shows_the_same 0 7 two_structure two_structure_inv)
    as (Hit & _ & _ & _ & Hn & _).
  split; [exact Hit|]. rewrite Hn. vm_compute. reflexivity.
Defined.

(** X16 on [two], where container 0 holds its structure alone. *)
Lemma copy_on_write_unshares_witness :
  wf two ∧ ptrs two !! 0 = Some 0 ∧ objs two !! 0 = Some two_structure
  ∧ ∃ old w1, copy_on_write 0 0 two = Val old w1
              ∧ ptrs w1 !! old = Some 0 ∧ ptrs w1 !! 0 = Some 0.
Proof.
  assert (Hp : ptrs two !! 0 = Some 0) by (vm_compute; reflexivity).
  assert (Ho : objs two !! 0 = Some two_structure) by (vm_compute; reflexivity).
  assert (Hown : owners 0 (ptrs two) = 1) by (vm_compute; reflexivity).
  split; [exact two_wf|]. split; [exact Hp|]. split; [exact Ho|].
  pose proof (copy_on_write_unshares 0 0 0 two_structure two two_wf Hp Ho) as H.
  destruct (copy_on_write 0 0 two) as [old w1|e w1|].
  - exists old, w1. split; [reflexivity|].
    destruct H as (_ & Hold & _ & a1 & s1 & Hthis & _ & _ & _ & Hiff).
    split; [exact Hold|]. rewrite Hthis. f_equal. apply Hiff. exact Hown.
  - destruct H as (_ & Hf & _). destruct (Hf two_quiet).
  - destruct H.
Defined.

(** X17 on [two]: the second pair. *)
Lemma walk_visits_pairs_in_order_witness :
  wf two ∧ contents 0 two = Some [(1, 10); (2, 20)]
  ∧ ∃ b e i, begin 0 two = Val b two ∧ end_ 0 two = Val e two
      ∧ advance 1 b two = Val i two
      ∧ iterator_ne i e = true
      ∧ iterator_deref i two = Val (2, 20) two.
Proof.
  split; [exact two_wf|]. split; [exact two_contents|].
  destruct (walk_visits_pairs_in_order 0 _ two two_wf two_contents)
    as (b & e & Hb & He & H).
  assert (Hle : 1 ≤ length [(1, 10); (2, 20)]) by (simpl; lia).
  destruct (H 1 Hle) as (i & Hadv & _ & Hne & Hd).
  exists b, e, i. split; [exact Hb|]. split; [exact He|]. split; [exact Hadv|].
  split; [rewrite Hne; vm_compute; reflexivity|].
  exact (proj1 (proj2 (Hd (2, 20) eq_refl) two_quiet)).
Defined.

(** X18 on [two]: the new key 3. *)
Lemma insert_then_lookup_witness :
  wf two ∧ contents 0 two = Some [(1, 10); (2, 20)]
  ∧ insert 0 0 3 30 two = Val true two_grown
  ∧ at_const 0 3 (set_faults [] two_grown) = Val 30 (set_faults [] two_grown).
Proof.
  assert (Hin : insert 0 0 3 30 two = Val true two_grown) by (vm_compute; reflexivity).
  split; [exact two_wf|]. split; [exact two_contents|]. split; [exact Hin|].
  destruct (insert_then_lookup 0 0 3 30 _ two true two_grown [] two_wf
              two_contents Hin) as (_ & Hat & _).
  exact Hat.
Defined.

(** X19 on [two]: the new key 3, inserted and erased. *)
Lemma insert_then_erase_witness :
  wf two ∧ contents 0 two = Some [(1, 10); (2, 20)]
  ∧ insert 0 0 3 30 two = Val true two_grown
  ∧ erase 0 0 3 (set_faults [] two_grown) = Val tt two_grown_erased
  ∧ contents 0 two_grown_erased = Some [(1, 10); (2, 20)].
Proof.
  assert (Hin : insert 0 0 3 30 two = Val true two_grown) by (vm_compute; reflexivity).
  assert (Her : erase 0 0 3 (set_faults [] two_grown) = Val tt two_grown_erased)
    by (vm_compute; reflexivity).
  split; [exact two_wf|]. split; [exact two_contents|]. split; [exact Hin|].
  split; [exact Her|].
  destruct (insert_then_erase 0 0 3 30 _ two true two_grown [] two_grown_erased
              two_wf two_contents Hin Her) as (_ & Hb & _).
  exact (Hb eq_refl).
Defined.

(** X20 on [pair]. *)
Lemma merge_is_union_witness :
  wf pair ∧ 2 ≠ 0 ∧ contents 0 pair = Some [(1, 1)]
  ∧ contents 2 pair = Some [(1, 2); (2, 3)]
  ∧ merge 0 0 2 pair = Val tt pair_merged
  ∧ ∃ l', contents 0 pair_merged = Some l' ∧ l'.*1 = [1; 2]
          ∧ assoc 1 l' = Some 1 ∧ assoc 2 l' = Some 3.
Proof.
  assert (Ha : contents 0 pair = Some [(1, 1)]) by (vm_compute; reflexivity).
  assert (Hb : contents 2 pair = Some [(1, 2); (2, 3)]) by (vm_compute; reflexivity).
  assert (Hm : merge 0 0 2 pair = Val tt pair_merged) by (vm_compute; reflexivity).
  assert (Hne : 2 ≠ 0) by lia.
  split; [exact pair_wf|]. split; [exact Hne|]. split; [exact Ha|].
  split; [exact Hb|]. split; [exact Hm|].
  destruct (merge_is_union 0 0 2 _ _ pair pair_merged pair_wf Hne Ha Hb Hm)
    as (l' & Hc & Hk & Hv & _).
  exists l'. split; [exact Hc|]. split; [rewrite Hk; vm_compute; reflexivity|].
  split; rewrite Hv; vm_compute; reflexivity.
Defined.

(** X21 on [two_copied]: the original is destroyed, the copy 3 stays. *)
Lemma destroy_leaves_others_witness :
  wf two_copied ∧ is_Some (ptrs two_copied !! 0)
  ∧ ∃ w', destroy 0 two_copied = Val tt w' ∧ ptrs w' !! 0 = None
          ∧ same_view 3 two_copied w'.
Proof.
  assert (H0 : is_Some (ptrs two_copied !! 0)) by (vm_compute; by eexists).
  assert (H3 : is_Some (ptrs two_copied !! 3)) by (vm_compute; by eexists).
  split; [exact two_copied_wf|]. split; [exact H0|].
  destruct (destroy_leaves_others 0 two_copied two_copied_wf H0)
    as (w' & Heq & _ & Hgone & _ & Hfr).
  exists w'. split; [exact Heq|]. split; [exact Hgone|].
  apply (Hfr 3); [lia|exact H3].
Defined.

(** X22 on [two]: an insertion whose first library call fails. *)
Lemma failed_mutation_is_undone_witness :
  wf (set_faults [true] two) ∧ is_Some (ptrs (set_faults [true] two) !! 0)
  ∧ mutate 0 0 (MInsert 3 30) (set_faults [true] two)
    = Exc injected_failure (state_of (mutate 0 0 (MInsert 3 30) (set_faults [true] two)))
  ∧ same_view 0 (set_faults [true] two)
      (state_of (mutate 0 0 (MInsert 3 30) (set_faults [true] two))).
Proof.
  assert (Hw : wf (set_faults [true] two)) by exact (wf_set_faults _ _ two_wf).
  assert (Hl : is_Some (ptrs (set_faults [true] two) !! 0)) by exact two_live.
  assert (Heq : mutate 0 0 (MInsert 3 30) (set_faults [true] two)
    = Exc injected_failure (state_of (mutate 0 0 (MInsert 3 30) (set_faults [true] two))))
    by (vm_compute; reflexivity).
  assert (Hm : ∀ (k : key_ref) (v : nat), MInsert 3 30 ≠ MIndex k v).
  { intros k v Hk. discriminate Hk. }
  split; [exact Hw|]. split; [exact Hl|]. split; [exact Heq|].
  exact (proj2 (failed_mutation_is_undone 0 0 (MInsert 3 30) (set_faults [true] two)
                  injected_failure _ Hw Hl I Hm Heq) 0 Hl).
Defined.

